(** * CMLRE ocean research platform: the real-time event core

    A shallow embedding of [server/services/websocket.ts] (class
    [WebSocketService]) and [server/services/ai-training.ts] (class
    [AITrainingService]), and the properties of the connection registry,
    the broadcast hub, the heartbeat monitor and the simulated training
    jobs.

    Conventions of the embedding:
    - a JavaScript [Map<string, V>] is an insertion-ordered association
      list with at most one entry per key ([JSMap]); a [Set<string>] is an
      insertion-ordered list without repetition ([JSSet]);
    - [Date.now()] is an integer number of milliseconds ([Z]);
    - JavaScript numbers that hold metrics and durations are real numbers
      ([R]): IEEE-754 rounding is not modelled, and the theorems on such
      numbers claim the bounds that rounding keeps (closed where a rounded
      value can reach the end point); the one quotient of the services
      whose divisor can be zero is a [Quotient], which can be [NaN];
    - the integers of a configuration are those a JavaScript number holds
      exactly, below [2^53] in magnitude ([safeInteger]);
    - every call of [Math.random()] is an explicit argument, a draw in
      [0, 1);
    - what the services do to the outside world (socket sends, pings,
      emitted events, calls of the storage layer, console lines) is
      recorded in effect lists; what the outside world answers (the id the
      storage layer gives a new record, the parsed form of an incoming
      frame) is an argument;
    - the listeners of the emitted events are not part of the services:
      they are taken not to throw and not to call back into them. *)

From Stdlib Require Import List String Ascii Bool ZArith Lia.
From Stdlib Require Import DecimalString.
From Stdlib Require Import Reals Lra.
Import ListNotations.

Local Open Scope string_scope.
Local Open Scope list_scope.
Local Open Scope Z_scope.

(** ** JavaScript values returned by the modelled methods *)

Inductive JSValue : Type :=
| JSUndefined
| JSNumber (n : Z)
| JSBoolean (b : bool).

(** ** [Map<string, V>] *)

Module JSMap.
Section WithValue.
Context {V : Type}.

Definition t := list (string * V).

Definition empty : t := [].

Fixpoint get (k : string) (m : t) : option V :=
  match m with
  | [] => None
  | (k', v) :: r => if String.eqb k' k then Some v else get k r
  end.

Definition has (k : string) (m : t) : bool :=
  match get k m with Some _ => true | None => false end.

(** [Map.prototype.set]: an existing key keeps its position. *)
Fixpoint set (k : string) (v : V) (m : t) : t :=
  match m with
  | [] => [(k, v)]
  | (k', v') :: r =>
      if String.eqb k' k then (k, v) :: r else (k', v') :: set k v r
  end.

Definition delete (k : string) (m : t) : t :=
  filter (fun e => negb (String.eqb (fst e) k)) m.

Definition keys (m : t) : list string := map fst m.
Definition values (m : t) : list V := map snd m.
Definition size (m : t) : Z := Z.of_nat (List.length m).

(** The representation invariant of a [Map]: one entry per key. *)
Definition wf (m : t) : Prop := NoDup (keys m).
End WithValue.
Arguments t : clear implicits.
End JSMap.

(** ** [Set<string>] *)

Module JSSet.
Definition t := list string.

Definition empty : t := [].

Definition has (x : string) (s : t) : bool := existsb (String.eqb x) s.

Definition add (x : string) (s : t) : t := if has x s then s else s ++ [x].

Definition delete (x : string) (s : t) : t :=
  filter (fun y => negb (String.eqb y x)) s.
End JSSet.

(** ** Completions: a call returns normally or throws *)

Inductive Completion (A : Type) : Type :=
| Normal (v : A)
| Throw.
Arguments Normal {A} v.
Arguments Throw {A}.

(** Decimal rendering of an integer inside a template literal (all its
    digits, as JavaScript writes a number below [10^21]). *)
Definition decimal (z : Z) : string :=
  DecimalString.NilZero.string_of_int (Z.to_int z).

(** [s.substring(n)]: [s] without its first [n] characters. *)
Fixpoint substringFrom (n : nat) (s : string) : string :=
  match n, s with
  | O, _ => s
  | S n', String _ r => substringFrom n' r
  | S _, EmptyString => EmptyString
  end.

(** * The WebSocket service (class [WebSocketService]) *)

Module WebSocketService.

(** [ws.readyState] of the transport. *)
Inductive ReadyState : Type := CONNECTING | OPEN | CLOSING | CLOSED.

Definition isOpen (r : ReadyState) : bool :=
  match r with OPEN => true | _ => false end.

(** The transport handle, as far as the service observes it: its ready
    state, and whether [ws.send] throws when called. *)
Record WebSocket : Type := {
  readyState : ReadyState;
  sendThrows : bool
}.

(** [data: any]: a value [JSON.stringify] renders, given by its rendering
    and by whether it is truthy, or an object on which [JSON.stringify]
    throws (one with a cycle). *)
Inductive Data : Type :=
| Json (text : string) (isTruthy : bool)
| Unserializable.

(** [interface WebSocketMessage] *)
Record WebSocketMessage : Type := {
  type : string;
  data : Data;
  timestamp : string
}.

(** [Partial<WebSocketMessage>] *)
Record PartialMessage : Type := {
  type_opt : option string;
  data_opt : option Data;
  timestamp_opt : option string
}.

(** [interface ConnectedClient] *)
Record ConnectedClient : Type := {
  ws : WebSocket;
  id : string;
  subscriptions : JSSet.t;
  lastPing : Z
}.

Definition Clients := JSMap.t ConnectedClient.

(** What the service does to the transports and to the console. *)
Inductive Effect : Type :=
| Send (clientId : string) (m : WebSocketMessage)
| Ping (clientId : string)
| Terminate (clientId : string)
| Close (clientId : string)
| LogConnected (clientId : string) (total : Z)
| LogDisconnected (clientId : string) (total : Z)
| LogParseError (clientId : string)
| LogSocketError (clientId : string)
| LogSendError (clientId : string)
| LogHeartbeatFailed (clientId : string)
| LogUnknownMessage (clientId : string) (type : string)
| LogBroadcast (type : string) (sentCount : Z) (channel : option string)
| LogShutDown.

(** [client.ws.send(JSON.stringify(message))] *)
Definition send (client : ConnectedClient) (message : WebSocketMessage)
  : Completion (list Effect) :=
  match data message with
  | Unserializable => Throw
  | Json _ _ =>
      if sendThrows (ws client) then Throw
      else Normal [Send (id client) message]
  end.

(** [generateClientId()], with [now] the value of [Date.now()] and [rnd36]
    the string [Math.random().toString(36)]. *)
Definition generateClientId (now : Z) (rnd36 : string) : string :=
  ("client_" ++ decimal now ++ "_" ++ substringFrom 7 rnd36)%string.

(** The truthiness of [channel?: string]. *)
Definition truthy (channel : option string) : bool :=
  match channel with
  | None => false
  | Some c => negb (String.eqb c "")
  end.

(** [channel] as the argument of [subscriptions.has]. *)
Definition hasChannel (channel : option string) (s : JSSet.t) : bool :=
  match channel with
  | None => false
  | Some c => JSSet.has c s
  end.

(** The guard of the send in [broadcast]. *)
Definition wanted (channel : option string) (client : ConnectedClient) : bool :=
  negb (truthy channel)
  || hasChannel channel (subscriptions client)
  || JSSet.has "all" (subscriptions client).

(** The body of the [forEach] of [broadcast]. *)
Definition broadcastVisit (message : WebSocketMessage) (channel : option string)
    (acc : Z * list Effect) (client : ConnectedClient) : Z * list Effect :=
  let (sentCount, eff) := acc in
  if isOpen (readyState (ws client)) then
    if wanted channel client then
      match send client message with
      | Normal e => (sentCount + 1, eff ++ e)
      | Throw => (sentCount, eff ++ [LogSendError (id client)])
      end
    else acc
  else acc.

(** [broadcast(type, data, channel?)]; [nowIso] is
    [new Date().toISOString()].  The method has no [return] statement. *)
Definition broadcast (type : string) (data : Data) (channel : option string)
    (nowIso : string) (clients : Clients) : Completion JSValue * list Effect :=
  let message := {| type := type; data := data; timestamp := nowIso |} in
  let (sentCount, eff) :=
    fold_left (broadcastVisit message channel) (JSMap.values clients) (0, []) in
  (Normal JSUndefined, eff ++ [LogBroadcast type sentCount channel]).

(** [x || d] on an optional string: the empty string is falsy. *)
Definition orString (x : option string) (d : string) : string :=
  match x with
  | Some s => if String.eqb s "" then d else s
  | None => d
  end.

(** [message.data || {}]: a missing or falsy value is replaced. *)
Definition orData (x : option Data) : Data :=
  match x with
  | Some (Json t true) => Json t true
  | Some (Json _ false) => Json "{}" true
  | Some Unserializable => Unserializable
  | None => Json "{}" true
  end.

(** [sendToClient(clientId, message)] *)
Definition sendToClient (clientId : string) (message : PartialMessage)
    (nowIso : string) (clients : Clients) : bool * list Effect :=
  match JSMap.get clientId clients with
  | None => (false, [])
  | Some client =>
      if negb (isOpen (readyState (ws client))) then (false, [])
      else
        let fullMessage :=
          {| type := orString (type_opt message) "unknown";
             data := orData (data_opt message);
             timestamp := orString (timestamp_opt message) nowIso |} in
        match send client fullMessage with
        | Normal e => (true, e)
        | Throw => (false, [LogSendError clientId])
        end
  end.

(** The ['connection'] handler of [initialize]: [idNow] and [now] are the
    two readings of [Date.now()], [welcome] the rendering of the welcome
    payload. Returns the id under which the connection is registered. *)
Definition onConnection (socket : WebSocket) (idNow : Z) (rnd36 : string)
    (now : Z) (welcome nowIso : string) (clients : Clients)
  : string * Clients * list Effect :=
  let clientId := generateClientId idNow rnd36 in
  let client :=
    {| ws := socket; id := clientId;
       subscriptions := JSSet.empty; lastPing := now |} in
  let clients' := JSMap.set clientId client clients in
  let (_, eff) :=
    sendToClient clientId
      {| type_opt := Some "connection"; data_opt := Some (Json welcome true);
         timestamp_opt := None |} nowIso clients' in
  (clientId, clients', LogConnected clientId (JSMap.size clients') :: eff).

(** The ['pong'] handler. *)
Definition onPong (clientId : string) (now : Z) (clients : Clients) : Clients :=
  match JSMap.get clientId clients with
  | Some client =>
      JSMap.set clientId
        {| ws := ws client; id := id client;
           subscriptions := subscriptions client; lastPing := now |} clients
  | None => clients
  end.

(** The ['close'] handler. *)
Definition onClose (clientId : string) (clients : Clients)
  : Clients * list Effect :=
  let clients' := JSMap.delete clientId clients in
  (clients', [LogDisconnected clientId (JSMap.size clients')]).

(** The ['error'] handler. *)
Definition onError (clientId : string) (clients : Clients)
  : Clients * list Effect :=
  (JSMap.delete clientId clients, [LogSocketError clientId]).

(** [request.type] of a ['request_data'] message; [NoRequest] is a message
    without [data], on which reading [request.type] throws. *)
Inductive DataRequest : Type :=
| EnvironmentalLatest
| VesselPosition
| OtherRequest
| NoRequest.

(** A parsed incoming message, by [message.type]; [channels] is [None]
    when [message.channels] is missing, falsy or no array, and [Other] is
    any other type than the four the switch names. *)
Inductive ClientMessage : Type :=
| Subscribe (channels : option (list string))
| Unsubscribe (channels : option (list string))
| PingMessage
| RequestData (request : DataRequest)
| Other (type : string).

(** [handleDataRequest(clientId, request)]; [payload] is the rendering of
    the object literal the branch sends. *)
Definition handleDataRequest (clientId : string) (request : DataRequest)
    (payload nowIso : string) (clients : Clients) : Completion (list Effect) :=
  match request with
  | EnvironmentalLatest =>
      Normal (snd (sendToClient clientId
                     {| type_opt := Some "environmental_data";
                        data_opt := Some (Json payload true);
                        timestamp_opt := None |} nowIso clients))
  | VesselPosition =>
      Normal (snd (sendToClient clientId
                     {| type_opt := Some "vessel_update";
                        data_opt := Some (Json payload true);
                        timestamp_opt := None |} nowIso clients))
  | OtherRequest => Normal []
  | NoRequest => Throw
  end.

Definition withSubscriptions (client : ConnectedClient) (s : JSSet.t)
  : ConnectedClient :=
  {| ws := ws client; id := id client; subscriptions := s;
     lastPing := lastPing client |}.

(** [handleClientMessage(clientId, message)]; [render] stands for
    [JSON.stringify] on the confirmed subscriptions, [payload] for the
    rendering of the object literal a ['ping'] or a ['request_data']
    branch sends (each holds a time stamp of its own, and the data
    request random readings).  [Throw] leaves the registry as it was. *)
Definition handleClientMessage (render : list string -> string)
    (clientId : string) (message : ClientMessage) (payload nowIso : string)
    (clients : Clients) : Completion (Clients * list Effect) :=
  match JSMap.get clientId clients with
  | None => Normal (clients, [])
  | Some client =>
      match message with
      | Subscribe (Some channels) =>
          let s := fold_left (fun s c => JSSet.add c s) channels
                     (subscriptions client) in
          let clients' := JSMap.set clientId (withSubscriptions client s) clients in
          Normal (clients',
                  snd (sendToClient clientId
                         {| type_opt := Some "subscription_confirmed";
                            data_opt := Some (Json (render s) true);
                            timestamp_opt := None |} nowIso clients'))
      | Unsubscribe (Some channels) =>
          let s := fold_left (fun s c => JSSet.delete c s) channels
                     (subscriptions client) in
          Normal (JSMap.set clientId (withSubscriptions client s) clients, [])
      | Subscribe None | Unsubscribe None => Normal (clients, [])
      | PingMessage =>
          Normal (clients,
                  snd (sendToClient clientId
                         {| type_opt := Some "pong";
                            data_opt := Some (Json payload true);
                            timestamp_opt := None |} nowIso clients))
      | RequestData request =>
          match handleDataRequest clientId request payload nowIso clients with
          | Normal e => Normal (clients, e)
          | Throw => Throw
          end
      | Other t => Normal (clients, [LogUnknownMessage clientId t])
      end
  end.

(** The ['message'] handler: [parsed] is the outcome of [JSON.parse] read
    as a message ([None] when it throws); whatever is thrown is caught and
    logged. *)
Definition onMessage (render : list string -> string) (clientId : string)
    (parsed : option ClientMessage) (payload nowIso : string)
    (clients : Clients) : Clients * list Effect :=
  match parsed with
  | None => (clients, [LogParseError clientId])
  | Some message =>
      match handleClientMessage render clientId message payload nowIso clients with
      | Normal r => r
      | Throw => (clients, [LogParseError clientId])
      end
  end.

(** The body of the [forEach] of the heartbeat callback. *)
Definition heartbeatVisit (now : Z) (acc : Clients * list Effect)
    (entry : string * ConnectedClient) : Clients * list Effect :=
  let (clients, eff) := acc in
  let (clientId, client) := entry in
  if isOpen (readyState (ws client)) then
    if now - lastPing client >? 30000 then
      (JSMap.delete clientId clients,
       eff ++ [LogHeartbeatFailed clientId; Terminate clientId])
    else (clients, eff ++ [Ping clientId])
  else (JSMap.delete clientId clients, eff).

(** One firing of the heartbeat interval of [startHeartbeat], at
    [Date.now() = now].  [Map.prototype.forEach] visits the entries in
    insertion order; deleting the visited entry does not disturb it. *)
Definition heartbeatTick (now : Z) (clients : Clients) : Clients * list Effect :=
  fold_left (heartbeatVisit now) clients (clients, []).

(** [getConnectedClientsCount()] and [getClientSubscriptions(clientId)] *)
Definition getConnectedClientsCount (clients : Clients) : Z := JSMap.size clients.

Definition getClientSubscriptions (clientId : string) (clients : Clients)
  : list string :=
  match JSMap.get clientId clients with
  | Some client => subscriptions client
  | None => []
  end.

(** The typed broadcasts. *)
Definition broadcastEnvironmentalData (data : Data) :=
  broadcast "environmental_data" data (Some "environmental").

Definition broadcastSpeciesIdentification (data : Data) :=
  broadcast "species_identification" data (Some "species").

Definition broadcastPrediction (data : Data) :=
  broadcast "prediction" data (Some "predictions").

Definition broadcastVesselUpdate (data : Data) :=
  broadcast "vessel_update" data (Some "vessels").

Definition broadcastAlert (data : Data) :=
  broadcast "alert" data (Some "alerts").

Definition broadcastSystemStatus (data : Data) :=
  broadcast "system_status" data (Some "system").

(** [shutdown()], as far as the registry goes: every open transport is
    closed and the registry cleared. *)
Definition shutdown (clients : Clients) : Clients * list Effect :=
  (JSMap.empty,
   flat_map (fun client =>
               if isOpen (readyState (ws client)) then [Close (id client)]
               else []) (JSMap.values clients) ++ [LogShutDown]).

(** The connections a list of effects delivered a message to. *)
Definition deliveredTo (eff : list Effect) : list string :=
  flat_map (fun e => match e with Send c _ => [c] | _ => [] end) eff.

(** A registry entry is stored under the id it carries. *)
Definition registry_ok (clients : Clients) : Prop :=
  JSMap.wf clients /\ forall k c, In (k, c) clients -> id c = k.

End WebSocketService.

(** * The training service (class [AITrainingService]) *)

Module AITrainingService.

(** The [status] of a [TrainingProgress]. *)
Inductive Status : Type :=
| initializing | training | validating | completed | failed.

(** [interface TrainingProgress].  The counters are integers: the
    embedding covers configurations whose [epochs], [batchSize] and
    [datasetSize] are integers, with [batchSize] not zero. *)
Record TrainingProgress : Type := {
  modelId : string;
  epoch : Z;
  totalEpochs : Z;
  loss : R;
  accuracy : R;
  validationLoss : R;
  validationAccuracy : R;
  learningRate : R;
  estimatedTimeRemaining : R;
  status : Status;
  currentBatch : Z;
  totalBatches : Z
}.

(** The argument [modelConfig] of [startTraining]. *)
Module ModelConfig.
Record t : Type := {
  name : string;
  type : string;
  architecture : string;
  epochs : Z;
  batchSize : Z;
  learningRate : R;
  datasetSize : Z
}.
End ModelConfig.

(** What a JavaScript division returns: the quotient, or what IEEE-754
    prescribes for a zero divisor. *)
Inductive Quotient : Type :=
| NaN
| Infinity (negative : bool)
| Finite (x : R).

(** [x / y]; a zero divisor is [+0], as it is for the sum of two
    products of numbers that are not negative. *)
Definition divide (x y : R) : Quotient :=
  if Req_EM_T y 0 then
    if Req_EM_T x 0 then NaN
    else Infinity (if Rlt_dec x 0 then true else false)
  else Finite (x / y).

(** [Number.isSafeInteger]: the integers a JavaScript number holds
    exactly, on which [+], [-] and [*] are exact as long as the result is
    one of them. *)
Definition safeInteger (z : Z) : Prop :=
  - 9007199254740991 <= z <= 9007199254740991.

(** The columns of [aiModels] the service writes ([InsertAiModel] of the
    shared schema), and [Partial<InsertAiModel>] as an update carries it. *)
Module Schema.
Record Parameters : Type := {
  architecture : string;
  epochs : Z;
  batchSize : Z;
  learningRate : R;
  optimizer : string
}.

Record InsertAiModel : Type := {
  name : string;
  type : string;
  version : string;
  accuracy : R;
  precision : R;
  recall : R;
  f1Score : R;
  trainingData : string;
  isActive : bool;
  parameters : Parameters
}.

Record PartialAiModel : Type := {
  name_opt : option string;
  type_opt : option string;
  version_opt : option string;
  accuracy_opt : option R;
  precision_opt : option R;
  recall_opt : option R;
  f1Score_opt : option Quotient;
  trainingData_opt : option string;
  isActive_opt : option bool;
  parameters_opt : option Parameters
}.
End Schema.

(** A [TrainingProgress] object is shared by reference between the map
    [trainingProgress], the timer callbacks and the emitted events: the
    objects live in a heap, and a reference is an index into it. *)
Definition Ref := nat.

(** A [NodeJS.Timeout]. *)
Definition Handle := nat.

(** The two closures the service hands to the timers of the host, with
    the variables they capture. *)
Inductive Callback : Type :=
| trainingInterval (modelId : string) (progress : Ref) (modelType : string)
    (batchDuration : R)
| validationTimeout (progress : Ref).

(** A pending timer of the host: [due] is the time in milliseconds from
    which it may fire, [repeat] tells [setInterval] from [setTimeout]. *)
Record Timer : Type := {
  handle : Handle;
  callback : Callback;
  due : Z;
  delay : Z;
  repeat : bool
}.

(** The events of the [EventEmitter]; each carries the progress object
    (its reference) and, as [snapshot], the state of that object when the
    event is emitted. *)
Inductive Event : Type :=
| trainingUpdate (progress : Ref) (snapshot : TrainingProgress)
| trainingComplete (modelId : string) (progress : Ref) (snapshot : TrainingProgress)
| trainingStopped (modelId : string) (progress : Ref) (snapshot : TrainingProgress).

(** What the service does to the outside world. *)
Inductive Effect : Type :=
| Emit (e : Event)
| CreateAiModel (modelData : Schema.InsertAiModel)
| UpdateAiModel (modelId : string) (updates : Schema.PartialAiModel)
| Broadcast (type : string) (progress : Ref) (snapshot : TrainingProgress).

(** An [async] method suspended at an [await] on the storage layer. *)
Inductive Continuation : Type :=
| afterCreate (modelConfig : ModelConfig.t)
| afterFinalize (modelId : string) (progress : Ref).

(** The service, the timers of the host that it armed, and what it has
    done so far ([trace], oldest first). *)
Record Service : Type := {
  activeTraining : JSMap.t Handle;
  trainingProgress : JSMap.t Ref;
  heap : list TrainingProgress;
  timers : list Timer;
  nextHandle : Handle;
  suspended : list Continuation;
  now : Z;
  trace : list Effect
}.

Definition init : Service :=
  {| activeTraining := JSMap.empty; trainingProgress := JSMap.empty;
     heap := []; timers := []; nextHandle := O; suspended := [];
     now := 0; trace := [] |}.

(** The draws of [Math.random()] one timer callback may consume, in the
    order of the calls. *)
Record Draws : Type := {
  lossDraw : R;
  accuracyDraw : R;
  validationLossDraw : R;
  validationAccuracyDraw : R;
  precisionDraw : R;
  recallDraw : R
}.

Definition unit_interval (x : R) : Prop := (0 <= x < 1)%R.

Definition draws_ok (u : Draws) : Prop :=
  unit_interval (lossDraw u) /\ unit_interval (accuracyDraw u) /\
  unit_interval (validationLossDraw u) /\
  unit_interval (validationAccuracyDraw u) /\
  unit_interval (precisionDraw u) /\ unit_interval (recallDraw u).

(** ** The state, field by field *)

Definition withStatus (st : Status) (p : TrainingProgress) : TrainingProgress :=
  {| modelId := modelId p; epoch := epoch p; totalEpochs := totalEpochs p;
     loss := loss p; accuracy := accuracy p;
     validationLoss := validationLoss p;
     validationAccuracy := validationAccuracy p;
     learningRate := learningRate p;
     estimatedTimeRemaining := estimatedTimeRemaining p;
     status := st; currentBatch := currentBatch p;
     totalBatches := totalBatches p |}.

Definition deref (r : Ref) (s : Service) : option TrainingProgress :=
  nth_error (heap s) r.

Fixpoint store (r : Ref) (p : TrainingProgress) (h : list TrainingProgress)
  : list TrainingProgress :=
  match h, r with
  | [], _ => []
  | _ :: t, O => p :: t
  | x :: t, S r' => x :: store r' p t
  end.

Definition withActiveTraining (a : JSMap.t Handle) (s : Service) : Service :=
  {| activeTraining := a; trainingProgress := trainingProgress s;
     heap := heap s; timers := timers s; nextHandle := nextHandle s;
     suspended := suspended s; now := now s; trace := trace s |}.

Definition withTrainingProgress (m : JSMap.t Ref) (s : Service) : Service :=
  {| activeTraining := activeTraining s; trainingProgress := m;
     heap := heap s; timers := timers s; nextHandle := nextHandle s;
     suspended := suspended s; now := now s; trace := trace s |}.

Definition withHeap (h : list TrainingProgress) (s : Service) : Service :=
  {| activeTraining := activeTraining s; trainingProgress := trainingProgress s;
     heap := h; timers := timers s; nextHandle := nextHandle s;
     suspended := suspended s; now := now s; trace := trace s |}.

Definition withTimers (ts : list Timer) (s : Service) : Service :=
  {| activeTraining := activeTraining s; trainingProgress := trainingProgress s;
     heap := heap s; timers := ts; nextHandle := nextHandle s;
     suspended := suspended s; now := now s; trace := trace s |}.

Definition withNextHandle (n : Handle) (s : Service) : Service :=
  {| activeTraining := activeTraining s; trainingProgress := trainingProgress s;
     heap := heap s; timers := timers s; nextHandle := n;
     suspended := suspended s; now := now s; trace := trace s |}.

Definition withSuspended (k : list Continuation) (s : Service) : Service :=
  {| activeTraining := activeTraining s; trainingProgress := trainingProgress s;
     heap := heap s; timers := timers s; nextHandle := nextHandle s;
     suspended := k; now := now s; trace := trace s |}.

Definition withNow (n : Z) (s : Service) : Service :=
  {| activeTraining := activeTraining s; trainingProgress := trainingProgress s;
     heap := heap s; timers := timers s; nextHandle := nextHandle s;
     suspended := suspended s; now := n; trace := trace s |}.

Definition perform (e : Effect) (s : Service) : Service :=
  {| activeTraining := activeTraining s; trainingProgress := trainingProgress s;
     heap := heap s; timers := timers s; nextHandle := nextHandle s;
     suspended := suspended s; now := now s; trace := trace s ++ [e] |}.

(** Assignment to a field of the object [r]. *)
Definition assign (r : Ref) (p : TrainingProgress) (s : Service) : Service :=
  withHeap (store r p (heap s)) s.

(** A new object. *)
Definition alloc (p : TrainingProgress) (s : Service) : Ref * Service :=
  (List.length (heap s), withHeap (heap s ++ [p]) s).

(** [await]: the rest of the method runs when the storage layer answers. *)
Definition suspend (k : Continuation) (s : Service) : Service :=
  withSuspended (suspended s ++ [k]) s.

(** ** The timers of the host *)

Definition arm (cb : Callback) (d : Z) (rep : bool) (s : Service)
  : Handle * Service :=
  let h := nextHandle s in
  let t := {| handle := h; callback := cb; due := now s + d; delay := d;
              repeat := rep |} in
  (h, withNextHandle (S h) (withTimers (timers s ++ [t]) s)).

Definition setInterval (cb : Callback) (d : Z) := arm cb d true.
Definition setTimeout (cb : Callback) (d : Z) := arm cb d false.

(** [clearInterval(h)]: the timer never fires again. *)
Definition clearInterval (h : Handle) (s : Service) : Service :=
  withTimers (filter (fun t => negb (Nat.eqb (handle t) h)) (timers s)) s.

(** The period the host gives [setInterval(cb, 120000 / totalBatches)]:
    Node truncates a delay to whole milliseconds, and replaces by 1 a
    delay that is not between 1 and [2^31 - 1] (so also [Infinity], the
    quotient when [totalBatches] is 0). *)
Definition intervalDelay (totalBatches : Z) : Z :=
  if (1 <=? totalBatches) && (totalBatches <=? 120000)
  then 120000 / totalBatches else 1.

(** ** The metric curves *)

(** [generateLoss(progress, modelType)]; [random] is its draw. *)
Definition generateLoss (progress : R) (modelType : string) (random : R) : R :=
  let baseDecay := exp (- progress * 3) in
  let noise := ((random - 0.5) * 0.1)%R in
  if String.eqb modelType "CNN" then (2.5 * baseDecay + 0.1 + noise)%R
  else if String.eqb modelType "LSTM" then (3.0 * baseDecay + 0.15 + noise)%R
  else if String.eqb modelType "Transformer"
       then (2.8 * baseDecay + 0.12 + noise)%R
  else (2.5 * baseDecay + 0.1 + noise)%R.

(** [generateAccuracy(progress, modelType)]; [random] is its draw. *)
Definition generateAccuracy (progress : R) (modelType : string) (random : R) : R :=
  let baseGrowth := (1 - exp (- progress * 2.5))%R in
  let noise := ((random - 0.5) * 0.02)%R in
  if String.eqb modelType "CNN"
  then Rmin 0.95 (0.3 + 0.65 * baseGrowth + noise)
  else if String.eqb modelType "LSTM"
       then Rmin 0.92 (0.25 + 0.67 * baseGrowth + noise)
  else if String.eqb modelType "Transformer"
       then Rmin 0.88 (0.2 + 0.68 * baseGrowth + noise)
  else Rmin 0.95 (0.3 + 0.65 * baseGrowth + noise).

(** ** The methods *)

(** The payload of the update [finalizeModel] sends to the storage
    layer: five fields, the others absent. *)
Definition finalMetrics (progress : TrainingProgress) (u : Draws)
  : Schema.PartialAiModel :=
  let finalAccuracy := accuracy progress in
  let finalPrecision := (finalAccuracy * (0.95 + precisionDraw u * 0.05))%R in
  let finalRecall := (finalAccuracy * (0.93 + recallDraw u * 0.07))%R in
  let finalF1 :=
    divide (2 * (finalPrecision * finalRecall)) (finalPrecision + finalRecall) in
  {| Schema.name_opt := None; Schema.type_opt := None;
     Schema.version_opt := None;
     Schema.accuracy_opt := Some finalAccuracy;
     Schema.precision_opt := Some finalPrecision;
     Schema.recall_opt := Some finalRecall;
     Schema.f1Score_opt := Some finalF1;
     Schema.trainingData_opt := None;
     Schema.isActive_opt := Some true;
     Schema.parameters_opt := None |}.

(** [finalizeModel(modelId, progress)], up to its [await]. *)
Definition finalizeModel (modelId : string) (progress : TrainingProgress)
    (u : Draws) (s : Service) : Service :=
  perform (UpdateAiModel modelId (finalMetrics progress u)) s.

(** The callback of the [setInterval] of [simulateTraining], for the
    timer [trainingInterval] itself. *)
Definition onInterval (trainingInterval : Handle) (modelId : string)
    (r : Ref) (modelType : string) (batchDuration : R) (u : Draws)
    (s : Service) : Service :=
  match deref r s with
  | None => s
  | Some progress =>
      if currentBatch progress <? totalBatches progress then
        let batch := currentBatch progress + 1 in
        let epochProgress := (IZR batch / IZR (totalBatches progress))%R in
        let overallProgress :=
          ((IZR (epoch progress) + epochProgress)
           / IZR (totalEpochs progress))%R in
        let loss' := generateLoss overallProgress modelType (lossDraw u) in
        let accuracy' :=
          generateAccuracy overallProgress modelType (accuracyDraw u) in
        let batchesRemaining :=
          (totalEpochs progress - epoch progress - 1) * totalBatches progress
          + (totalBatches progress - batch) in
        let progress' :=
          {| modelId := AITrainingService.modelId progress;
             epoch := epoch progress;
             totalEpochs := totalEpochs progress;
             loss := loss';
             accuracy := accuracy';
             validationLoss := (loss' + validationLossDraw u * 0.1)%R;
             validationAccuracy :=
               Rmax 0 (accuracy' - validationAccuracyDraw u * 0.05);
             learningRate := learningRate progress;
             estimatedTimeRemaining :=
               (IZR batchesRemaining * (batchDuration / 1000))%R;
             status := status progress;
             currentBatch := batch;
             totalBatches := totalBatches progress |} in
        perform (Emit (trainingUpdate r progress')) (assign r progress' s)
      else
        let moved :=
          {| modelId := AITrainingService.modelId progress;
             epoch := epoch progress + 1;
             totalEpochs := totalEpochs progress;
             loss := loss progress;
             accuracy := accuracy progress;
             validationLoss := validationLoss progress;
             validationAccuracy := validationAccuracy progress;
             learningRate := learningRate progress;
             estimatedTimeRemaining := estimatedTimeRemaining progress;
             status := status progress;
             currentBatch := 0;
             totalBatches := totalBatches progress |} in
        if epoch moved >=? totalEpochs moved then
          let s1 := clearInterval trainingInterval s in
          let s2 :=
            withActiveTraining (JSMap.delete modelId (activeTraining s1)) s1 in
          let done :=
            {| modelId := AITrainingService.modelId moved;
               epoch := epoch moved;
               totalEpochs := totalEpochs moved;
               loss := loss moved;
               accuracy := accuracy moved;
               validationLoss := validationLoss moved;
               validationAccuracy := validationAccuracy moved;
               learningRate := learningRate moved;
               estimatedTimeRemaining := 0%R;
               status := completed;
               currentBatch := currentBatch moved;
               totalBatches := totalBatches moved |} in
          suspend (afterFinalize modelId r)
            (finalizeModel modelId done u (assign r done s2))
        else
          let validated := withStatus validating moved in
          let s1 :=
            perform (Emit (trainingUpdate r validated)) (assign r validated s) in
          snd (setTimeout (validationTimeout r) 5000 s1)
  end.

(** The rest of the completing tick, when the update has been stored. *)
Definition onFinalized (modelId : string) (r : Ref) (s : Service) : Service :=
  match deref r s with
  | None => s
  | Some progress => perform (Emit (trainingComplete modelId r progress)) s
  end.

(** The callback of the [setTimeout] that ends a validation phase. *)
Definition onValidated (r : Ref) (s : Service) : Service :=
  match deref r s with
  | None => s
  | Some progress =>
      let progress' := withStatus training progress in
      perform (Emit (trainingUpdate r progress')) (assign r progress' s)
  end.

(** [simulateTraining(modelId, config)] *)
Definition simulateTraining (modelId : string) (config : ModelConfig.t)
    (s : Service) : Service :=
  match JSMap.get modelId (trainingProgress s) with
  | None => s
  | Some r =>
      match deref r s with
      | None => s
      | Some progress =>
          let batchDuration := (120000 / IZR (totalBatches progress))%R in
          let progress' := withStatus training progress in
          let s1 := assign r progress' s in
          let s2 := perform (Emit (trainingUpdate r progress')) s1 in
          let s3 := perform (Broadcast "training_update" r progress') s2 in
          let (trainingInterval', s4) :=
            setInterval
              (trainingInterval modelId r (ModelConfig.type config) batchDuration)
              (intervalDelay (totalBatches progress)) s3 in
          withActiveTraining
            (JSMap.set modelId trainingInterval' (activeTraining s4)) s4
      end
  end.

(** [Math.ceil(datasetSize / batchSize)] on integers: the ceiling of the
    exact quotient.  This is what the code computes when [batchSize] is
    not 0 and [datasetSize] is a safe integer; the quotient of larger
    numbers is rounded before [Math.ceil] sees it. *)
Definition ceilDiv (a b : Z) : Z := - ((- a) / b).

(** The record [startTraining] asks the storage layer to create. *)
Definition modelData (modelConfig : ModelConfig.t) : Schema.InsertAiModel :=
  {| Schema.name := ModelConfig.name modelConfig;
     Schema.type := ModelConfig.type modelConfig;
     Schema.version := "v1.0.0";
     Schema.accuracy := 0%R;
     Schema.precision := 0%R;
     Schema.recall := 0%R;
     Schema.f1Score := 0%R;
     Schema.trainingData :=
       ("Training on " ++ decimal (ModelConfig.datasetSize modelConfig)
        ++ " samples")%string;
     Schema.isActive := false;
     Schema.parameters :=
       {| Schema.architecture := ModelConfig.architecture modelConfig;
          Schema.epochs := ModelConfig.epochs modelConfig;
          Schema.batchSize := ModelConfig.batchSize modelConfig;
          Schema.learningRate := ModelConfig.learningRate modelConfig;
          Schema.optimizer := "Adam" |} |}.

(** [startTraining(modelConfig)], up to its [await]. *)
Definition startTraining (modelConfig : ModelConfig.t) (s : Service) : Service :=
  suspend (afterCreate modelConfig)
    (perform (CreateAiModel (modelData modelConfig)) s).

(** The rest of [startTraining], when the storage layer has answered with
    a record whose id is [id]; the result is the id the method returns. *)
Definition onCreated (modelConfig : ModelConfig.t) (id : string) (s : Service)
  : string * Service :=
  let progress :=
    {| modelId := id;
       epoch := 0;
       totalEpochs := ModelConfig.epochs modelConfig;
       loss := 0%R;
       accuracy := 0%R;
       validationLoss := 0%R;
       validationAccuracy := 0%R;
       learningRate := ModelConfig.learningRate modelConfig;
       estimatedTimeRemaining := IZR (ModelConfig.epochs modelConfig * 120);
       status := initializing;
       currentBatch := 0;
       totalBatches :=
         ceilDiv (ModelConfig.datasetSize modelConfig)
                 (ModelConfig.batchSize modelConfig) |} in
  let (r, s1) := alloc progress s in
  let s2 := withTrainingProgress (JSMap.set id r (trainingProgress s1)) s1 in
  (id, simulateTraining id modelConfig s2).

(** [getTrainingProgress(modelId)] *)
Definition getTrainingProgress (modelId : string) (s : Service)
  : option TrainingProgress :=
  match JSMap.get modelId (trainingProgress s) with
  | Some r => deref r s
  | None => None
  end.

Definition notCompleted (p : TrainingProgress) : bool :=
  match status p with completed => false | _ => true end.

(** [getAllActiveTraining()] *)
Definition getAllActiveTraining (s : Service) : list TrainingProgress :=
  filter notCompleted
    (flat_map (fun r => match deref r s with Some p => [p] | None => [] end)
       (JSMap.values (trainingProgress s))).

(** [stopTraining(modelId)] *)
Definition stopTraining (modelId : string) (s : Service) : bool * Service :=
  match JSMap.get modelId (activeTraining s) with
  | Some interval =>
      let s1 := clearInterval interval s in
      let s2 :=
        withActiveTraining (JSMap.delete modelId (activeTraining s1)) s1 in
      match JSMap.get modelId (trainingProgress s2) with
      | Some r =>
          match deref r s2 with
          | Some progress =>
              let progress' := withStatus failed progress in
              (true,
               perform (Emit (trainingStopped modelId r progress'))
                 (assign r progress' s2))
          | None => (true, s2)
          end
      | None => (true, s2)
      end
  | None => (false, s)
  end.

(** ** The metrics report *)

(** What [generateModelMetrics] reads of a stored model: [parameters] is
    [None] when null, a field of it [None] when missing. *)
Module AiModel.
Record Parameters : Type := {
  epochs : option Z;
  classes : option Z
}.

Record t : Type := {
  type : string;
  parameters : option Parameters
}.
End AiModel.

(** An element of [trainingHistory]. *)
Module History.
Record entry : Type := {
  epoch : Z;
  loss : R;
  accuracy : R;
  valLoss : R;
  valAccuracy : R
}.
End History.

(** [learningCurves] *)
Module Curves.
Record t : Type := {
  epochs : list Z;
  trainLoss : list R;
  valLoss : list R;
  trainAcc : list R;
  valAcc : list R
}.
End Curves.

(** [interface ModelMetrics], as [generateModelMetrics] fills it. *)
Record ModelMetrics : Type := {
  trainingHistory : list History.entry;
  confusionMatrix : list (list Z);
  learningCurves : Curves.t
}.

(** [x || d] on an optional integer: 0 is falsy. *)
Definition orNumber (x : option Z) (d : Z) : Z :=
  match x with
  | Some v => if v =? 0 then d else v
  | None => d
  end.

(** [model.parameters?.epochs] and [model.parameters?.classes] *)
Definition storedEpochs (model : AiModel.t) : option Z :=
  match AiModel.parameters model with
  | Some ps => AiModel.epochs ps
  | None => None
  end.

Definition storedClasses (model : AiModel.t) : option Z :=
  match AiModel.parameters model with
  | Some ps => AiModel.classes ps
  | None => None
  end.

(** The entry the loop of [generateModelMetrics] pushes in its iteration
    [i] (from 0), for [epoch = i + 1]; [random k] is the draw of the
    [k]-th call of [Math.random()] of the method, and an iteration makes
    six of them. *)
Definition historyEntry (modelType : string) (epochs : Z) (random : nat -> R)
    (i : nat) : History.entry :=
  let epoch := Z.of_nat (S i) in
  let progress := (IZR epoch / IZR epochs)%R in
  let k := (6 * i)%nat in
  {| History.epoch := epoch;
     History.loss := generateLoss progress modelType (random k);
     History.accuracy :=
       generateAccuracy progress modelType (random (k + 1)%nat);
     History.valLoss :=
       (generateLoss progress modelType (random (k + 2)%nat)
        + random (k + 3)%nat * 0.1)%R;
     History.valAccuracy :=
       (generateAccuracy progress modelType (random (k + 4)%nat)
        - random (k + 5)%nat * 0.05)%R |}.

(** [Math.floor] *)
Definition floor (x : R) : Z := Int_part x.

(** [generateModelMetrics(modelId)], from the answer [model] of the
    storage layer.  It throws when there is no model, and [Array(n)]
    throws a [RangeError] unless [n] is an array length, from 0 to
    [2^32 - 1]. *)
Definition generateModelMetrics (model : option AiModel.t) (random : nat -> R)
  : Completion ModelMetrics :=
  match model with
  | None => Throw
  | Some model =>
      let epochs := orNumber (storedEpochs model) 50 in
      let history :=
        map (historyEntry (AiModel.type model) epochs random)
            (seq 0 (Z.to_nat epochs)) in
      let numClasses := orNumber (storedClasses model) 10 in
      if (numClasses <? 0) || (4294967295 <? numClasses) then Throw
      else
        let n := Z.to_nat numClasses in
        let base := (6 * Z.to_nat epochs)%nat in
        let cell i j := floor (random (base + i * n + j)%nat * 100) in
        let diagonal i :=
          floor (IZR (cell i i) * 5 + random (base + n * n + i)%nat * 200) in
        Normal
          {| trainingHistory := history;
             confusionMatrix :=
               map (fun i =>
                      map (fun j => if Nat.eqb i j then diagonal i else cell i j)
                          (seq 0 n))
                   (seq 0 n);
             learningCurves :=
               {| Curves.epochs := map History.epoch history;
                  Curves.trainLoss := map History.loss history;
                  Curves.valLoss := map History.valLoss history;
                  Curves.trainAcc := map History.accuracy history;
                  Curves.valAcc := map History.valAccuracy history |} |}
  end.

(** ** The host: timers firing and promises settling *)

(** The host re-arms an interval that fires, from the time it fires. *)
Definition rearm (t : Timer) (s : Service) : Service :=
  withTimers
    (map (fun t' =>
            if Nat.eqb (handle t') (handle t)
            then {| handle := handle t'; callback := callback t';
                    due := now s + delay t'; delay := delay t';
                    repeat := repeat t' |}
            else t') (timers s)) s.

(** The timer [t] fires: a timeout is spent, an interval re-armed, and
    the callback runs with the draws [u]. *)
Definition fire (t : Timer) (u : Draws) (s : Service) : Service :=
  let s1 := if repeat t then rearm t s else clearInterval (handle t) s in
  match callback t with
  | trainingInterval modelId r modelType batchDuration =>
      onInterval (handle t) modelId r modelType batchDuration u s1
  | validationTimeout r => onValidated r s1
  end.

(** One step of a run.  Time passes; a pending timer fires once it is
    due, the timers firing in the order of their due times; a method is
    called; the storage layer answers a suspended method, or fails it. *)
Inductive step : Service -> Service -> Prop :=
| step_time s t :
    now s <= t -> step s (withNow t s)
| step_fire s t u :
    In t (timers s) -> due t <= now s ->
    (forall t', In t' (timers s) -> due t <= due t') ->
    draws_ok u ->
    step s (fire t u s)
| step_startTraining s modelConfig :
    step s (startTraining modelConfig s)
| step_created s pre post modelConfig id :
    suspended s = pre ++ afterCreate modelConfig :: post ->
    step s (snd (onCreated modelConfig id (withSuspended (pre ++ post) s)))
| step_finalized s pre post modelId r :
    suspended s = pre ++ afterFinalize modelId r :: post ->
    step s (onFinalized modelId r (withSuspended (pre ++ post) s))
| step_rejected s pre post k :
    suspended s = pre ++ k :: post ->
    step s (withSuspended (pre ++ post) s)
| step_stopTraining s modelId :
    step s (snd (stopTraining modelId s)).

(** The states of the runs that start with the service as constructed. *)
Inductive reachable : Service -> Prop :=
| reachable_init : reachable init
| reachable_step s s' : reachable s -> step s s' -> reachable s'.

(** ** Reading a trace *)

Definition eventRef (e : Event) : Ref :=
  match e with
  | trainingUpdate r _ => r
  | trainingComplete _ r _ => r
  | trainingStopped _ r _ => r
  end.

Definition eventSnapshot (e : Event) : TrainingProgress :=
  match e with
  | trainingUpdate _ p => p
  | trainingComplete _ _ p => p
  | trainingStopped _ _ p => p
  end.

(** The events emitted, oldest first. *)
Definition emitted (tr : list Effect) : list Event :=
  flat_map (fun e => match e with Emit ev => [ev] | _ => [] end) tr.

(** The events that carry the progress object [r]: those of one job. *)
Definition eventsOf (r : Ref) (tr : list Effect) : list Event :=
  filter (fun e => Nat.eqb (eventRef e) r) (emitted tr).

(** The calls of the storage layer, oldest first. *)
Definition storageCalls (tr : list Effect) : list Effect :=
  filter (fun e => match e with
                   | CreateAiModel _ | UpdateAiModel _ _ => true
                   | _ => false
                   end) tr.

(** The [(epoch, currentBatch)] pair of a progress, and the
    lexicographic order on such pairs. *)
Definition position (p : TrainingProgress) : Z * Z := (epoch p, currentBatch p).

Definition lex_le (a b : Z * Z) : Prop :=
  fst a < fst b \/ (fst a = fst b /\ snd a <= snd b).

Definition lex_lt (a b : Z * Z) : Prop :=
  fst a < fst b \/ (fst a = fst b /\ snd a < snd b).

(** Every element is related to every later one. *)
Fixpoint ordered {A : Type} (le : A -> A -> Prop) (l : list A) : Prop :=
  match l with
  | [] => True
  | x :: r => (forall y, In y r -> le x y) /\ ordered le r
  end.

End AITrainingService.

(** * Properties *)

(** ** Maps and sets *)

Module JSMapFacts.
Import JSMap.
Section WithValue.
Context {V : Type}.
Implicit Types (m : JSMap.t V) (k : string) (v : V).

Lemma get_In k v m : get k m = Some v -> In (k, v) m.
Proof.
  induction m as [|[k' v'] r IH]; simpl; [discriminate|].
  destruct (String.eqb_spec k' k) as [->|_].
  - intros [= ->]. now left.
  - intros H. right. now apply IH.
Qed.

Lemma get_None k m : get k m = None <-> ~ In k (keys m).
Proof.
  induction m as [|[k' v'] r IH]; simpl.
  - tauto.
  - destruct (String.eqb_spec k' k) as [->|Hne].
    + split; [discriminate | intros H; exfalso; apply H; now left].
    + rewrite IH. split; [intros H [E|I]; [congruence | tauto] | tauto].
Qed.

Lemma In_get k v m : wf m -> In (k, v) m -> get k m = Some v.
Proof.
  unfold wf. induction m as [|[k' v'] r IH]; simpl; [tauto|].
  intros Hnd [E|I].
  - inversion E; subst. now rewrite String.eqb_refl.
  - inversion Hnd as [|? ? Hni Hnd']; subst.
    destruct (String.eqb_spec k' k) as [->|_].
    + exfalso. apply Hni. change k with (fst (k, v)). now apply in_map.
    + now apply IH.
Qed.

Lemma keys_set_in k v m :
  In k (keys m) -> keys (set k v m) = keys m.
Proof.
  induction m as [|[k' v'] r IH]; simpl; [tauto|].
  destruct (String.eqb_spec k' k) as [->|Hne]; simpl; [reflexivity|].
  intros [E|I]; [congruence|]. now rewrite IH.
Qed.

Lemma keys_set_notin k v m :
  ~ In k (keys m) -> keys (set k v m) = keys m ++ [k].
Proof.
  induction m as [|[k' v'] r IH]; simpl; [reflexivity|].
  destruct (String.eqb_spec k' k) as [->|Hne]; simpl.
  - intros H. exfalso. apply H. now left.
  - intros H. rewrite IH; [reflexivity | tauto].
Qed.

Lemma wf_set k v m : wf m -> wf (set k v m).
Proof.
  unfold wf. intros Hnd.
  destruct (in_dec string_dec k (keys m)) as [Hin|Hni].
  - now rewrite keys_set_in.
  - rewrite keys_set_notin by assumption.
    apply NoDup_app; [assumption | repeat constructor; simpl; tauto |].
    intros x Hx [<-|[]]. contradiction.
Qed.

Lemma get_set_same k v m : get k (set k v m) = Some v.
Proof.
  induction m as [|[k' v'] r IH]; simpl.
  - now rewrite String.eqb_refl.
  - destruct (String.eqb_spec k' k) as [->|Hne]; simpl.
    + now rewrite String.eqb_refl.
    + destruct (String.eqb_spec k' k); [contradiction | exact IH].
Qed.

Lemma get_set_other k k' v m : k' <> k -> get k' (set k v m) = get k' m.
Proof.
  intros Hne. induction m as [|[k0 v0] r IH]; simpl.
  - destruct (String.eqb_spec k k'); [congruence | reflexivity].
  - destruct (String.eqb_spec k0 k) as [->|Hne0]; simpl.
    + destruct (String.eqb_spec k k'); [congruence | reflexivity].
    + destruct (String.eqb_spec k0 k'); [reflexivity | exact IH].
Qed.

Lemma keys_delete k m :
  keys (delete k m) = filter (fun x => negb (String.eqb x k)) (keys m).
Proof.
  unfold keys, delete. induction m as [|[k' v'] r IH]; simpl; [reflexivity|].
  destruct (String.eqb k' k); simpl; now rewrite IH.
Qed.

Lemma wf_delete k m : wf m -> wf (delete k m).
Proof.
  unfold wf. rewrite keys_delete. apply NoDup_filter.
Qed.

Lemma get_delete_same k m : get k (delete k m) = None.
Proof.
  apply get_None. rewrite keys_delete, filter_In.
  intros [_ H]. now rewrite String.eqb_refl in H.
Qed.

Lemma get_delete_other k k' m : k' <> k -> get k' (delete k m) = get k' m.
Proof.
  intros Hne. unfold delete.
  induction m as [|[k0 v0] r IH]; simpl; [reflexivity|].
  destruct (String.eqb_spec k0 k) as [->|Hne0]; simpl.
  - destruct (String.eqb_spec k k'); [congruence | exact IH].
  - destruct (String.eqb_spec k0 k'); [reflexivity | exact IH].
Qed.

Lemma delete_absent k m : get k m = None -> delete k m = m.
Proof.
  unfold delete. induction m as [|[k0 v0] r IH]; simpl; [reflexivity|].
  destruct (String.eqb_spec k0 k) as [->|Hne0]; simpl; [discriminate|].
  intros H. now rewrite IH.
Qed.

Lemma get_delete_list_notin (ks : list string) k m :
  ~ In k ks -> get k (fold_left (fun m k => delete k m) ks m) = get k m.
Proof.
  revert m. induction ks as [|k0 ks IH]; simpl; [reflexivity|].
  intros m Hni. rewrite IH by tauto.
  apply get_delete_other. intros ->. tauto.
Qed.

Lemma get_delete_list_in (ks : list string) k m :
  In k ks -> get k (fold_left (fun m k => delete k m) ks m) = None.
Proof.
  revert m. induction ks as [|k0 ks IH]; simpl; [tauto|].
  intros m Hin. destruct (in_dec string_dec k ks) as [Hk|Hk].
  - now apply IH.
  - rewrite get_delete_list_notin by assumption.
    destruct Hin as [->|Hin]; [apply get_delete_same | contradiction].
Qed.
Lemma size_set_absent k v m :
  get k m = None -> size (set k v m) = size m + 1.
Proof.
  unfold size. induction m as [|[k' v'] r IH]; simpl; [reflexivity|].
  destruct (String.eqb k' k); [discriminate|]. intros H.
  simpl. specialize (IH H). lia.
Qed.

Lemma size_set_present k v m :
  get k m <> None -> size (set k v m) = size m.
Proof.
  unfold size. induction m as [|[k' v'] r IH]; simpl; [congruence|].
  destruct (String.eqb k' k); [reflexivity|]. intros H.
  simpl. specialize (IH H). lia.
Qed.

Lemma In_set k v m k' v' :
  wf m -> In (k', v') (set k v m) ->
  (k' = k /\ v' = v) \/ (k' <> k /\ In (k', v') m).
Proof.
  intros Hwf Hin.
  apply (In_get _ _ _ (wf_set k v m Hwf)) in Hin.
  destruct (string_dec k' k) as [->|Hne].
  - rewrite get_set_same in Hin. left. split; congruence.
  - rewrite get_set_other in Hin by assumption.
    right. split; [assumption | now apply get_In].
Qed.

Lemma In_delete k m k' v' :
  In (k', v') (delete k m) <-> k' <> k /\ In (k', v') m.
Proof.
  unfold delete. rewrite filter_In. simpl. rewrite negb_true_iff.
  split.
  - intros [H1 H2]. split; [|assumption].
    intros ->. now rewrite String.eqb_refl in H2.
  - intros [H1 H2]. split; [assumption|].
    now apply String.eqb_neq.
Qed.
End WithValue.
End JSMapFacts.

Module JSSetFacts.
Import JSSet.

Lemma has_In x s : has x s = true <-> In x s.
Proof.
  unfold has. rewrite existsb_exists. split.
  - intros (y & Hy & E). apply String.eqb_eq in E. now subst.
  - intros H. exists x. split; [assumption | apply String.eqb_refl].
Qed.

Lemma add_idempotent x s : add x (add x s) = add x s.
Proof.
  assert (H : has x (add x s) = true).
  { unfold add. destruct (has x s) eqn:E; [exact E|].
    apply has_In, in_or_app. right. now left. }
  unfold add at 1. now rewrite H.
Qed.
End JSSetFacts.

(** ** The WebSocket service *)

Module WebSocketFacts.
Import WebSocketService.

(** [ws.send] on the rendered message returns. *)
Definition sendSucceeds (client : ConnectedClient) (message : WebSocketMessage)
  : bool :=
  match send client message with Normal _ => true | Throw => false end.

(** The connections a broadcast reaches. *)
Definition receives (message : WebSocketMessage) (channel : option string)
    (client : ConnectedClient) : bool :=
  isOpen (readyState (ws client)) && wanted channel client
  && sendSucceeds client message.

(** What visiting one connection adds to the effects of a broadcast. *)
Definition visitEffects (message : WebSocketMessage) (channel : option string)
    (client : ConnectedClient) : list Effect :=
  if isOpen (readyState (ws client)) && wanted channel client then
    match send client message with
    | Normal e => e
    | Throw => [LogSendError (id client)]
    end
  else [].

Lemma deliveredTo_app e1 e2 :
  deliveredTo (e1 ++ e2) = deliveredTo e1 ++ deliveredTo e2.
Proof. unfold deliveredTo. apply flat_map_app. Qed.

Lemma send_Normal client message e :
  send client message = Normal e -> e = [Send (id client) message].
Proof.
  unfold send. destruct (data message); [|discriminate].
  destruct (sendThrows (ws client)); [discriminate|]. now intros [= <-].
Qed.

Lemma deliveredTo_visit message channel client :
  deliveredTo (visitEffects message channel client)
  = if receives message channel client then [id client] else [].
Proof.
  unfold visitEffects, receives, sendSucceeds.
  destruct (isOpen _ && wanted _ _); simpl; [|reflexivity].
  destruct (send client message) as [e|] eqn:E; [|reflexivity].
  apply send_Normal in E. now subst.
Qed.

Lemma broadcast_fold message channel cs n e :
  fold_left (broadcastVisit message channel) cs (n, e)
  = (n + Z.of_nat (List.length (filter (receives message channel) cs)),
     e ++ flat_map (visitEffects message channel) cs).
Proof.
  revert n e. induction cs as [|c cs IH]; intros n e; simpl.
  - now rewrite Z.add_0_r, app_nil_r.
  - unfold receives at 1, visitEffects at 1, sendSucceeds.
    destruct (isOpen (readyState (ws c))); simpl; [|apply IH].
    destruct (wanted channel c); simpl; [|apply IH].
    destruct (send c message) as [e'|]; rewrite IH; simpl.
    + rewrite <- app_assoc. f_equal. lia.
    + rewrite <- app_assoc. reflexivity.
Qed.

Lemma deliveredTo_flat_map message channel cs :
  deliveredTo (flat_map (visitEffects message channel) cs)
  = map id (filter (receives message channel) cs).
Proof.
  induction cs as [|c cs IH]; simpl; [reflexivity|].
  rewrite deliveredTo_app, deliveredTo_visit, IH.
  now destruct (receives message channel c).
Qed.

(** The effects of a broadcast, and the count it logs. *)
Lemma broadcast_effects type data channel nowIso clients :
  let message := {| type := type; data := data; timestamp := nowIso |} in
  broadcast type data channel nowIso clients
  = (Normal JSUndefined,
     flat_map (visitEffects message channel) (JSMap.values clients)
     ++ [LogBroadcast type
           (Z.of_nat (List.length (filter (receives message channel)
                                     (JSMap.values clients))))
           channel]).
Proof.
  intros message. unfold broadcast. fold message.
  now rewrite broadcast_fold.
Qed.

Lemma deliveredTo_broadcast type data channel nowIso clients :
  deliveredTo (snd (broadcast type data channel nowIso clients))
  = map id (filter (receives {| type := type; data := data;
                                timestamp := nowIso |} channel)
              (JSMap.values clients)).
Proof.
  rewrite broadcast_effects. simpl.
  rewrite deliveredTo_app, deliveredTo_flat_map. simpl. apply app_nil_r.
Qed.

(** C1, as the specification states it, fails: a broadcast on a channel
    nobody is subscribed to does not return the count 0; it returns no
    value. *)
Lemma broadcast_returns_no_count :
  fst (broadcast "alert" (Json "{}" true) (Some "alerts")
         "2024-01-01T00:00:00.000Z" JSMap.empty)
  <> Normal (JSNumber 0).
Proof. simpl. discriminate. Qed.

(** C1, amended: [broadcast] never raises and returns no value; the
    number of connections the message was sent to, which is the number of
    open connections that want the channel and whose send does not throw
    (0 when there is none), is what it writes to the log, after the
    sends. *)
Theorem broadcast_logs_count type data channel nowIso clients :
  exists eff,
    broadcast type data channel nowIso clients
    = (Normal JSUndefined,
       eff ++ [LogBroadcast type (Z.of_nat (List.length (deliveredTo eff)))
                 channel])
    /\ deliveredTo eff
       = map id (filter (receives {| type := type; data := data;
                                     timestamp := nowIso |} channel)
                   (JSMap.values clients))
    /\ (forall e, In e eff ->
          exists c, In c (JSMap.values clients)
                    /\ (e = Send (id c) {| type := type; data := data;
                                           timestamp := nowIso |}
                        \/ e = LogSendError (id c))).
Proof.
  set (message := {| type := type; data := data; timestamp := nowIso |}).
  exists (flat_map (visitEffects message channel) (JSMap.values clients)).
  split; [|split].
  - rewrite broadcast_effects. fold message.
    now rewrite deliveredTo_flat_map, length_map.
  - apply deliveredTo_flat_map.
  - intros e He. apply in_flat_map in He as (c & Hc & He).
    exists c. split; [assumption|].
    unfold visitEffects in He.
    destruct (isOpen _ && wanted _ _); [|contradiction].
    destruct (send c message) as [e'|] eqn:E.
    + apply send_Normal in E. subst. destruct He as [<-|[]]. now left.
    + destruct He as [<-|[]]. now right.
Qed.

Lemma registry_ok_value clients c :
  registry_ok clients -> In c (JSMap.values clients) -> In (id c, c) clients.
Proof.
  intros [_ Hid] Hc. unfold JSMap.values in Hc.
  apply in_map_iff in Hc as ([k c'] & E & Hin). simpl in E. subst c'.
  now rewrite (Hid k c Hin).
Qed.

Lemma registry_ok_unique clients k c c' :
  registry_ok clients -> In (k, c) clients -> In (k, c') clients -> c = c'.
Proof.
  intros [Hwf _] H1 H2.
  apply (JSMapFacts.In_get _ _ _ Hwf) in H1.
  apply (JSMapFacts.In_get _ _ _ Hwf) in H2. congruence.
Qed.

(** C4, as the specification states it, fails: a registered connection
    whose subscriptions contain the channel is not delivered to when its
    transport is not open. *)
Lemma broadcast_skips_closing_connection :
  let c := {| ws := {| readyState := CLOSING; sendThrows := false |};
              id := "c1"; subscriptions := ["x"]; lastPing := 0 |} in
  JSSet.has "x" (subscriptions c) = true
  /\ ~ In "c1" (deliveredTo
                  (snd (broadcast "training_update" (Json "{}" true) (Some "x")
                          "2024-01-01T00:00:00.000Z" [("c1", c)]))).
Proof. simpl. split; [reflexivity | tauto]. Qed.

(** C4, amended: a broadcast is delivered to a registered connection if
    and only if its transport is open, the send to it does not throw,
    and the channel is unset (or the empty string), or its subscriptions
    contain the channel, or they contain ["all"]. *)
Theorem broadcast_delivery type data channel nowIso clients k c :
  registry_ok clients -> In (k, c) clients ->
  In k (deliveredTo (snd (broadcast type data channel nowIso clients)))
  <-> isOpen (readyState (ws c)) = true
      /\ sendSucceeds c {| type := type; data := data; timestamp := nowIso |}
         = true
      /\ (truthy channel = false
          \/ hasChannel channel (subscriptions c) = true
          \/ JSSet.has "all" (subscriptions c) = true).
Proof.
  intros Hok Hin. rewrite deliveredTo_broadcast.
  set (message := {| type := type; data := data; timestamp := nowIso |}).
  assert (Hrec : receives message channel c = true
                 <-> isOpen (readyState (ws c)) = true
                     /\ sendSucceeds c message = true
                     /\ (truthy channel = false
                         \/ hasChannel channel (subscriptions c) = true
                         \/ JSSet.has "all" (subscriptions c) = true)).
  { unfold receives, wanted.
    rewrite !andb_true_iff, !orb_true_iff, negb_true_iff. tauto. }
  rewrite <- Hrec. rewrite in_map_iff. split.
  - intros (c' & Hid & Hf). apply filter_In in Hf as [Hv Hr].
    apply (registry_ok_value _ _ Hok) in Hv. rewrite Hid in Hv.
    now rewrite (registry_ok_unique _ _ _ _ Hok Hin Hv).
  - intros Hr. exists c. split; [now apply (proj2 Hok k c)|].
    apply filter_In. split; [|assumption].
    unfold JSMap.values. change c with (snd (k, c)). now apply in_map.
Qed.

(** The registry of the example of C4: three open connections, [c1]
    subscribed to ["x"], [c2] to ["all"], [c3] to nothing. *)
Definition openSocket : WebSocket :=
  {| readyState := OPEN; sendThrows := false |}.

Definition subscriber (k : string) (subs : list string) : ConnectedClient :=
  {| ws := openSocket; id := k; subscriptions := subs; lastPing := 0 |}.

Definition threeClients : Clients :=
  [("c1", subscriber "c1" ["x"]); ("c2", subscriber "c2" ["all"]);
   ("c3", subscriber "c3" [])].

Lemma threeClients_ok : registry_ok threeClients.
Proof.
  split.
  - unfold JSMap.wf. simpl.
    repeat constructor; simpl; intuition discriminate.
  - intros k c [E|[E|[E|[]]]]; inversion E; reflexivity.
Defined.

Lemma broadcast_delivery_example :
  deliveredTo (snd (broadcast "training_update" (Json "{}" true) (Some "x")
                      "2024-01-01T00:00:00.000Z" threeClients))
  = ["c1"; "c2"]
  /\ In "c1" (deliveredTo
                (snd (broadcast "training_update" (Json "{}" true) (Some "x")
                        "2024-01-01T00:00:00.000Z" threeClients))).
Proof.
  split; [reflexivity|].
  apply (broadcast_delivery "training_update" (Json "{}" true) (Some "x")
           "2024-01-01T00:00:00.000Z" threeClients "c1"
           (subscriber "c1" ["x"]) threeClients_ok).
  - simpl. tauto.
  - simpl. split; [reflexivity | split; [reflexivity | right; left; reflexivity]].
Defined.

(** The heartbeat drops an entry whose transport is not open, or whose
    last pong is more than 30 s old. *)
Definition doomed (now : Z) (entry : string * ConnectedClient) : bool :=
  negb (isOpen (readyState (ws (snd entry))))
  || (now - lastPing (snd entry) >? 30000).

(** What visiting one entry adds to the effects of a heartbeat. *)
Definition heartbeatEffects (now : Z) (entry : string * ConnectedClient)
  : list Effect :=
  if isOpen (readyState (ws (snd entry))) then
    if now - lastPing (snd entry) >? 30000
    then [LogHeartbeatFailed (fst entry); Terminate (fst entry)]
    else [Ping (fst entry)]
  else [].

Lemma heartbeat_fold now l m e :
  fold_left (heartbeatVisit now) l (m, e)
  = (fold_left (fun m k => JSMap.delete k m) (map fst (filter (doomed now) l)) m,
     e ++ flat_map (heartbeatEffects now) l).
Proof.
  revert m e. induction l as [|[k c] l IH]; intros m e; simpl.
  - now rewrite app_nil_r.
  - unfold doomed at 1, heartbeatEffects at 1. simpl.
    destruct (isOpen (readyState (ws c))); simpl.
    + destruct (now - lastPing c >? 30000); rewrite IH; simpl;
        now rewrite <- app_assoc.
    + now rewrite IH.
Qed.

Lemma heartbeatTick_eq now clients :
  heartbeatTick now clients
  = (fold_left (fun m k => JSMap.delete k m)
       (map fst (filter (doomed now) clients)) clients,
     flat_map (heartbeatEffects now) clients).
Proof. unfold heartbeatTick. now rewrite heartbeat_fold. Qed.

Lemma doomed_key now clients k c :
  JSMap.wf clients -> In (k, c) clients ->
  In k (map fst (filter (doomed now) clients)) <-> doomed now (k, c) = true.
Proof.
  intros Hwf Hin. rewrite in_map_iff. split.
  - intros ([k' c'] & E & Hf). simpl in E. subst k'.
    apply filter_In in Hf as [Hin' Hd].
    apply (JSMapFacts.In_get _ _ _ Hwf) in Hin.
    apply (JSMapFacts.In_get _ _ _ Hwf) in Hin'.
    congruence.
  - intros Hd. exists (k, c). split; [reflexivity|].
    now apply filter_In.
Qed.

Lemma heartbeat_effect_of now clients k c x :
  JSMap.wf clients -> In (k, c) clients ->
  (x = Ping k \/ x = Terminate k) ->
  In x (flat_map (heartbeatEffects now) clients)
  <-> In x (heartbeatEffects now (k, c)).
Proof.
  intros Hwf Hin Hx. rewrite in_flat_map. split.
  - intros ([k' c'] & Hin' & He).
    assert (k' = k) as ->.
    { unfold heartbeatEffects in He. simpl in He.
      destruct (isOpen _); [|contradiction].
      destruct (_ >? _); simpl in He;
        destruct Hx as [-> | ->]; intuition congruence. }
    apply (JSMapFacts.In_get _ _ _ Hwf) in Hin.
    apply (JSMapFacts.In_get _ _ _ Hwf) in Hin'.
    congruence.
  - intros He. now exists (k, c).
Qed.

(** C6: on a heartbeat tick, a registered connection whose transport is
    not open is removed (and neither pinged nor terminated); one whose
    transport is open and whose last pong is more than 30 s old is
    terminated and removed; any other is pinged and stays registered. *)
Theorem heartbeat_tick now clients k c :
  JSMap.wf clients -> In (k, c) clients ->
  let clients' := fst (heartbeatTick now clients) in
  let eff := snd (heartbeatTick now clients) in
  (isOpen (readyState (ws c)) = false ->
     JSMap.get k clients' = None
     /\ ~ In (Ping k) eff /\ ~ In (Terminate k) eff)
  /\ (isOpen (readyState (ws c)) = true -> now - lastPing c > 30000 ->
        JSMap.get k clients' = None
        /\ In (Terminate k) eff /\ ~ In (Ping k) eff)
  /\ (isOpen (readyState (ws c)) = true -> now - lastPing c <= 30000 ->
        JSMap.get k clients' = Some c
        /\ In (Ping k) eff /\ ~ In (Terminate k) eff).
Proof.
  intros Hwf Hin clients' eff. subst clients' eff.
  rewrite heartbeatTick_eq. simpl.
  pose proof (doomed_key now clients k c Hwf Hin) as Hd.
  pose proof (heartbeat_effect_of now clients k c (Ping k) Hwf Hin
                (or_introl eq_refl)) as Hp.
  pose proof (heartbeat_effect_of now clients k c (Terminate k) Hwf Hin
                (or_intror eq_refl)) as Ht.
  unfold doomed in Hd. unfold heartbeatEffects in Hp, Ht. simpl in Hd, Hp, Ht.
  split; [|split].
  - intros Ho. rewrite Ho in *. simpl in *. split; [|tauto].
    apply JSMapFacts.get_delete_list_in. now apply Hd.
  - intros Ho Hlate. rewrite Ho in *. simpl in *.
    assert (E : (now - lastPing c >? 30000) = true) by (apply Z.gtb_lt; lia).
    rewrite E in *. split; [|split].
    + apply JSMapFacts.get_delete_list_in. now apply Hd.
    + apply Ht. simpl. tauto.
    + rewrite Hp. simpl. intuition discriminate.
  - intros Ho Hfresh. rewrite Ho in *. simpl in *.
    assert (E : (now - lastPing c >? 30000) = false).
    { destruct (Z.gtb_spec (now - lastPing c) 30000); [lia | reflexivity]. }
    rewrite E in *. split; [|split].
    + rewrite JSMapFacts.get_delete_list_notin.
      * now apply JSMapFacts.In_get.
      * rewrite Hd. discriminate.
    + apply Hp. simpl. tauto.
    + rewrite Ht. simpl. intuition discriminate.
Qed.

(** A connection registered at time 0 and silent since is gone after the
    tick at 45 s; one that answered at 20 s is pinged and stays. *)
Definition twoClients : Clients :=
  [("c1", subscriber "c1" []);
   ("c2", {| ws := openSocket; id := "c2"; subscriptions := [];
             lastPing := 20000 |})].

Lemma twoClients_wf : JSMap.wf twoClients.
Proof.
  unfold JSMap.wf. simpl. repeat constructor; simpl; intuition discriminate.
Defined.

Lemma heartbeat_tick_example :
  JSMap.get "c1" (fst (heartbeatTick 45000 twoClients)) = None
  /\ In (Terminate "c1") (snd (heartbeatTick 45000 twoClients))
  /\ ~ In (Ping "c1") (snd (heartbeatTick 45000 twoClients)).
Proof.
  apply (heartbeat_tick 45000 twoClients "c1" (subscriber "c1" [])
           twoClients_wf).
  - simpl. tauto.
  - reflexivity.
  - simpl. lia.
Defined.

Lemma registry_ok_empty : registry_ok JSMap.empty.
Proof. split; [constructor | intros k c []]. Defined.

Lemma registry_ok_set clients k c :
  registry_ok clients -> id c = k -> registry_ok (JSMap.set k c clients).
Proof.
  intros [Hwf Hid] Hc. split; [now apply JSMapFacts.wf_set|].
  intros k' c' Hin. apply JSMapFacts.In_set in Hin; [|assumption].
  destruct Hin as [[-> ->]|[_ Hin]]; [assumption | now apply Hid].
Qed.

Lemma registry_ok_delete clients k :
  registry_ok clients -> registry_ok (JSMap.delete k clients).
Proof.
  intros [Hwf Hid]. split; [now apply JSMapFacts.wf_delete|].
  intros k' c' Hin. apply JSMapFacts.In_delete in Hin. now apply Hid.
Qed.

Lemma onConnection_eq socket idNow rnd36 now welcome nowIso clients :
  let clientId := generateClientId idNow rnd36 in
  let client := {| ws := socket; id := clientId;
                   subscriptions := JSSet.empty; lastPing := now |} in
  fst (onConnection socket idNow rnd36 now welcome nowIso clients)
  = (clientId, JSMap.set clientId client clients).
Proof.
  intros clientId client. unfold onConnection. fold clientId. fold client.
  now destruct (sendToClient _ _ _ _).
Qed.

(** C8, as the specification states it, fails: the id given to a new
    connection is not checked against the registry.  A connection accepted
    in the same millisecond as a registered one, with the same random
    draw, is given the id of that registered connection, and replaces
    it. *)
Lemma connection_id_collides :
  let first :=
    onConnection openSocket 1700000000000 "0.4fzyo82mvyr" 1700000000000
      "{}" "2023-11-14T22:13:20.000Z" JSMap.empty in
  let second :=
    onConnection openSocket 1700000000000 "0.4fzyo82mvyr" 1700000000001
      "{}" "2023-11-14T22:13:20.001Z" (snd (fst first)) in
  In (fst (fst second)) (JSMap.keys (snd (fst first)))
  /\ JSMap.size (snd (fst second)) = 1.
Proof. vm_compute. split; [left; reflexivity | reflexivity]. Qed.

(** C8, amended: a new connection is registered under the id
    [client_<Date.now()>_<random suffix>], whether or not that id is
    registered already.  The registry holds one entry per id: when the id
    is new the registry grows by the new entry, when it is not the new
    connection takes the place of the one registered under it; the other
    entries are untouched. *)
Theorem onConnection_registers socket idNow rnd36 now welcome nowIso clients :
  registry_ok clients ->
  let clientId :=
    fst (fst (onConnection socket idNow rnd36 now welcome nowIso clients)) in
  let clients' :=
    snd (fst (onConnection socket idNow rnd36 now welcome nowIso clients)) in
  clientId = generateClientId idNow rnd36
  /\ registry_ok clients'
  /\ JSMap.get clientId clients'
     = Some {| ws := socket; id := clientId; subscriptions := JSSet.empty;
               lastPing := now |}
  /\ (forall k, k <> clientId -> JSMap.get k clients' = JSMap.get k clients)
  /\ (JSMap.has clientId clients = false ->
        JSMap.size clients' = JSMap.size clients + 1)
  /\ (JSMap.has clientId clients = true ->
        JSMap.size clients' = JSMap.size clients).
Proof.
  intros Hok clientId clients'. subst clientId clients'.
  rewrite onConnection_eq. simpl.
  split; [reflexivity|]. split; [now apply registry_ok_set|].
  split; [apply JSMapFacts.get_set_same|].
  split; [intros k Hk; now apply JSMapFacts.get_set_other|].
  unfold JSMap.has.
  destruct (JSMap.get (generateClientId idNow rnd36) clients) eqn:E; split;
    try discriminate; intros _.
  - apply JSMapFacts.size_set_present. congruence.
  - now apply JSMapFacts.size_set_absent.
Qed.

Lemma onConnection_registers_example :
  JSMap.size
    (snd (fst (onConnection openSocket 1700000000000 "0.4fzyo82mvyr"
                 1700000000000 "{}" "2023-11-14T22:13:20.000Z" JSMap.empty)))
  = 1.
Proof.
  apply (onConnection_registers openSocket 1700000000000 "0.4fzyo82mvyr"
           1700000000000 "{}" "2023-11-14T22:13:20.000Z" JSMap.empty
           registry_ok_empty).
  reflexivity.
Defined.

End WebSocketFacts.

(** ** The training service *)

Module TrainingFacts.
Import AITrainingService.

(** *** The metric curves *)

Lemma generateLoss_floor progress random floor amplitude :
  (0 <= random)%R ->
  (0 <= amplitude)%R ->
  (floor - 0.05
   <= amplitude * exp (- progress * 3) + floor + (random - 0.5) * 0.1)%R.
Proof.
  intros Hr Ha.
  pose proof (exp_pos (- progress * 3)) as He.
  assert (0 <= amplitude * exp (- progress * 3))%R by nra.
  nra.
Qed.

(** C7: for the model type CNN, whatever the progress (in [0, 1] or
    not) and whatever the draw of the accuracy noise, the generated
    accuracy never exceeds 0.95; and for every draw of the loss noise in
    [0, 1) the generated loss is at least 0.05, the floor 0.1 minus the
    largest negative noise. *)
Theorem cnn_metric_bounds progress accuracyRandom lossRandom :
  unit_interval lossRandom ->
  (generateAccuracy progress "CNN" accuracyRandom <= 0.95)%R
  /\ (0.05 <= generateLoss progress "CNN" lossRandom)%R.
Proof.
  intros [Hl _]. split.
  - unfold generateAccuracy. simpl. apply Rmin_l.
  - unfold generateLoss. simpl.
    pose proof (generateLoss_floor progress lossRandom 0.1 2.5 Hl).
    lra.
Qed.

Lemma unit_interval_0 : unit_interval 0.
Proof. unfold unit_interval. lra. Defined.

Lemma cnn_metric_bounds_example :
  (generateAccuracy 0.5 "CNN" 0 <= 0.95)%R
  /\ (0.05 <= generateLoss 0.5 "CNN" 0)%R.
Proof.
  apply (cnn_metric_bounds 0.5 0 0 unit_interval_0).
Defined.

(** *** The heap *)

Lemma store_length r p h : List.length (store r p h) = List.length h.
Proof.
  revert r. induction h as [|x h IH]; intros [|r]; simpl; auto.
Qed.

Lemma store_same r p h :
  (r < List.length h)%nat -> nth_error (store r p h) r = Some p.
Proof.
  revert r. induction h as [|x h IH]; intros [|r]; simpl; try lia; auto.
  intros H. apply IH. lia.
Qed.

Lemma store_other r r' p h :
  r <> r' -> nth_error (store r p h) r' = nth_error h r'.
Proof.
  revert r r'. induction h as [|x h IH]; intros [|r] [|r']; simpl;
    try congruence; auto.
Qed.

Lemma deref_valid r s p : deref r s = Some p -> (r < List.length (heap s))%nat.
Proof. unfold deref. intros H. apply nth_error_Some. congruence. Qed.

Lemma valid_deref r s :
  (r < List.length (heap s))%nat -> exists p, deref r s = Some p.
Proof.
  unfold deref. intros H. apply nth_error_Some in H.
  destruct (nth_error (heap s) r) as [p|]; [now exists p | congruence].
Qed.

(** *** The three branches of a tick *)

(** The progress after a tick inside an epoch. *)
Definition afterBatch (p : TrainingProgress) (modelType : string)
    (batchDuration : R) (u : Draws) : TrainingProgress :=
  let batch := currentBatch p + 1 in
  let overallProgress :=
    ((IZR (epoch p) + IZR batch / IZR (totalBatches p))
     / IZR (totalEpochs p))%R in
  let loss' := generateLoss overallProgress modelType (lossDraw u) in
  let accuracy' := generateAccuracy overallProgress modelType (accuracyDraw u) in
  {| modelId := modelId p;
     epoch := epoch p;
     totalEpochs := totalEpochs p;
     loss := loss';
     accuracy := accuracy';
     validationLoss := (loss' + validationLossDraw u * 0.1)%R;
     validationAccuracy := Rmax 0 (accuracy' - validationAccuracyDraw u * 0.05);
     learningRate := learningRate p;
     estimatedTimeRemaining :=
       (IZR ((totalEpochs p - epoch p - 1) * totalBatches p
             + (totalBatches p - batch))
        * (batchDuration / 1000))%R;
     status := status p;
     currentBatch := batch;
     totalBatches := totalBatches p |}.

(** The progress after the tick that ends an epoch, with the status the
    branch gives it. *)
Definition afterEpoch (st : Status) (eta : R) (p : TrainingProgress)
  : TrainingProgress :=
  {| modelId := modelId p;
     epoch := epoch p + 1;
     totalEpochs := totalEpochs p;
     loss := loss p;
     accuracy := accuracy p;
     validationLoss := validationLoss p;
     validationAccuracy := validationAccuracy p;
     learningRate := learningRate p;
     estimatedTimeRemaining := eta;
     status := st;
     currentBatch := 0;
     totalBatches := totalBatches p |}.

Lemma onInterval_batch h x r ty bd u s p :
  deref r s = Some p -> currentBatch p < totalBatches p ->
  onInterval h x r ty bd u s
  = perform (Emit (trainingUpdate r (afterBatch p ty bd u)))
      (assign r (afterBatch p ty bd u) s).
Proof.
  intros Hd Hb. unfold onInterval. rewrite Hd.
  apply Z.ltb_lt in Hb. now rewrite Hb.
Qed.

Lemma onInterval_validate h x r ty bd u s p :
  deref r s = Some p -> totalBatches p <= currentBatch p ->
  epoch p + 1 < totalEpochs p ->
  onInterval h x r ty bd u s
  = snd (setTimeout (validationTimeout r) 5000
           (perform
              (Emit (trainingUpdate r
                       (afterEpoch validating (estimatedTimeRemaining p) p)))
              (assign r (afterEpoch validating (estimatedTimeRemaining p) p) s))).
Proof.
  intros Hd Hb He. unfold onInterval. rewrite Hd.
  apply Z.ltb_ge in Hb. rewrite Hb. simpl.
  destruct (Z.geb_spec (epoch p + 1) (totalEpochs p)); [lia | reflexivity].
Qed.

Lemma onInterval_complete h x r ty bd u s p :
  deref r s = Some p -> totalBatches p <= currentBatch p ->
  totalEpochs p <= epoch p + 1 ->
  onInterval h x r ty bd u s
  = suspend (afterFinalize x r)
      (finalizeModel x (afterEpoch completed 0 p) u
         (assign r (afterEpoch completed 0 p)
            (withActiveTraining
               (JSMap.delete x (activeTraining (clearInterval h s)))
               (clearInterval h s)))).
Proof.
  intros Hd Hb He. unfold onInterval. rewrite Hd.
  apply Z.ltb_ge in Hb. rewrite Hb. simpl.
  destruct (Z.geb_spec (epoch p + 1) (totalEpochs p)); [reflexivity | lia].
Qed.

(** *** Finalization *)

Lemma divide_finite x y : y <> 0%R -> divide x y = Finite (x / y).
Proof. intros H. unfold divide. now destruct (Req_EM_T y 0). Qed.

Lemma divide_zero_zero : divide 0 0 = NaN.
Proof.
  unfold divide. destruct (Req_EM_T 0 0) as [_|H]; [|now destruct H].
  reflexivity.
Qed.

(** C9: the tick that completes a job (the last epoch has no batch left)
    sends the storage layer one update for the model, and nothing else
    leaves the service in that tick.  The update holds exactly five
    fields: the accuracy of the job; the precision, which is the accuracy
    times [u1 = 0.95 + d1 * 0.05] for the draw [d1] of [Math.random()],
    a factor from 0.95 to 1; the recall, which is the accuracy times
    [u2 = 0.93 + d2 * 0.07] for the next draw [d2], a factor from 0.93 to
    1; the F1 score, which is the quotient [2 p r / (p + r)] of the two
    as JavaScript divides, a number unless the accuracy is 0 (a job
    without a batch) and [NaN] then; and [isActive = true]. *)
Theorem completion_persists_final_metrics h x r ty bd u s p :
  draws_ok u ->
  deref r s = Some p ->
  totalBatches p <= currentBatch p ->
  totalEpochs p <= epoch p + 1 ->
  exists u1 u2 precision recall : R,
    u1 = (0.95 + precisionDraw u * 0.05)%R
    /\ u2 = (0.93 + recallDraw u * 0.07)%R
    /\ (0.95 <= u1 <= 1)%R /\ (0.93 <= u2 <= 1)%R
    /\ precision = (accuracy p * u1)%R /\ recall = (accuracy p * u2)%R
    /\ trace (onInterval h x r ty bd u s)
       = trace s
         ++ [UpdateAiModel x
               {| Schema.name_opt := None;
                  Schema.type_opt := None;
                  Schema.version_opt := None;
                  Schema.accuracy_opt := Some (accuracy p);
                  Schema.precision_opt := Some precision;
                  Schema.recall_opt := Some recall;
                  Schema.f1Score_opt :=
                    Some (divide (2 * (precision * recall))
                            (precision + recall));
                  Schema.trainingData_opt := None;
                  Schema.isActive_opt := Some true;
                  Schema.parameters_opt := None |}]
    /\ (accuracy p <> 0%R ->
        divide (2 * (precision * recall)) (precision + recall)
        = Finite (2 * (precision * recall) / (precision + recall)))
    /\ (accuracy p = 0%R ->
        precision = 0%R /\ recall = 0%R
        /\ divide (2 * (precision * recall)) (precision + recall) = NaN).
Proof.
  intros (_ & _ & _ & _ & Hp & Hr) Hd Hb He.
  exists (0.95 + precisionDraw u * 0.05)%R, (0.93 + recallDraw u * 0.07)%R,
    (accuracy p * (0.95 + precisionDraw u * 0.05))%R,
    (accuracy p * (0.93 + recallDraw u * 0.07))%R.
  unfold unit_interval in Hp, Hr.
  split; [reflexivity|]. split; [reflexivity|].
  split; [lra|]. split; [lra|].
  split; [reflexivity|]. split; [reflexivity|]. split; [|split].
  - rewrite (onInterval_complete h x r ty bd u s p Hd Hb He). reflexivity.
  - intros Ha. apply divide_finite.
    rewrite <- Rmult_plus_distr_l. apply Rmult_integral_contrapositive.
    split; [assumption | lra].
  - intros Ha. rewrite Ha, !Rmult_0_l, Rmult_0_r, Rplus_0_l.
    repeat split. apply divide_zero_zero.
Qed.

(** *** A run: scenario A of the specification *)

Definition scenarioA : ModelConfig.t :=
  {| ModelConfig.name := "Test"; ModelConfig.type := "CNN";
     ModelConfig.architecture := "resnet"; ModelConfig.epochs := 1;
     ModelConfig.batchSize := 10; ModelConfig.learningRate := 0.01%R;
     ModelConfig.datasetSize := 10 |}.

Definition zeroDraws : Draws :=
  {| lossDraw := 0%R; accuracyDraw := 0%R; validationLossDraw := 0%R;
     validationAccuracyDraw := 0%R; precisionDraw := 0%R; recallDraw := 0%R |}.

Lemma zeroDraws_ok : draws_ok zeroDraws.
Proof. unfold draws_ok, unit_interval. simpl. repeat split; lra. Defined.

(** The method is called, and the storage layer answers with ["m1"]. *)
Definition started : Service := startTraining scenarioA init.

Definition created : Service :=
  snd (onCreated scenarioA "m1" (withSuspended [] started)).

(** The interval of the job, as armed by [simulateTraining]. *)
Definition firstTimer : Timer :=
  {| handle := O;
     callback := trainingInterval "m1" O "CNN" (120000 / IZR 1);
     due := 120000; delay := 120000; repeat := true |}.

(** Two minutes later the interval fires: the one batch of the one
    epoch is done. *)
Definition ticked : Service := fire firstTimer zeroDraws (withNow 120000 created).

Lemma created_timers : timers created = [firstTimer].
Proof. reflexivity. Defined.

Lemma reachable_created : reachable created.
Proof.
  apply (reachable_step started).
  - apply (reachable_step init); constructor.
  - apply (step_created started [] [] scenarioA "m1"). reflexivity.
Defined.

Lemma reachable_ticked : reachable ticked.
Proof.
  apply (reachable_step (withNow 120000 created)).
  - apply (reachable_step created); [exact reachable_created|].
    apply step_time. simpl. lia.
  - apply step_fire.
    + simpl. left. reflexivity.
    + simpl. lia.
    + simpl. intros t' [<-|[]]. apply Z.le_refl.
    + exact zeroDraws_ok.
Defined.

(** *** The methods, case by case *)

(** The progress object [onCreated] allocates. *)
Definition seed (modelConfig : ModelConfig.t) (id : string) : TrainingProgress :=
  {| modelId := id;
     epoch := 0;
     totalEpochs := ModelConfig.epochs modelConfig;
     loss := 0%R;
     accuracy := 0%R;
     validationLoss := 0%R;
     validationAccuracy := 0%R;
     learningRate := ModelConfig.learningRate modelConfig;
     estimatedTimeRemaining := IZR (ModelConfig.epochs modelConfig * 120);
     status := initializing;
     currentBatch := 0;
     totalBatches :=
       ceilDiv (ModelConfig.datasetSize modelConfig)
               (ModelConfig.batchSize modelConfig) |}.

(** The interval [simulateTraining] arms for the object [r]. *)
Definition intervalOf (modelConfig : ModelConfig.t) (id : string) (r : Ref)
    (s : Service) : Timer :=
  let n := totalBatches (seed modelConfig id) in
  {| handle := nextHandle s;
     callback :=
       trainingInterval id r (ModelConfig.type modelConfig) (120000 / IZR n);
     due := now s + intervalDelay n;
     delay := intervalDelay n;
     repeat := true |}.

Lemma store_last p p' h : store (List.length h) p' (h ++ [p]) = h ++ [p'].
Proof. induction h as [|x h IH]; simpl; [reflexivity | now rewrite IH]. Qed.

Lemma nth_error_last (p : TrainingProgress) h :
  nth_error (h ++ [p]) (List.length h) = Some p.
Proof. induction h as [|x h IH]; simpl; [reflexivity | exact IH]. Qed.

Lemma onCreated_eq modelConfig id s :
  snd (onCreated modelConfig id s)
  = {| activeTraining := JSMap.set id (nextHandle s) (activeTraining s);
       trainingProgress :=
         JSMap.set id (List.length (heap s)) (trainingProgress s);
       heap := heap s ++ [withStatus training (seed modelConfig id)];
       timers :=
         timers s ++ [intervalOf modelConfig id (List.length (heap s)) s];
       nextHandle := S (nextHandle s);
       suspended := suspended s;
       now := now s;
       trace :=
         trace s
         ++ [Emit (trainingUpdate (List.length (heap s))
                     (withStatus training (seed modelConfig id)));
             Broadcast "training_update" (List.length (heap s))
               (withStatus training (seed modelConfig id))] |}.
Proof.
  unfold onCreated, alloc, simulateTraining. simpl.
  rewrite JSMapFacts.get_set_same. unfold deref. simpl.
  rewrite nth_error_last. fold (seed modelConfig id). simpl.
  unfold assign. simpl. rewrite store_last.
  unfold intervalOf, withActiveTraining, withNextHandle, withTimers, perform.
  simpl. rewrite <- app_assoc. reflexivity.
Qed.

Lemma fst_onCreated modelConfig id s : fst (onCreated modelConfig id s) = id.
Proof. reflexivity. Qed.

Lemma onValidated_eq r s p :
  deref r s = Some p ->
  onValidated r s
  = perform (Emit (trainingUpdate r (withStatus training p)))
      (assign r (withStatus training p) s).
Proof. intros Hd. unfold onValidated. now rewrite Hd. Qed.

Lemma onFinalized_eq x r s p :
  deref r s = Some p ->
  onFinalized x r s = perform (Emit (trainingComplete x r p)) s.
Proof. intros Hd. unfold onFinalized. now rewrite Hd. Qed.

Lemma stopTraining_idle x s :
  JSMap.get x (activeTraining s) = None -> stopTraining x s = (false, s).
Proof. intros H. unfold stopTraining. now rewrite H. Qed.

Lemma stopTraining_active x s h r p :
  JSMap.get x (activeTraining s) = Some h ->
  JSMap.get x (trainingProgress s) = Some r ->
  deref r s = Some p ->
  stopTraining x s
  = (true,
     perform (Emit (trainingStopped x r (withStatus failed p)))
       (assign r (withStatus failed p)
          (withActiveTraining (JSMap.delete x (activeTraining s))
             (clearInterval h s)))).
Proof.
  intros Ha Hp Hd. unfold stopTraining. rewrite Ha. simpl.
  rewrite Hp. unfold deref in *. simpl. now rewrite Hd.
Qed.

(** *** The storage layer *)

Lemma storageCalls_app t1 t2 :
  storageCalls (t1 ++ t2) = storageCalls t1 ++ storageCalls t2.
Proof. apply filter_app. Qed.

Lemma storageCalls_stopTraining x s :
  storageCalls (trace (snd (stopTraining x s))) = storageCalls (trace s).
Proof.
  unfold stopTraining.
  destruct (JSMap.get x (activeTraining s)); [|reflexivity]. simpl.
  destruct (JSMap.get x (trainingProgress s)); [|reflexivity].
  destruct (deref _ _); [|reflexivity]. simpl.
  rewrite storageCalls_app. simpl. apply app_nil_r.
Qed.

Lemma storageCalls_onValidated r s :
  storageCalls (trace (onValidated r s)) = storageCalls (trace s).
Proof.
  unfold onValidated. destruct (deref r s); [|reflexivity]. simpl.
  rewrite storageCalls_app. simpl. apply app_nil_r.
Qed.

Lemma storageCalls_onFinalized x r s :
  storageCalls (trace (onFinalized x r s)) = storageCalls (trace s).
Proof.
  unfold onFinalized. destruct (deref r s); [|reflexivity]. simpl.
  rewrite storageCalls_app. simpl. apply app_nil_r.
Qed.

Lemma storageCalls_onCreated modelConfig id s :
  storageCalls (trace (snd (onCreated modelConfig id s)))
  = storageCalls (trace s).
Proof.
  rewrite onCreated_eq. simpl. rewrite storageCalls_app. simpl.
  apply app_nil_r.
Qed.

(** A tick calls the storage layer only when it completes the job. *)
Lemma storageCalls_onInterval h x r ty bd u s :
  storageCalls (trace (onInterval h x r ty bd u s)) = storageCalls (trace s)
  \/ exists p,
       deref r s = Some p /\ totalBatches p <= currentBatch p
       /\ totalEpochs p <= epoch p + 1
       /\ deref r (onInterval h x r ty bd u s) = Some (afterEpoch completed 0 p)
       /\ storageCalls (trace (onInterval h x r ty bd u s))
          = storageCalls (trace s) ++ [UpdateAiModel x (finalMetrics p u)].
Proof.
  destruct (deref r s) as [p|] eqn:Hd.
  2:{ left. unfold onInterval. now rewrite Hd. }
  destruct (Z.lt_ge_cases (currentBatch p) (totalBatches p)) as [Hb|Hb].
  { left. rewrite (onInterval_batch h x r ty bd u s p Hd Hb). simpl.
    rewrite storageCalls_app. simpl. apply app_nil_r. }
  destruct (Z.lt_ge_cases (epoch p + 1) (totalEpochs p)) as [He|He].
  { left. rewrite (onInterval_validate h x r ty bd u s p Hd Hb He). simpl.
    rewrite storageCalls_app. simpl. apply app_nil_r. }
  right. exists p. repeat split; try assumption.
  - rewrite (onInterval_complete h x r ty bd u s p Hd Hb He).
    unfold deref. simpl. apply store_same.
    now apply deref_valid in Hd.
  - rewrite (onInterval_complete h x r ty bd u s p Hd Hb He). simpl.
    rewrite storageCalls_app. reflexivity.
Qed.

(** C10: [stopTraining] makes no call of the storage layer, so the record
    created at the start is as it was.  That record is created by
    [startTraining] with the four metrics 0 and [isActive = false]; and in
    a run, the only other step that calls the storage layer is the tick
    that completes a job, which sends the update with the final metrics
    and [isActive = true]. *)
Theorem stop_never_touches_storage s :
  (forall modelId,
     storageCalls (trace (snd (stopTraining modelId s)))
     = storageCalls (trace s))
  /\ (forall modelConfig,
        storageCalls (trace (startTraining modelConfig s))
        = storageCalls (trace s) ++ [CreateAiModel (modelData modelConfig)]
        /\ Schema.accuracy (modelData modelConfig) = 0%R
        /\ Schema.precision (modelData modelConfig) = 0%R
        /\ Schema.recall (modelData modelConfig) = 0%R
        /\ Schema.f1Score (modelData modelConfig) = 0%R
        /\ Schema.isActive (modelData modelConfig) = false)
  /\ (forall s',
        step s s' ->
        storageCalls (trace s') = storageCalls (trace s)
        \/ (exists modelConfig, s' = startTraining modelConfig s)
        \/ (exists t u x r ty bd p,
              s' = fire t u s /\ In t (timers s)
              /\ callback t = trainingInterval x r ty bd
              /\ deref r s' = Some p /\ status p = completed
              /\ Schema.isActive_opt (finalMetrics p u) = Some true
              /\ storageCalls (trace s')
                 = storageCalls (trace s) ++ [UpdateAiModel x (finalMetrics p u)])).
Proof.
  split; [intros x; apply storageCalls_stopTraining|]. split.
  { intros cfg. unfold startTraining. simpl. rewrite storageCalls_app.
    simpl. repeat split; reflexivity. }
  intros s' Hstep. destruct Hstep as
    [s t Ht | s t u Hin Hdue Hmin Hu | s cfg | s pre post cfg id Hs
    | s pre post x r Hs | s pre post k Hs | s x].
  - left. reflexivity.
  - unfold fire. destruct (callback t) as [x r ty bd|r] eqn:Hcb.
    + set (s1 := if repeat t then rearm t s else clearInterval (handle t) s).
      assert (Htr : trace s1 = trace s) by (subst s1; now destruct (repeat t)).
      destruct (storageCalls_onInterval (handle t) x r ty bd u s1)
        as [E|(p & Hd & Hb & He & Hd' & E)].
      * left. now rewrite E, Htr.
      * right. right.
        exists t, u, x, r, ty, bd, (afterEpoch completed 0 p).
        unfold fire. rewrite Hcb. fold s1.
        repeat split; try assumption; try reflexivity.
        now rewrite E, Htr.
    + left. rewrite storageCalls_onValidated. now destruct (repeat t).
  - right. left. now exists cfg.
  - left. now rewrite storageCalls_onCreated.
  - left. now rewrite storageCalls_onFinalized.
  - left. reflexivity.
  - left. apply storageCalls_stopTraining.
Qed.

(** The progress of scenario A after its one batch. *)
Definition tickedProgress : TrainingProgress :=
  afterBatch (withStatus training (seed scenarioA "m1")) "CNN"
    (120000 / IZR 1) zeroDraws.

Lemma deref_ticked : deref O ticked = Some tickedProgress.
Proof. reflexivity. Defined.

Lemma completion_persists_final_metrics_example :
  exists u1 u2 precision recall : R,
    u1 = (0.95 + precisionDraw zeroDraws * 0.05)%R
    /\ u2 = (0.93 + recallDraw zeroDraws * 0.07)%R
    /\ (0.95 <= u1 <= 1)%R /\ (0.93 <= u2 <= 1)%R
    /\ precision = (accuracy tickedProgress * u1)%R
    /\ recall = (accuracy tickedProgress * u2)%R
    /\ trace (onInterval O "m1" O "CNN" (120000 / IZR 1) zeroDraws ticked)
       = trace ticked
         ++ [UpdateAiModel "m1"
               {| Schema.name_opt := None;
                  Schema.type_opt := None;
                  Schema.version_opt := None;
                  Schema.accuracy_opt := Some (accuracy tickedProgress);
                  Schema.precision_opt := Some precision;
                  Schema.recall_opt := Some recall;
                  Schema.f1Score_opt :=
                    Some (divide (2 * (precision * recall))
                            (precision + recall));
                  Schema.trainingData_opt := None;
                  Schema.isActive_opt := Some true;
                  Schema.parameters_opt := None |}]
    /\ (accuracy tickedProgress <> 0%R ->
        divide (2 * (precision * recall)) (precision + recall)
        = Finite (2 * (precision * recall) / (precision + recall)))
    /\ (accuracy tickedProgress = 0%R ->
        precision = 0%R /\ recall = 0%R
        /\ divide (2 * (precision * recall)) (precision + recall) = NaN).
Proof.
  apply (completion_persists_final_metrics O "m1" O "CNN" (120000 / IZR 1)
           zeroDraws ticked tickedProgress zeroDraws_ok deref_ticked).
  - apply Z.leb_le. reflexivity.
  - apply Z.leb_le. reflexivity.
Defined.

(** *** The invariant of the runs *)

(** The progress object a timer works on. *)
Definition timerRef (t : Timer) : Ref :=
  match callback t with
  | trainingInterval _ r _ _ => r
  | validationTimeout r => r
  end.

Definition isInterval (t : Timer) : bool :=
  match callback t with
  | trainingInterval _ _ _ _ => true
  | validationTimeout _ => false
  end.

(** The objects of the ticks suspended in [finalizeModel]. *)
Definition finalizeRefs (ks : list Continuation) : list Ref :=
  flat_map (fun k => match k with afterFinalize _ r => [r] | _ => [] end) ks.

(** A ['trainingComplete'] event for the object [r] is among [l]. *)
Definition completedIn (r : Ref) (l : list Event) : Prop :=
  exists x p, In (trainingComplete x r p) l.

(** No event for [r] comes after a ['trainingComplete'] event for [r]. *)
Definition completeIsLast (r : Ref) (l : list Event) : Prop :=
  forall pre x p post,
    l = pre ++ trainingComplete x r p :: post ->
    forall e, In e post -> eventRef e <> r.

Record Inv (s : Service) : Prop := {
  inv_timer_ref :
    forall t, In t (timers s) -> (timerRef t < List.length (heap s))%nat;
  inv_event_ref :
    forall e, In e (emitted (trace s)) ->
              (eventRef e < List.length (heap s))%nat;
  inv_susp_ref :
    forall r, In r (finalizeRefs (suspended s)) ->
              (r < List.length (heap s))%nat;
  inv_handles : NoDup (map handle (timers s));
  inv_handle_bound :
    forall t, In t (timers s) -> (handle t < nextHandle s)%nat;
  inv_kind : forall t, In t (timers s) -> repeat t = isInterval t;
  inv_active :
    forall x h, JSMap.get x (activeTraining s) = Some h ->
      exists r t ty bd,
        JSMap.get x (trainingProgress s) = Some r /\ In t (timers s)
        /\ handle t = h /\ callback t = trainingInterval x r ty bd;
  inv_one_interval :
    forall t1 t2, In t1 (timers s) -> In t2 (timers s) ->
      isInterval t1 = true -> isInterval t2 = true ->
      timerRef t1 = timerRef t2 -> handle t1 = handle t2;
  inv_delay :
    forall t p, In t (timers s) -> isInterval t = true ->
      deref (timerRef t) s = Some p ->
      delay t = intervalDelay (totalBatches p);
  inv_timing :
    forall t T p, In t (timers s) -> In T (timers s) ->
      isInterval t = true -> isInterval T = false ->
      timerRef T = timerRef t ->
      deref (timerRef t) s = Some p -> 1 <= totalBatches p ->
      due T < due t + (totalBatches p - currentBatch p) * delay t;
  inv_susp_nodup : NoDup (finalizeRefs (suspended s));
  inv_susp_done :
    forall r t, In r (finalizeRefs (suspended s)) -> In t (timers s) ->
      isInterval t = true -> timerRef t <> r;
  inv_susp_fresh :
    forall r, In r (finalizeRefs (suspended s)) ->
      ~ completedIn r (emitted (trace s));
  inv_complete_done :
    forall r t, completedIn r (emitted (trace s)) -> In t (timers s) ->
      isInterval t = true -> timerRef t <> r;
  inv_complete_resumed :
    forall r, completedIn r (emitted (trace s)) ->
      ~ In r (finalizeRefs (suspended s));
  inv_no_timeout :
    forall r p T, deref r s = Some p -> 1 <= totalBatches p ->
      In r (finalizeRefs (suspended s)) \/ completedIn r (emitted (trace s)) ->
      In T (timers s) -> timerRef T <> r;
  inv_complete_last :
    forall r p, deref r s = Some p -> 1 <= totalBatches p ->
      completeIsLast r (emitted (trace s))
}.

Lemma emitted_app t1 t2 : emitted (t1 ++ t2) = emitted t1 ++ emitted t2.
Proof. apply flat_map_app. Qed.

Lemma finalizeRefs_app k1 k2 :
  finalizeRefs (k1 ++ k2) = finalizeRefs k1 ++ finalizeRefs k2.
Proof. apply flat_map_app. Qed.

Lemma completedIn_app r l e :
  completedIn r (l ++ [e]) ->
  completedIn r l \/ (exists x p, e = trainingComplete x r p).
Proof.
  intros (x & p & Hin). apply in_app_or in Hin as [Hin|[E|[]]].
  - left. now exists x, p.
  - right. now exists x, p.
Qed.

Lemma completedIn_mono r l e : completedIn r l -> completedIn r (l ++ [e]).
Proof. intros (x & p & Hin). exists x, p. apply in_or_app. now left. Qed.

Lemma completeIsLast_nil r : completeIsLast r [].
Proof. intros [|? ?] x p post E; discriminate. Qed.

Lemma completeIsLast_app r l e' :
  completeIsLast r l ->
  (completedIn r l -> eventRef e' <> r) ->
  completeIsLast r (l ++ [e']).
Proof.
  intros Hl He pre x p post E e Hin.
  revert E Hin. destruct post as [|e0 post0 _] using rev_ind;
    [contradiction|]. intros E Hin.
  rewrite app_comm_cons, app_assoc in E. apply app_inj_tail in E as [E ->].
  apply in_app_or in Hin as [Hin|[<-|[]]].
  - now apply (Hl pre x p post0 E e).
  - apply He. exists x, p. rewrite E. apply in_or_app. right. now left.
Qed.

Lemma completeIsLast_absent r l :
  (forall e, In e l -> eventRef e <> r) -> completeIsLast r l.
Proof.
  intros H pre x p post E e Hin. apply H. rewrite E.
  apply in_or_app. right. now right.
Qed.

(** A whole number of batches of at least 1 takes longer than a
    validation phase. *)
Lemma validation_shorter_than_epoch n :
  1 <= n -> 5000 < (n + 1) * intervalDelay n.
Proof.
  intros Hn. unfold intervalDelay.
  destruct (Z.leb_spec 1 n); [|lia]. simpl.
  destruct (Z.leb_spec n 120000); [|lia].
  assert (Hd : 120000 = n * (120000 / n) + 120000 mod n)
    by (apply Z.div_mod; lia).
  assert (Hm : 0 <= 120000 mod n < n) by (apply Z.mod_pos_bound; lia).
  assert (Hq : 1 <= 120000 / n) by (apply Z.div_le_lower_bound; lia).
  simpl. generalize dependent (120000 / n). intros q Hd Hq.
  destruct (Z.le_gt_cases n 60000); nia.
Qed.

Lemma intervalDelay_pos n : 1 <= intervalDelay n.
Proof.
  unfold intervalDelay.
  destruct ((1 <=? n) && (n <=? 120000)) eqn:E; [|lia].
  apply andb_true_iff in E as [H1 H2].
  apply Z.leb_le in H1, H2.
  assert (1 <= 120000 / n); [|lia].
  apply Z.div_le_lower_bound; lia.
Qed.

Lemma handle_unique (l : list Timer) t1 t2 :
  NoDup (map handle l) -> In t1 l -> In t2 l -> handle t1 = handle t2 ->
  t1 = t2.
Proof.
  induction l as [|t l IH]; simpl; [tauto|].
  intros Hnd H1 H2 E. inversion Hnd as [|? ? Hni Hnd']; subst.
  destruct H1 as [->|H1], H2 as [->|H2]; auto.
  - exfalso. apply Hni. rewrite E. now apply in_map.
  - exfalso. apply Hni. rewrite <- E. now apply in_map.
Qed.

Lemma deref_assign r r' p s p' :
  deref r' (assign r p s) = Some p' ->
  (r' = r /\ p' = p) \/ (r' <> r /\ deref r' s = Some p').
Proof.
  unfold deref, assign. simpl. intros H.
  destruct (Nat.eq_dec r r') as [<-|Hne].
  - left. split; [reflexivity|].
    assert (Hv : (r < List.length (heap s))%nat).
    { rewrite <- (store_length r p). apply nth_error_Some. congruence. }
    rewrite store_same in H by assumption. congruence.
  - right. rewrite store_other in H by assumption. auto.
Qed.

Lemma deref_assign_same r p s :
  (r < List.length (heap s))%nat -> deref r (assign r p s) = Some p.
Proof. intros H. unfold deref, assign. simpl. now apply store_same. Qed.

Lemma Inv_init : Inv init.
Proof.
  constructor; simpl; try tauto; try constructor.
  - intros x h H. discriminate.
  - intros r p _ _. apply completeIsLast_nil.
Qed.

Lemma Inv_withNow n s : Inv s -> Inv (withNow n s).
Proof. intros [? ? ? ? ? ? ? ? ? ? ? ? ? ? ? ? ?]. constructor; assumption. Qed.

Lemma Inv_startTraining modelConfig s : Inv s -> Inv (startTraining modelConfig s).
Proof.
  intros [? ? ? ? ? ? ? ? ? ? ? ? ? ? ? ? ?].
  constructor; unfold startTraining, suspend, deref in *; simpl;
    rewrite ?emitted_app, ?finalizeRefs_app; simpl; rewrite ?app_nil_r;
    assumption.
Qed.

Lemma finalizeRefs_drop pre k post r :
  In r (finalizeRefs (pre ++ post)) -> In r (finalizeRefs (pre ++ k :: post)).
Proof.
  rewrite !finalizeRefs_app. intros H. apply in_or_app.
  apply in_app_or in H as [H|H]; [now left|]. right.
  simpl. apply in_or_app. now right.
Qed.

Lemma finalizeRefs_drop_nodup pre k post :
  NoDup (finalizeRefs (pre ++ k :: post)) -> NoDup (finalizeRefs (pre ++ post)).
Proof.
  rewrite !finalizeRefs_app. simpl.
  destruct k as [cfg|x r]; simpl; [tauto|]. apply NoDup_remove_1.
Qed.

Lemma Inv_drop pre k post s :
  Inv s -> suspended s = pre ++ k :: post ->
  Inv (withSuspended (pre ++ post) s).
Proof.
  intros [? ? ? ? ? ? ? ? ? ? ? ? ? ? ? ? ?] E.
  rewrite E in *.
  constructor; unfold deref in *; simpl; try assumption;
    eauto using finalizeRefs_drop, finalizeRefs_drop_nodup.
  - intros r Hc Hin. eapply inv_complete_resumed0; eauto using finalizeRefs_drop.
  - intros r p T Hd Hn [H|H]; eauto using finalizeRefs_drop.
Qed.

Ltac open_inv H :=
  destruct H as [Htr Her Hsr Hnd Hhb Hk Ha Ho Hdl Htm Hsn Hsd Hsf Hcd Hcr
                 Hnt Hcl].

Lemma completedIn_ref r l (bound : nat) :
  (forall e, In e l -> (eventRef e < bound)%nat) ->
  completedIn r l -> (r < bound)%nat.
Proof. intros H (x & p & Hin). exact (H _ Hin). Qed.

Lemma In_snoc (A : Type) (x y : A) l : In x (l ++ [y]) -> In x l \/ x = y.
Proof.
  intros H. apply in_app_or in H as [H|[H|[]]]; [now left | now right].
Qed.

Lemma timerRef_intervalOf modelConfig id r s :
  timerRef (intervalOf modelConfig id r s) = r.
Proof. reflexivity. Qed.

Lemma handle_intervalOf modelConfig id r s :
  handle (intervalOf modelConfig id r s) = nextHandle s.
Proof. reflexivity. Qed.

Lemma isInterval_intervalOf modelConfig id r s :
  isInterval (intervalOf modelConfig id r s) = true.
Proof. reflexivity. Qed.

Ltac simp_new :=
  rewrite ?timerRef_intervalOf, ?handle_intervalOf, ?isInterval_intervalOf in *;
  simpl in *.

Lemma Inv_onCreated modelConfig id s :
  Inv s -> Inv (snd (onCreated modelConfig id s)).
Proof.
  intros HI. open_inv HI. rewrite onCreated_eq.
  set (r0 := List.length (heap s)) in *.
  set (p0 := withStatus training (seed modelConfig id)).
  assert (Hlen : List.length (heap s ++ [p0]) = S r0)
    by (rewrite length_app; simpl; lia).
  assert (Hold : forall r, (r < r0)%nat ->
                 nth_error (heap s ++ [p0]) r = nth_error (heap s) r)
    by (intros r Hr; now apply nth_error_app1).
  constructor; unfold deref in *; simpl;
    rewrite ?emitted_app; simpl; rewrite ?Hlen.
  - intros t Ht. apply In_snoc in Ht as [Ht| ->].
    + specialize (Htr t Ht). lia.
    + simp_new. lia.
  - intros e He. apply In_snoc in He as [He| ->].
    + specialize (Her e He). lia.
    + simpl. lia.
  - intros r Hr. specialize (Hsr r Hr). lia.
  - rewrite map_app. simpl. apply NoDup_app; [assumption | repeat constructor; simpl; tauto|].
    intros h Hh [<-|[]]. apply in_map_iff in Hh as (t & E & Ht).
    specialize (Hhb t Ht). lia.
  - intros t Ht. apply In_snoc in Ht as [Ht| ->].
    + specialize (Hhb t Ht). lia.
    + simp_new. lia.
  - intros t Ht. apply In_snoc in Ht as [Ht| ->]; [auto | reflexivity].
  - intros x h Hx. destruct (string_dec x id) as [->|Hne].
    + rewrite JSMapFacts.get_set_same in Hx. injection Hx as <-.
      exists r0, (intervalOf modelConfig id r0 s),
        (ModelConfig.type modelConfig),
        (120000 / IZR (totalBatches (seed modelConfig id)))%R.
      rewrite JSMapFacts.get_set_same.
      repeat split. apply in_or_app. right. now left.
    + rewrite JSMapFacts.get_set_other in Hx by assumption.
      destruct (Ha x h Hx) as (r & t & ty & bd & H1 & H2 & H3 & H4).
      exists r, t, ty, bd.
      rewrite JSMapFacts.get_set_other by assumption.
      repeat split; try assumption. apply in_or_app. now left.
  - intros t1 t2 H1 H2 I1 I2 E.
    apply In_snoc in H1 as [H1| ->], H2 as [H2| ->]; auto.
    + specialize (Htr t1 H1). simp_new. lia.
    + specialize (Htr t2 H2). simp_new. lia.
  - intros t p Ht It Hp. apply In_snoc in Ht as [Ht| ->].
    + rewrite Hold in Hp by auto. eauto.
    + rewrite timerRef_intervalOf in Hp. unfold r0 in Hp.
      rewrite nth_error_last in Hp. injection Hp as <-. reflexivity.
  - intros t T p Ht HT It IT E Hp Hn.
    apply In_snoc in HT as [HT| ->]; [|discriminate].
    apply In_snoc in Ht as [Ht| ->].
    + rewrite Hold in Hp by auto. eauto.
    + specialize (Htr T HT). simp_new. lia.
  - assumption.
  - intros r t Hr Ht It. apply In_snoc in Ht as [Ht| ->]; [eauto|].
    specialize (Hsr r Hr). simp_new. lia.
  - intros r Hr Hc. apply completedIn_app in Hc as [Hc|(x & p & Hc)];
      [now apply (Hsf r) | discriminate].
  - intros r t Hc Ht It.
    apply completedIn_app in Hc as [Hc|(x & p & Hc)]; [|discriminate].
    apply In_snoc in Ht as [Ht| ->]; [eauto|].
    apply (completedIn_ref r _ _ Her) in Hc. simp_new. lia.
  - intros r Hc.
    apply completedIn_app in Hc as [Hc|(x & p & Hc)]; [auto | discriminate].
  - intros r p T Hp Hn Hr HT.
    assert (Hr' : In r (finalizeRefs (suspended s))
                  \/ completedIn r (emitted (trace s))).
    { destruct Hr as [Hr|Hr]; [now left|]. right.
      apply completedIn_app in Hr as [Hr|(x & q & Hr)]; [auto | discriminate]. }
    assert (Hlt : (r < r0)%nat).
    { destruct Hr' as [Hr'|Hr']; [auto | now apply (completedIn_ref r _ _ Her)]. }
    apply In_snoc in HT as [HT| ->]; [|simp_new; lia].
    rewrite Hold in Hp by assumption. eauto.
  - intros r p Hp Hn. apply completeIsLast_app.
    + destruct (Nat.lt_ge_cases r r0) as [Hlt|Hge].
      * rewrite Hold in Hp by assumption. eauto.
      * apply completeIsLast_absent. intros e He.
        specialize (Her e He). lia.
    + intros Hc. apply (completedIn_ref r _ _ Her) in Hc. simpl. lia.
Qed.

Lemma finalizeRefs_mid pre x r post :
  In r (finalizeRefs (pre ++ afterFinalize x r :: post)).
Proof.
  rewrite finalizeRefs_app. apply in_or_app. right. simpl. now left.
Qed.

Lemma finalizeRefs_once pre x r post :
  NoDup (finalizeRefs (pre ++ afterFinalize x r :: post)) ->
  ~ In r (finalizeRefs (pre ++ post)).
Proof.
  rewrite !finalizeRefs_app. simpl. apply NoDup_remove_2.
Qed.

Lemma Inv_onFinalized pre x r post s :
  Inv s -> suspended s = pre ++ afterFinalize x r :: post ->
  Inv (onFinalized x r (withSuspended (pre ++ post) s)).
Proof.
  intros HI E.
  pose proof (Inv_drop pre _ post s HI E) as HI0.
  destruct HI as [_ _ Hsr' _ _ _ _ _ _ _ Hsn' Hsd' Hsf' _ _ Hnt' _].
  rewrite E in *.
  pose proof (finalizeRefs_mid pre x r post) as Hmid.
  pose proof (finalizeRefs_once pre x r post Hsn') as Honce.
  unfold onFinalized.
  destruct (deref r (withSuspended (pre ++ post) s)) as [p|] eqn:Hp;
    [|assumption].
  open_inv HI0.
  constructor; unfold deref in *; simpl in *; rewrite ?emitted_app; simpl;
    try assumption.
  - intros e He. apply In_snoc in He as [He| ->]; [auto|].
    simpl. auto.
  - intros r2 Hr2 Hc.
    apply completedIn_app in Hc as [Hc|(y & q & Hc)]; [now apply (Hsf r2)|].
    injection Hc as _ <- _. contradiction.
  - intros r2 t Hc Ht It.
    apply completedIn_app in Hc as [Hc|(y & q & Hc)]; [eauto|].
    injection Hc as _ <- _. eauto.
  - intros r2 Hc.
    apply completedIn_app in Hc as [Hc|(y & q & Hc)]; [auto|].
    injection Hc as _ <- _. assumption.
  - intros r2 q T Hq Hn Hr2 HT.
    destruct Hr2 as [Hr2|Hc]; [eauto|].
    apply completedIn_app in Hc as [Hc|(y & q' & Hc)]; [eauto|].
    injection Hc as _ <- _. eauto.
  - intros r2 q Hq Hn. apply completeIsLast_app; [eauto|].
    intros Hc. simpl. intros <-. now apply (Hsf' r).
Qed.

(** *** Timers that fire *)

Lemma timerRef_callback t t' : callback t' = callback t -> timerRef t' = timerRef t.
Proof. unfold timerRef. now intros ->. Qed.

Lemma isInterval_callback t t' :
  callback t' = callback t -> isInterval t' = isInterval t.
Proof. unfold isInterval. now intros ->. Qed.

Lemma In_rearm t s t' :
  In t' (timers (rearm t s)) ->
  exists t0,
    In t0 (timers s) /\ handle t' = handle t0 /\ callback t' = callback t0
    /\ delay t' = delay t0 /\ repeat t' = repeat t0
    /\ ((handle t0 <> handle t /\ t' = t0)
        \/ (handle t0 = handle t /\ due t' = now s + delay t0)).
Proof.
  unfold rearm. simpl. intros H. apply in_map_iff in H as (t0 & E & Hin).
  exists t0. split; [assumption|].
  destruct (Nat.eqb_spec (handle t0) (handle t)) as [Hh|Hh]; subst t'; simpl;
    repeat split; auto.
Qed.

Lemma rearm_In t s t0 :
  In t0 (timers s) ->
  exists t', In t' (timers (rearm t s)) /\ handle t' = handle t0
             /\ callback t' = callback t0 /\ delay t' = delay t0
             /\ (handle t0 = handle t -> due t' = now s + delay t0).
Proof.
  intros Hin. unfold rearm. simpl.
  eexists. split; [apply in_map_iff; exists t0; split; [reflexivity|assumption]|].
  destruct (Nat.eqb_spec (handle t0) (handle t)); simpl; repeat split; auto.
  intros; contradiction.
Qed.

Lemma map_handle_rearm t s :
  map handle (timers (rearm t s)) = map handle (timers s).
Proof.
  unfold rearm. simpl. rewrite map_map. apply map_ext.
  intros t0. now destruct (Nat.eqb (handle t0) (handle t)).
Qed.

Lemma Inv_rearm t s :
  Inv s -> In t (timers s) -> isInterval t = true -> due t <= now s ->
  Inv (rearm t s).
Proof.
  intros HI Hin Hint Hdue. open_inv HI.
  assert (Hsame : forall t', In t' (timers (rearm t s)) ->
            exists t0, In t0 (timers s) /\ handle t' = handle t0
                       /\ timerRef t' = timerRef t0
                       /\ isInterval t' = isInterval t0
                       /\ delay t' = delay t0 /\ repeat t' = repeat t0
                       /\ ((due t' = due t0 /\ (isInterval t0 = true -> t0 <> t))
                           \/ (t0 = t /\ due t' = now s + delay t))).
  { intros t' Ht'. apply In_rearm in Ht' as (t0 & H0 & H1 & H2 & H3 & H4 & H5).
    exists t0. repeat split; auto using timerRef_callback, isInterval_callback.
    destruct H5 as [[H5 H6]|[H5 H6]].
    - left. split; [now subst|]. intros _ ->. congruence.
    - right. assert (t0 = t) as -> by eauto using handle_unique. auto. }
  constructor; rewrite ?map_handle_rearm; try assumption;
    unfold deref in *; simpl heap in *; simpl activeTraining;
    simpl trainingProgress; simpl nextHandle; simpl suspended; simpl trace.
  - intros t' Ht'. destruct (Hsame t' Ht') as (t0 & H0 & _ & -> & _). auto.
  - intros t' Ht'. destruct (Hsame t' Ht') as (t0 & H0 & -> & _). auto.
  - intros t' Ht'. destruct (Hsame t' Ht') as (t0 & H0 & _ & _ & -> & _ & -> & _).
    auto.
  - intros x h Hx. destruct (Ha x h Hx) as (r & t0 & ty & bd & H1 & H2 & H3 & H4).
    destruct (rearm_In t s t0 H2) as (t' & G1 & G2 & G3 & _ & _).
    exists r, t', ty, bd. repeat split; congruence.
  - intros t1 t2 H1 H2 I1 I2 E.
    destruct (Hsame t1 H1) as (a & A0 & -> & A2 & A3 & _).
    destruct (Hsame t2 H2) as (b & B0 & -> & B2 & B3 & _).
    apply Ho; congruence.
  - intros t' p Ht' It' Hp.
    destruct (Hsame t' Ht') as (t0 & H0 & _ & H2 & H3 & -> & _).
    rewrite H2 in Hp. apply Hdl; congruence.
  - intros t' T' p Ht' HT' It' IT' E Hp Hn.
    destruct (Hsame t' Ht') as (t0 & H0 & _ & H2 & H3 & H4 & _ & H6).
    destruct (Hsame T' HT') as (T0 & G0 & _ & G2 & G3 & _ & _ & G6).
    rewrite H2 in *. rewrite H3 in *. rewrite G2 in *. rewrite G3 in *.
    rewrite H4.
    assert (Hd0 : due T' = due T0).
    { destruct G6 as [[G6 _]|[-> _]]; [assumption | congruence]. }
    rewrite Hd0.
    pose proof (Htm t0 T0 p H0 G0 It' IT' E Hp Hn) as Hold.
    destruct H6 as [[-> _]|[-> ->]]; [assumption|].
    pose proof (Hdl t p Hin Hint Hp) as Hdelay.
    pose proof (intervalDelay_pos (totalBatches p)). lia.
  - intros r t' Hr Ht' It'.
    destruct (Hsame t' Ht') as (t0 & H0 & _ & -> & H3 & _).
    apply Hsd; congruence.
  - intros r t' Hr Ht' It'.
    destruct (Hsame t' Ht') as (t0 & H0 & _ & -> & H3 & _).
    apply Hcd; congruence.
  - intros r p T' Hp Hn Hr HT'.
    destruct (Hsame T' HT') as (T0 & G0 & _ & -> & _). eauto.
Qed.

Lemma heap_back (h : list TrainingProgress) r p p' r2 q :
  nth_error h r = Some p -> totalBatches p' = totalBatches p ->
  nth_error (store r p' h) r2 = Some q ->
  exists q0,
    nth_error h r2 = Some q0 /\ totalBatches q0 = totalBatches q
    /\ (r2 <> r -> q0 = q) /\ (r2 = r -> q0 = p /\ q = p').
Proof.
  intros Hp Hn Hq. destruct (Nat.eq_dec r r2) as [<-|Hne].
  - assert (Hv : (r < List.length h)%nat) by (apply nth_error_Some; congruence).
    rewrite store_same in Hq by assumption. injection Hq as <-.
    exists p. split; [assumption|]. split; [congruence|].
    split; [congruence | auto].
  - rewrite store_other in Hq by assumption.
    exists q. split; [assumption|]. split; [reflexivity|].
    split; [auto | congruence].
Qed.

Lemma NoDup_map_filter (A B : Type) (f : A -> B) (g : A -> bool) l :
  NoDup (map f l) -> NoDup (map f (filter g l)).
Proof.
  induction l as [|a l IH]; simpl; [auto|].
  intros H. inversion H as [|? ? Hni Hnd]; subst.
  destruct (g a); simpl; [|auto].
  constructor; [|auto]. intros Hin. apply Hni.
  apply in_map_iff in Hin as (b & E & Hb). apply filter_In in Hb as [Hb _].
  rewrite <- E. now apply in_map.
Qed.

Lemma In_cleared h (l : list Timer) t :
  In t (filter (fun t => negb (Nat.eqb (handle t) h)) l)
  <-> In t l /\ handle t <> h.
Proof.
  rewrite filter_In, negb_true_iff, Nat.eqb_neq. tauto.
Qed.

(** The object [r] is updated, keeping its number of batches; timers may
    be cancelled or spent; at most one event for [r], not the completion,
    is emitted. *)
Lemma Inv_update s s' r p p' evs :
  Inv s -> deref r s = Some p ->
  totalBatches p' = totalBatches p ->
  (forall e, In e evs ->
             eventRef e = r /\ forall x q, e <> trainingComplete x r q) ->
  (evs = [] \/ exists e, evs = [e]) ->
  (evs <> [] -> 1 <= totalBatches p ->
   ~ completedIn r (emitted (trace s))) ->
  heap s' = store r p' (heap s) ->
  (forall t, In t (timers s') -> In t (timers s)) ->
  NoDup (map handle (timers s')) ->
  nextHandle s' = nextHandle s -> suspended s' = suspended s ->
  trainingProgress s' = trainingProgress s ->
  (forall x h', JSMap.get x (activeTraining s') = Some h' ->
                JSMap.get x (activeTraining s) = Some h'
                /\ forall t, In t (timers s) -> handle t = h' ->
                             In t (timers s')) ->
  emitted (trace s') = emitted (trace s) ++ evs ->
  (forall t T, In t (timers s') -> In T (timers s') ->
     isInterval t = true -> isInterval T = false ->
     timerRef T = r -> timerRef t = r -> 1 <= totalBatches p ->
     due T < due t + (totalBatches p - currentBatch p') * delay t) ->
  Inv s'.
Proof.
  intros HI Hp Hn Hev Hshape Hfresh Eh Hsub Hnd' En Es Ep Hact Ee Htime.
  open_inv HI.
  assert (Hc : forall r2, completedIn r2 (emitted (trace s) ++ evs) ->
                          completedIn r2 (emitted (trace s))).
  { intros r2 H. destruct Hshape as [->|[e ->]].
    - now rewrite app_nil_r in H.
    - apply completedIn_app in H as [H|(x & q & H)]; [assumption|].
      exfalso. destruct (Hev e (or_introl eq_refl)) as [Hr Hnc].
      subst e. simpl in Hr. subst r2. now apply (Hnc x q). }
  unfold deref in *.
  constructor; unfold deref; rewrite ?Eh, ?En, ?Es, ?Ep, ?Ee, ?store_length;
    try assumption.
  - auto.
  - intros e' He'. apply in_app_or in He' as [He'|He']; [auto|].
    destruct (Hev e' He') as [-> _]. apply nth_error_Some. congruence.
  - auto.
  - auto.
  - intros x h' Hx. destruct (Hact x h' Hx) as [Hx' Hkeep].
    destruct (Ha x h' Hx') as (r2 & t & ty & bd & H1 & H2 & H3 & H4).
    exists r2, t, ty, bd. repeat split; auto.
  - auto.
  - intros t q Ht It Hq.
    destruct (heap_back _ _ _ _ _ _ Hp Hn Hq) as (q0 & G1 & G2 & _).
    rewrite <- G2. eauto.
  - intros t T q Ht HT It IT E Hq Hnq.
    destruct (heap_back _ _ _ _ _ _ Hp Hn Hq) as (q0 & G1 & G2 & G3 & G4).
    destruct (Nat.eq_dec (timerRef t) r) as [Er|Er].
    + destruct (G4 Er) as [-> ->]. rewrite Hn. apply Htime; congruence.
    + pose proof (G3 Er) as <-. apply Htm; auto.
  - eauto.
  - intros r2 Hr2 H. apply Hc in H. now apply (Hsf r2).
  - intros r2 t H Ht It. apply Hc in H. eauto.
  - intros r2 H. apply Hc in H. auto.
  - intros r2 q T Hq Hnq Hr2 HT.
    destruct (heap_back _ _ _ _ _ _ Hp Hn Hq) as (q0 & G1 & G2 & _).
    apply (Hnt r2 q0 T); auto; [congruence|].
    destruct Hr2 as [Hr2|Hr2]; [now left | right; auto].
  - intros r2 q Hq Hnq.
    destruct (heap_back _ _ _ _ _ _ Hp Hn Hq) as (q0 & G1 & G2 & _ & G4).
    assert (Hold : completeIsLast r2 (emitted (trace s)))
      by (apply (Hcl r2 q0); [assumption | congruence]).
    destruct Hshape as [->|[e ->]]; [now rewrite app_nil_r|].
    apply completeIsLast_app; [assumption|].
    intros H E. destruct (Hev e (or_introl eq_refl)) as [Hr _].
    rewrite Hr in E. subst r2.
    destruct (G4 eq_refl) as [-> ->].
    apply Hfresh; [discriminate | congruence | assumption].
Qed.

(** The update of [Inv_update] when a timer is cancelled or spent and the
    object keeps its batch counter. *)
Lemma Inv_cancel s s' h r p p' e :
  Inv s -> deref r s = Some p ->
  totalBatches p' = totalBatches p -> currentBatch p' = currentBatch p ->
  eventRef e = r ->
  (forall x q, e <> trainingComplete x r q) ->
  (1 <= totalBatches p -> ~ completedIn r (emitted (trace s))) ->
  heap s' = store r p' (heap s) ->
  timers s' = filter (fun t => negb (Nat.eqb (handle t) h)) (timers s) ->
  nextHandle s' = nextHandle s -> suspended s' = suspended s ->
  trainingProgress s' = trainingProgress s ->
  (forall x h', JSMap.get x (activeTraining s') = Some h' ->
                JSMap.get x (activeTraining s) = Some h' /\ h' <> h) ->
  emitted (trace s') = emitted (trace s) ++ [e] ->
  Inv s'.
Proof.
  intros HI Hp Hn Hb Hev Hnc Hfresh Eh Et En Es Ep Hact Ee.
  apply (Inv_update s s' r p p' [e] HI Hp Hn); try assumption.
  - intros e' [<-|[]]. auto.
  - right. now exists e.
  - auto.
  - rewrite Et. intros t Ht. now apply In_cleared in Ht.
  - rewrite Et. apply NoDup_map_filter. now destruct HI.
  - intros x h' Hx. destruct (Hact x h' Hx) as [Hx' Hne].
    split; [assumption|]. intros t Ht Hh. rewrite Et.
    apply In_cleared. split; [assumption | congruence].
  - rewrite Et. intros t T Ht HT It IT E1 E2 Hn1.
    apply In_cleared in Ht as [Ht _], HT as [HT _].
    rewrite Hb. destruct HI. apply inv_timing0; auto; congruence.
Qed.

Lemma Inv_stopTraining x s : Inv s -> Inv (snd (stopTraining x s)).
Proof.
  intros HI. destruct (JSMap.get x (activeTraining s)) as [h|] eqn:Hx.
  2:{ now rewrite stopTraining_idle. }
  pose proof HI as HI'. open_inv HI'.
  destruct (Ha x h Hx) as (r & t & ty & bd & H1 & H2 & H3 & H4).
  assert (Hr : timerRef t = r) by (unfold timerRef; now rewrite H4).
  assert (Hi : isInterval t = true) by (unfold isInterval; now rewrite H4).
  destruct (valid_deref r s) as [p Hp]; [rewrite <- Hr; auto|].
  rewrite (stopTraining_active x s h r p Hx H1 Hp). simpl.
  apply (Inv_cancel s _ h r p (withStatus failed p)
           (trainingStopped x r (withStatus failed p)) HI Hp);
    try reflexivity.
  - discriminate.
  - intros _ Hc. apply (Hcd r t Hc H2 Hi Hr).
  - simpl. intros x' h' Hx'.
    destruct (string_dec x' x) as [->|Hne].
    + now rewrite JSMapFacts.get_delete_same in Hx'.
    + rewrite JSMapFacts.get_delete_other in Hx' by assumption.
      split; [assumption|]. intros ->.
      destruct (Ha x' h Hx') as (r' & t' & ty' & bd' & G1 & G2 & G3 & G4).
      assert (t' = t) as -> by (apply (handle_unique (timers s)); congruence).
      congruence.
  - simpl. now rewrite emitted_app.
Qed.

Lemma Inv_fire_timeout T r u s :
  Inv s -> In T (timers s) -> callback T = validationTimeout r ->
  Inv (fire T u s).
Proof.
  intros HI HT Hcb. pose proof HI as HI'. open_inv HI'.
  assert (Hr : timerRef T = r) by (unfold timerRef; now rewrite Hcb).
  assert (Hi : isInterval T = false) by (unfold isInterval; now rewrite Hcb).
  destruct (valid_deref r s) as [p Hp]; [rewrite <- Hr; auto|].
  unfold fire. rewrite (Hk T HT), Hi, Hcb.
  rewrite (onValidated_eq r _ p) by exact Hp.
  apply (Inv_cancel s _ (handle T) r p (withStatus training p)
           (trainingUpdate r (withStatus training p)) HI Hp);
    try reflexivity.
  - discriminate.
  - intros Hn Hc. apply (Hnt r p T Hp Hn (or_intror Hc) HT Hr).
  - simpl. intros x h' Hx. split; [assumption|]. intros ->.
    destruct (Ha x (handle T) Hx) as (r' & t' & ty' & bd' & G1 & G2 & G3 & G4).
    assert (t' = T) as -> by (apply (handle_unique (timers s)); congruence).
    congruence.
  - simpl. now rewrite emitted_app.
Qed.

Lemma Inv_setTimeout s r t1 :
  Inv s -> In t1 (timers s) -> isInterval t1 = true -> timerRef t1 = r ->
  (forall p, deref r s = Some p -> 1 <= totalBatches p ->
     now s + 5000
     < due t1 + (totalBatches p - currentBatch p) * delay t1) ->
  Inv (snd (setTimeout (validationTimeout r) 5000 s)).
Proof.
  intros HI H1 I1 R1 Hlate. open_inv HI.
  unfold setTimeout, arm.
  set (Tn := {| handle := nextHandle s; callback := validationTimeout r;
                due := now s + 5000; delay := 5000; repeat := false |}).
  assert (HrT : timerRef Tn = r) by reflexivity.
  assert (HiT : isInterval Tn = false) by reflexivity.
  assert (HhT : handle Tn = nextHandle s) by reflexivity.
  assert (HdT : due Tn = now s + 5000) by reflexivity.
  assert (HkT : repeat Tn = isInterval Tn) by reflexivity.
  clearbody Tn.
  constructor; unfold deref in *; simpl; try assumption.
  - intros t Ht. apply In_snoc in Ht as [Ht| ->]; [auto|].
    rewrite HrT, <- R1. auto.
  - rewrite map_app. simpl.
    apply NoDup_app; [assumption | repeat constructor; simpl; tauto|].
    intros h Hh [<-|[]]. apply in_map_iff in Hh as (t & E & Ht).
    specialize (Hhb t Ht). lia.
  - intros t Ht. apply In_snoc in Ht as [Ht| ->].
    + specialize (Hhb t Ht). lia.
    + lia.
  - intros t Ht. apply In_snoc in Ht as [Ht| ->]; auto.
  - intros x h Hx. destruct (Ha x h Hx) as (r2 & t & ty & bd & G1 & G2 & G3 & G4).
    exists r2, t, ty, bd. repeat split; auto. apply in_or_app. now left.
  - intros a b Ha' Hb' Ia Ib E.
    apply In_snoc in Ha' as [Ha'| ->]; [|congruence].
    apply In_snoc in Hb' as [Hb'| ->]; [|congruence]. auto.
  - intros t p Ht It Hp. apply In_snoc in Ht as [Ht| ->]; [eauto|congruence].
  - intros t T p Ht HT It IT E Hp Hn.
    apply In_snoc in Ht as [Ht| ->]; [|congruence].
    apply In_snoc in HT as [HT| ->]; [eauto|].
    rewrite HrT in E.
    assert (t = t1) as ->.
    { apply (handle_unique (timers s)); auto. apply Ho; auto. congruence. }
    rewrite R1 in Hp. rewrite HdT. auto.
  - intros r2 t Hr2 Ht It. apply In_snoc in Ht as [Ht| ->]; [eauto|congruence].
  - intros r2 t Hc Ht It. apply In_snoc in Ht as [Ht| ->]; [eauto|congruence].
  - intros r2 p T Hp Hn Hr2 HT. apply In_snoc in HT as [HT| ->]; [eauto|].
    rewrite HrT. intros <-.
    destruct Hr2 as [Hr2|Hr2]; [eapply Hsd | eapply Hcd]; eauto.
Qed.

Lemma Inv_suspend s x r :
  Inv s -> (r < List.length (heap s))%nat ->
  (forall t, In t (timers s) -> isInterval t = true -> timerRef t <> r) ->
  ~ completedIn r (emitted (trace s)) ->
  ~ In r (finalizeRefs (suspended s)) ->
  (forall p T, deref r s = Some p -> 1 <= totalBatches p ->
               In T (timers s) -> timerRef T <> r) ->
  Inv (suspend (afterFinalize x r) s).
Proof.
  intros HI Hv Hdone Hfresh Hnew Hquiet. open_inv HI.
  constructor; unfold suspend, deref in *; simpl;
    rewrite ?finalizeRefs_app; simpl; try assumption.
  - intros r2 Hr2. apply In_snoc in Hr2 as [Hr2| ->]; auto.
  - apply NoDup_app; [assumption | repeat constructor; simpl; tauto|].
    intros r2 Hr2 [<-|[]]. contradiction.
  - intros r2 t Hr2 Ht It. apply In_snoc in Hr2 as [Hr2| ->]; eauto.
  - intros r2 Hr2. apply In_snoc in Hr2 as [Hr2| ->]; auto.
  - intros r2 Hc Hr2. apply In_snoc in Hr2 as [Hr2| ->]; [|contradiction].
    now apply (Hcr r2).
  - intros r2 p T Hp Hn Hr2 HT.
    destruct Hr2 as [Hr2|Hr2]; [|eauto].
    apply In_snoc in Hr2 as [Hr2| ->]; eauto.
Qed.

(** When the interval of a job with at least one batch per epoch is the
    next timer to fire and the epoch has no batch left, no validation
    timeout of the job is pending. *)
Lemma boundary_no_timeout s t p T :
  Inv s -> In t (timers s) -> isInterval t = true ->
  (forall t', In t' (timers s) -> due t <= due t') ->
  deref (timerRef t) s = Some p -> 1 <= totalBatches p ->
  totalBatches p <= currentBatch p ->
  In T (timers s) -> isInterval T = false -> timerRef T <> timerRef t.
Proof.
  intros HI Ht It Hmin Hp Hn Hb HT IT E. open_inv HI.
  pose proof (Htm t T p Ht HT It IT E Hp Hn) as Hlt.
  pose proof (Hdl t p Ht It Hp) as Hd.
  pose proof (intervalDelay_pos (totalBatches p)).
  pose proof (Hmin T HT). nia.
Qed.

Lemma Inv_fire_interval t x r ty bd u s :
  Inv s -> In t (timers s) -> callback t = trainingInterval x r ty bd ->
  due t <= now s -> (forall t', In t' (timers s) -> due t <= due t') ->
  Inv (fire t u s).
Proof.
  intros HI Ht Hcb Hdue Hmin.
  assert (Hr : timerRef t = r) by (unfold timerRef; now rewrite Hcb).
  assert (Hi : isInterval t = true) by (unfold isInterval; now rewrite Hcb).
  pose proof (Inv_rearm t s HI Ht Hi Hdue) as HI1.
  pose proof HI as HI'. open_inv HI'.
  destruct (valid_deref r s) as [p Hp]; [rewrite <- Hr; auto|].
  unfold fire. rewrite (Hk t Ht), Hi, Hcb.
  assert (Hp1 : deref r (rearm t s) = Some p) by exact Hp.
  destruct (rearm_In t s t Ht) as (t1 & Ht1 & Hh1 & Hc1 & Hdl1 & Hd1).
  specialize (Hd1 eq_refl).
  assert (Hr1 : timerRef t1 = r) by (unfold timerRef; now rewrite Hc1, Hcb).
  assert (Hi1 : isInterval t1 = true)
    by (unfold isInterval; now rewrite Hc1, Hcb).
  assert (Hone : forall t', In t' (timers (rearm t s)) ->
            isInterval t' = true -> timerRef t' = r -> t' = t1).
  { intros t' Ht' It' Rt'.
    apply (handle_unique (timers (rearm t s))); auto.
    - now destruct HI1.
    - destruct HI1. apply inv_one_interval0; auto. congruence. }
  assert (Hold : forall T, In T (timers (rearm t s)) ->
            isInterval T = false -> In T (timers s)).
  { intros T HT IT.
    apply In_rearm in HT as (T0 & G0 & G1 & G2 & _ & _ & [[_ ->]|[G3 _]]);
      [assumption|].
    assert (T0 = t) as -> by (apply (handle_unique (timers s)); auto).
    unfold isInterval in IT. rewrite G2, Hcb in IT. discriminate. }
  assert (Hfresh : ~ completedIn r (emitted (trace (rearm t s)))).
  { intros Hc. destruct HI1. apply (inv_complete_done0 r t1 Hc Ht1 Hi1 Hr1). }
  assert (Hnew : ~ In r (finalizeRefs (suspended (rearm t s)))).
  { intros Hs. destruct HI1. apply (inv_susp_done0 r t1 Hs Ht1 Hi1 Hr1). }
  pose proof (intervalDelay_pos (totalBatches p)) as Hpos.
  pose proof (Hdl t p Ht Hi) as Hdelay. rewrite Hr in Hdelay.
  specialize (Hdelay Hp).
  destruct (Z.lt_ge_cases (currentBatch p) (totalBatches p)) as [Hb|Hb].
  { (* a batch *)
    rewrite (onInterval_batch _ x r ty bd u _ p Hp1 Hb).
    apply (Inv_update (rearm t s) _ r p (afterBatch p ty bd u)
             [trainingUpdate r (afterBatch p ty bd u)] HI1 Hp1);
      try reflexivity.
    - intros e [<-|[]]. split; [reflexivity | discriminate].
    - right. eexists. reflexivity.
    - auto.
    - auto.
    - now destruct HI1.
    - auto.
    - simpl. now rewrite emitted_app.
    - simpl. intros t' T Ht' HT It' IT RT Rt' Hn.
      rewrite (Hone t' Ht' It' Rt').
      apply Hold in HT; [|assumption].
      pose proof (Htm t T p Ht HT Hi IT) as Hlt.
      rewrite Hr in Hlt. specialize (Hlt RT Hp Hn).
      rewrite Hd1, Hdl1. nia. }
  destruct (Z.lt_ge_cases (epoch p + 1) (totalEpochs p)) as [He|He].
  { (* the end of an epoch that is not the last *)
    rewrite (onInterval_validate _ x r ty bd u _ p Hp1 Hb He).
    set (p' := afterEpoch validating (estimatedTimeRemaining p) p).
    assert (HI2 : Inv (perform (Emit (trainingUpdate r p'))
                         (assign r p' (rearm t s)))).
    { apply (Inv_update (rearm t s) _ r p p' [trainingUpdate r p'] HI1 Hp1);
        try reflexivity.
      - intros e [<-|[]]. split; [reflexivity | discriminate].
      - right. eexists. reflexivity.
      - auto.
      - auto.
      - now destruct HI1.
      - auto.
      - simpl. now rewrite emitted_app.
      - simpl. intros t' T Ht' HT It' IT RT Rt' Hn.
        rewrite (Hone t' Ht' It' Rt').
        apply Hold in HT; [|assumption].
        pose proof (Htm t T p Ht HT Hi IT) as Hlt.
        rewrite Hr in Hlt. specialize (Hlt RT Hp Hn).
        rewrite Hd1, Hdl1. nia. }
    apply (Inv_setTimeout _ r t1 HI2); auto.
    intros q Hq Hn. simpl.
    assert (q = p') as ->.
    { change (deref r (assign r p' (rearm t s)) = Some q) in Hq.
      rewrite deref_assign_same in Hq; [congruence|].
      now apply deref_valid in Hp1. }
    simpl in *. rewrite Hd1, Hdl1, Hdelay.
    pose proof (validation_shorter_than_epoch (totalBatches p) Hn). lia. }
  (* the end of the last epoch *)
  rewrite (onInterval_complete _ x r ty bd u _ p Hp1 Hb He).
  set (p' := afterEpoch completed 0 p).
  set (s2 := withActiveTraining
               (JSMap.delete x (activeTraining (clearInterval (handle t) (rearm t s))))
               (clearInterval (handle t) (rearm t s))).
  assert (HI2 : Inv (finalizeModel x p' u (assign r p' s2))).
  { apply (Inv_update (rearm t s) _ r p p' [] HI1 Hp1); try reflexivity.
    - intros e [].
    - now left.
    - congruence.
    - simpl. intros t' Ht'. now apply In_cleared in Ht'.
    - simpl. apply NoDup_map_filter. now destruct HI1.
    - simpl. intros x' h' Hx'.
      destruct (string_dec x' x) as [->|Hne].
      + now rewrite JSMapFacts.get_delete_same in Hx'.
      + rewrite JSMapFacts.get_delete_other in Hx' by assumption.
        split; [assumption|]. intros t' Ht' Hh'.
        apply In_cleared. split; [assumption|]. intros Eh.
        destruct HI1.
        destruct (inv_active0 x' h' Hx')
          as (r' & t'' & ty' & bd' & G1 & G2 & G3 & G4).
        assert (t'' = t1) as ->
          by (apply (handle_unique (timers (rearm t s))); auto; congruence).
        congruence.
    - simpl. rewrite emitted_app. simpl. now rewrite app_nil_r.
    - simpl. intros t' T Ht' HT It' IT RT Rt' Hn.
      apply In_cleared in Ht' as [Ht' Hne].
      rewrite (Hone t' Ht' It' Rt') in Hne. congruence. }
  apply Inv_suspend; auto.
  - simpl. rewrite store_length. now apply deref_valid in Hp.
  - simpl. intros t' Ht' It' Rt'. apply In_cleared in Ht' as [Ht' Hne].
    rewrite (Hone t' Ht' It' Rt') in Hne. congruence.
  - simpl. rewrite emitted_app. simpl. now rewrite app_nil_r.
  - intros q T Hq Hn HT RT. simpl in HT.
    apply In_cleared in HT as [HT Hne].
    assert (q = p') as ->.
    { unfold finalizeModel in Hq.
      change (deref r (assign r p' s2) = Some q) in Hq.
      rewrite deref_assign_same in Hq; [congruence|].
      simpl. now apply deref_valid in Hp. }
    simpl in Hn.
    destruct (isInterval T) eqn:IT.
    + rewrite (Hone T HT IT RT) in Hne. congruence.
    + apply Hold in HT; [|assumption].
      apply (boundary_no_timeout s t p T HI Ht Hi Hmin); auto; congruence.
Qed.

Lemma step_Inv s s' : Inv s -> step s s' -> Inv s'.
Proof.
  intros HI Hstep. destruct Hstep as
    [s t Ht | s t u Hin Hdue Hmin Hu | s cfg | s pre post cfg id Hs
    | s pre post x r Hs | s pre post k Hs | s x].
  - now apply Inv_withNow.
  - destruct (callback t) as [x r ty bd|r] eqn:Hcb.
    + now apply (Inv_fire_interval t x r ty bd).
    + now apply (Inv_fire_timeout t r).
  - now apply Inv_startTraining.
  - apply Inv_onCreated. now apply (Inv_drop pre (afterCreate cfg) post s).
  - now apply Inv_onFinalized.
  - now apply (Inv_drop pre k post s).
  - now apply Inv_stopTraining.
Qed.

Lemma reachable_Inv s : reachable s -> Inv s.
Proof.
  induction 1 as [|s s' _ IH Hstep]; [exact Inv_init|].
  exact (step_Inv s s' IH Hstep).
Qed.

(** *** Positions never go back *)

Lemma lex_le_refl a : lex_le a a.
Proof. unfold lex_le. lia. Qed.

Lemma lex_le_trans a b c : lex_le a b -> lex_le b c -> lex_le a c.
Proof. unfold lex_le. lia. Qed.

Lemma ordered_snoc (A : Type) (le : A -> A -> Prop) l x :
  ordered le l -> (forall y, In y l -> le y x) -> ordered le (l ++ [x]).
Proof.
  induction l as [|a l IH]; simpl.
  - intros _ _. split; [intros y [] | exact I].
  - intros [Ha Hl] Hx. split.
    + intros y Hy. apply In_snoc in Hy as [Hy| ->]; auto.
    + apply IH; auto.
Qed.

Lemma store_id (h : list TrainingProgress) r p :
  nth_error h r = Some p -> store r p h = h.
Proof.
  revert r. induction h as [|a h IH]; intros [|r]; simpl; try discriminate.
  - now intros [= ->].
  - intros H. now rewrite IH.
Qed.

(** Every event carries a position its object has reached, the positions
    of the events of one object never go back, and an object is listed
    under the id it carries. *)
Record Ord (s : Service) : Prop := {
  ord_bound :
    forall e, In e (emitted (trace s)) ->
      exists p, deref (eventRef e) s = Some p
                /\ lex_le (position (eventSnapshot e)) (position p);
  ord_sorted :
    forall r, ordered lex_le
                (map (fun e => position (eventSnapshot e))
                   (eventsOf r (trace s)));
  ord_named :
    forall x r p, JSMap.get x (trainingProgress s) = Some r ->
      deref r s = Some p -> modelId p = x;
  ord_valid :
    forall x r, JSMap.get x (trainingProgress s) = Some r ->
      (r < List.length (heap s))%nat
}.

Lemma Ord_same s s' :
  Ord s -> heap s' = heap s -> emitted (trace s') = emitted (trace s) ->
  trainingProgress s' = trainingProgress s -> Ord s'.
Proof.
  intros [H1 H2 H3 H4] Eh Ee Ep.
  constructor; unfold eventsOf, deref in *; rewrite ?Eh, ?Ee, ?Ep; assumption.
Qed.

Lemma Ord_update s s' r p p' evs :
  Ord s -> deref r s = Some p ->
  lex_le (position p) (position p') -> modelId p' = modelId p ->
  heap s' = store r p' (heap s) ->
  trainingProgress s' = trainingProgress s ->
  emitted (trace s') = emitted (trace s) ++ evs ->
  (evs = [] \/ exists e, evs = [e] /\ eventRef e = r /\ eventSnapshot e = p') ->
  Ord s'.
Proof.
  intros [H1 H2 H3 H4] Hp Hle Hid Eh Ep Ee Hevs.
  assert (Hv : (r < List.length (heap s))%nat) by now apply deref_valid in Hp.
  assert (Hnew : forall r2 q, deref r2 s = Some q ->
            exists q', nth_error (store r p' (heap s)) r2 = Some q'
                       /\ lex_le (position q) (position q')).
  { intros r2 q Hq. destruct (Nat.eq_dec r r2) as [<-|Hne].
    - rewrite store_same by assumption. exists p'. split; [reflexivity|].
      unfold deref in *. congruence.
    - rewrite store_other by assumption. exists q. split; [exact Hq|].
      apply lex_le_refl. }
  constructor; unfold eventsOf, deref in *; rewrite ?Eh, ?Ee, ?Ep.
  - intros e He. apply in_app_or in He as [He|He].
    + destruct (H1 e He) as (q & Hq & Hq').
      destruct (Hnew _ q Hq) as (q' & G1 & G2).
      exists q'. split; [assumption | eauto using lex_le_trans].
    + destruct Hevs as [->|(e0 & -> & Er & Es)]; [contradiction|].
      destruct He as [<-|[]]. exists p'. rewrite Er, Es.
      split; [now apply store_same | apply lex_le_refl].
  - intros r2. destruct Hevs as [->|(e0 & -> & Er & Es)].
    + rewrite app_nil_r. apply H2.
    + rewrite filter_app, map_app. simpl.
      destruct (Nat.eqb_spec (eventRef e0) r2) as [E|E]; simpl;
        [|rewrite app_nil_r; apply H2].
      apply ordered_snoc; [apply H2|].
      intros y Hy. apply in_map_iff in Hy as (e & <- & He).
      apply filter_In in He as [He Hr2]. apply Nat.eqb_eq in Hr2.
      destruct (H1 e He) as (q & Hq & Hq').
      rewrite Es. apply (lex_le_trans _ (position q)); [assumption|].
      assert (q = p) as -> by congruence. assumption.
  - intros x r2 q Hx Hq.
    destruct (Nat.eq_dec r r2) as [<-|Hne].
    + rewrite store_same in Hq by assumption. injection Hq as <-.
      rewrite Hid. eauto.
    + rewrite store_other in Hq by assumption. eauto.
  - rewrite store_length. assumption.
Qed.

Lemma Ord_init : Ord init.
Proof.
  constructor; simpl; try tauto.
  - intros x r p H. discriminate.
  - intros x r H. discriminate.
Qed.

Lemma Ord_onInterval h x r ty bd u s :
  Ord s -> Ord (onInterval h x r ty bd u s).
Proof.
  intros HO. destruct (deref r s) as [p|] eqn:Hp.
  2:{ unfold onInterval. now rewrite Hp. }
  destruct (Z.lt_ge_cases (currentBatch p) (totalBatches p)) as [Hb|Hb].
  { rewrite (onInterval_batch h x r ty bd u s p Hp Hb).
    apply (Ord_update s _ r p (afterBatch p ty bd u)
             [trainingUpdate r (afterBatch p ty bd u)] HO Hp);
      try reflexivity.
    - unfold lex_le, position. simpl. lia.
    - simpl. now rewrite emitted_app.
    - right. eexists. repeat split. }
  destruct (Z.lt_ge_cases (epoch p + 1) (totalEpochs p)) as [He|He].
  { rewrite (onInterval_validate h x r ty bd u s p Hp Hb He).
    set (p' := afterEpoch validating (estimatedTimeRemaining p) p).
    apply (Ord_update s _ r p p' [trainingUpdate r p'] HO Hp);
      try reflexivity.
    - unfold lex_le, position. simpl. lia.
    - simpl. now rewrite emitted_app.
    - right. eexists. repeat split. }
  rewrite (onInterval_complete h x r ty bd u s p Hp Hb He).
  apply (Ord_update s _ r p (afterEpoch completed 0 p) [] HO Hp);
    try reflexivity.
  - unfold lex_le, position. simpl. lia.
  - simpl. rewrite emitted_app. simpl. now rewrite app_nil_r.
  - now left.
Qed.

Lemma Ord_onValidated r s : Ord s -> Ord (onValidated r s).
Proof.
  intros HO. unfold onValidated. destruct (deref r s) as [p|] eqn:Hp;
    [|assumption].
  apply (Ord_update s _ r p (withStatus training p)
           [trainingUpdate r (withStatus training p)] HO Hp);
    try reflexivity.
  - apply lex_le_refl.
  - simpl. now rewrite emitted_app.
  - right. eexists. repeat split.
Qed.

Lemma Ord_onFinalized x r s : Ord s -> Ord (onFinalized x r s).
Proof.
  intros HO. unfold onFinalized. destruct (deref r s) as [p|] eqn:Hp;
    [|assumption].
  apply (Ord_update s _ r p p [trainingComplete x r p] HO Hp);
    try reflexivity.
  - apply lex_le_refl.
  - simpl. symmetry. now apply store_id.
  - simpl. now rewrite emitted_app.
  - right. eexists. repeat split.
Qed.

Lemma Ord_stopTraining x s : Ord s -> Ord (snd (stopTraining x s)).
Proof.
  intros HO. unfold stopTraining.
  destruct (JSMap.get x (activeTraining s)) as [h|]; [|assumption]. simpl.
  assert (HO1 : Ord (withActiveTraining
                       (JSMap.delete x (activeTraining s)) (clearInterval h s)))
    by (apply (Ord_same s); auto).
  destruct (JSMap.get x (trainingProgress s)) as [r|]; [|assumption].
  destruct (deref r _) as [p|] eqn:Hp; [|assumption]. simpl.
  apply (Ord_update _ _ r p (withStatus failed p)
           [trainingStopped x r (withStatus failed p)] HO1 Hp);
    try reflexivity.
  - apply lex_le_refl.
  - simpl. now rewrite emitted_app.
  - right. eexists. repeat split.
Qed.

Lemma Ord_onCreated modelConfig id s :
  Ord s -> Ord (snd (onCreated modelConfig id s)).
Proof.
  intros [H1 H2 H3 H4]. rewrite onCreated_eq.
  set (p0 := withStatus training (seed modelConfig id)).
  assert (Hold : forall r q, nth_error (heap s) r = Some q ->
                             nth_error (heap s ++ [p0]) r = Some q).
  { intros r q Hq. rewrite nth_error_app1; [assumption|].
    apply nth_error_Some. congruence. }
  assert (Hnone : forall e, In e (emitted (trace s)) ->
                            eventRef e <> List.length (heap s)).
  { intros e He E. destruct (H1 e He) as (q & Hq & _).
    apply deref_valid in Hq. lia. }
  constructor; unfold eventsOf, deref in *; simpl;
    rewrite ?emitted_app; simpl.
  - intros e He. apply In_snoc in He as [He| ->].
    + destruct (H1 e He) as (q & Hq & Hle). exists q. auto.
    + simpl. exists p0. split; [apply nth_error_last | apply lex_le_refl].
  - intros r. rewrite filter_app, map_app. simpl.
    destruct (Nat.eqb_spec (List.length (heap s)) r) as [E|E]; simpl;
      [|rewrite app_nil_r; apply H2].
    apply ordered_snoc; [apply H2|].
    intros y Hy. apply in_map_iff in Hy as (e & <- & He).
    apply filter_In in He as [He Hr]. apply Nat.eqb_eq in Hr.
    exfalso. apply (Hnone e He). congruence.
  - intros x r p Hx Hp. destruct (string_dec x id) as [->|Hne].
    + rewrite JSMapFacts.get_set_same in Hx. injection Hx as <-.
      rewrite nth_error_last in Hp. injection Hp as <-. reflexivity.
    + rewrite JSMapFacts.get_set_other in Hx by assumption.
      rewrite nth_error_app1 in Hp by eauto. eauto.
  - intros x r Hx. rewrite length_app. simpl.
    destruct (string_dec x id) as [->|Hne].
    + rewrite JSMapFacts.get_set_same in Hx. injection Hx as <-. lia.
    + rewrite JSMapFacts.get_set_other in Hx by assumption.
      specialize (H4 x r Hx). lia.
Qed.

Lemma step_Ord s s' : Ord s -> step s s' -> Ord s'.
Proof.
  intros HO Hstep. destruct Hstep as
    [s t Ht | s t u Hin Hdue Hmin Hu | s cfg | s pre post cfg id Hs
    | s pre post x r Hs | s pre post k Hs | s x].
  - now apply (Ord_same s).
  - unfold fire.
    assert (HO1 : Ord (if repeat t then rearm t s
                       else clearInterval (handle t) s))
      by (destruct (repeat t); now apply (Ord_same s)).
    destruct (callback t) as [x r ty bd|r].
    + now apply Ord_onInterval.
    + now apply Ord_onValidated.
  - apply (Ord_same s); auto. unfold startTraining. simpl.
    rewrite emitted_app. simpl. now rewrite app_nil_r.
  - apply Ord_onCreated. now apply (Ord_same s).
  - apply Ord_onFinalized. now apply (Ord_same s).
  - now apply (Ord_same s).
  - now apply Ord_stopTraining.
Qed.

Lemma reachable_Ord s : reachable s -> Ord s.
Proof.
  induction 1 as [|s s' _ IH Hstep]; [exact Ord_init|].
  exact (step_Ord s s' IH Hstep).
Qed.

Lemma filter_split (A : Type) (f : A -> bool) l pre c post :
  filter f l = pre ++ c :: post ->
  exists l1 l2, l = l1 ++ c :: l2 /\ filter f l2 = post.
Proof.
  revert pre. induction l as [|a l IH]; intros pre; simpl.
  - destruct pre; discriminate.
  - destruct (f a) eqn:Fa.
    + destruct pre as [|b pre]; simpl.
      * intros [= -> E]. exists [], l. auto.
      * intros [= -> E]. destruct (IH pre E) as (l1 & l2 & -> & G).
        exists (b :: l1), l2. auto.
    + intros E. destruct (IH pre E) as (l1 & l2 & -> & G).
      exists (a :: l1), l2. auto.
Qed.

(** *** A run that is stopped during a validation phase *)

Definition twoEpochs : ModelConfig.t :=
  {| ModelConfig.name := "Test"; ModelConfig.type := "CNN";
     ModelConfig.architecture := "resnet"; ModelConfig.epochs := 2;
     ModelConfig.batchSize := 10; ModelConfig.learningRate := 0.01%R;
     ModelConfig.datasetSize := 10 |}.

Definition created2 : Service :=
  snd (onCreated twoEpochs "m1" (withSuspended [] (startTraining twoEpochs init))).

(** The interval fires at 2 min (the batch of the first epoch) and at
    4 min (the end of the first epoch: the job validates). *)
Definition batch2 : Service := fire firstTimer zeroDraws (withNow 120000 created2).

Definition secondTimer : Timer :=
  {| handle := O;
     callback := trainingInterval "m1" O "CNN" (120000 / IZR 1);
     due := 240000; delay := 120000; repeat := true |}.

Definition validating2 : Service :=
  fire secondTimer zeroDraws (withNow 240000 batch2).

(** The job is stopped at once; the timeout of the validation phase is
    still pending, and fires at 4 min 5 s. *)
Definition stopped2 : Service := snd (stopTraining "m1" validating2).

Definition validationTimer : Timer :=
  {| handle := 1%nat; callback := validationTimeout O;
     due := 245000; delay := 5000; repeat := false |}.

Definition revived2 : Service :=
  fire validationTimer zeroDraws (withNow 245000 stopped2).

Lemma reachable_validating2 : reachable validating2.
Proof.
  apply (reachable_step (withNow 240000 batch2)).
  - apply (reachable_step batch2); [|apply step_time; apply Z.leb_le; reflexivity].
    apply (reachable_step (withNow 120000 created2)).
    + apply (reachable_step created2);
        [|apply step_time; apply Z.leb_le; reflexivity].
      apply (reachable_step (startTraining twoEpochs init)).
      * apply (reachable_step init); constructor.
      * apply (step_created _ [] [] twoEpochs "m1"). reflexivity.
    + apply step_fire.
      * left. reflexivity.
      * apply Z.leb_le. reflexivity.
      * intros t' [<-|[]]. apply Z.le_refl.
      * exact zeroDraws_ok.
  - apply step_fire.
    + left. reflexivity.
    + apply Z.leb_le. reflexivity.
    + intros t' [<-|[]]. apply Z.le_refl.
    + exact zeroDraws_ok.
Defined.

Lemma reachable_revived2 : reachable revived2.
Proof.
  apply (reachable_step (withNow 245000 stopped2)).
  - apply (reachable_step stopped2);
      [|apply step_time; apply Z.leb_le; reflexivity].
    apply (reachable_step validating2); [exact reachable_validating2|].
    apply step_stopTraining.
  - apply step_fire.
    + left. reflexivity.
    + apply Z.leb_le. reflexivity.
    + intros t' [<-|[]]. apply Z.le_refl.
    + exact zeroDraws_ok.
Defined.

(** *** Scenario A, to its completion *)

(** At 4 min the interval fires again: the only epoch is over, the final
    metrics go to the storage layer; then the update is stored and the
    completion is announced. *)
Definition completing : Service :=
  fire secondTimer zeroDraws (withNow 240000 ticked).

Definition completedA : Service :=
  onFinalized "m1" O (withSuspended [] completing).

Lemma reachable_completing : reachable completing.
Proof.
  apply (reachable_step (withNow 240000 ticked)).
  - apply (reachable_step ticked); [exact reachable_ticked|].
    apply step_time. apply Z.leb_le. reflexivity.
  - apply step_fire.
    + left. reflexivity.
    + apply Z.leb_le. reflexivity.
    + intros t' [<-|[]]. apply Z.le_refl.
    + exact zeroDraws_ok.
Defined.

Lemma reachable_completedA : reachable completedA.
Proof.
  apply (reachable_step completing); [exact reachable_completing|].
  apply (step_finalized completing [] [] "m1" O). reflexivity.
Defined.

(** *** The order of the events of a job *)

Lemma filter_none (A : Type) (f : A -> bool) l :
  (forall a, In a l -> f a = false) -> filter f l = [].
Proof.
  induction l as [|a l IH]; simpl; [reflexivity|].
  intros H. rewrite (H a (or_introl eq_refl)). apply IH. auto.
Qed.

(** C2, as the specification states it, fails twice in the run
    [revived2] of a job of two epochs of one batch, stopped during its
    first validation phase.  The positions of its events are not strictly
    increasing: the event that opens the validation phase and the events
    after it carry the position (1, 0).  And the event of the stop, with
    status failed, is not the last: the timeout of the validation phase,
    which the stop does not cancel, fires later, puts the status back to
    training and emits an update. *)
Lemma stopped_job_emits_again :
  reachable revived2
  /\ map (fun e => position (eventSnapshot e)) (eventsOf O (trace revived2))
     = [(0, 0); (0, 1); (1, 0); (1, 0); (1, 0)]
  /\ map (fun e => status (eventSnapshot e)) (eventsOf O (trace revived2))
     = [training; training; validating; failed; training]
  /\ ~ ordered lex_lt
         (map (fun e => position (eventSnapshot e))
            (eventsOf O (trace revived2))).
Proof.
  split; [exact reachable_revived2|].
  assert (E : map (fun e => position (eventSnapshot e))
                (eventsOf O (trace revived2))
              = [(0, 0); (0, 1); (1, 0); (1, 0); (1, 0)]) by reflexivity.
  split; [exact E|]. split; [reflexivity|].
  rewrite E. simpl. unfold lex_lt. simpl.
  intros (_ & _ & H & _).
  specialize (H (1, 0) (or_introl eq_refl)). simpl in H. lia.
Qed.

(** C2, amended: in every run, the (epoch, batch) pairs of the events
    emitted for one job never decrease in the lexicographic order (an
    event may repeat the pair of the one before); and for a job with at
    least one batch per epoch, the completion event, once emitted, is the
    last event emitted for the job. *)
Theorem events_never_go_back s r :
  reachable s ->
  ordered lex_le
    (map (fun e => position (eventSnapshot e)) (eventsOf r (trace s)))
  /\ (forall p, deref r s = Some p -> 1 <= totalBatches p ->
      forall pre x q post,
        eventsOf r (trace s) = pre ++ trainingComplete x r q :: post ->
        post = []).
Proof.
  intros Hreach. split.
  - apply (ord_sorted s (reachable_Ord s Hreach)).
  - intros p Hp Hn pre x q post E.
    pose proof (inv_complete_last s (reachable_Inv s Hreach) r p Hp Hn) as Hl.
    unfold eventsOf in E.
    destruct (filter_split _ _ _ _ _ _ E) as (l1 & l2 & El & <-).
    apply filter_none. intros e He.
    apply Nat.eqb_neq. exact (Hl l1 x q l2 El e He).
Qed.

Lemma events_never_go_back_example :
  ordered lex_le
    (map (fun e => position (eventSnapshot e)) (eventsOf O (trace completedA)))
  /\ (forall p, deref O completedA = Some p -> 1 <= totalBatches p ->
      forall pre x q post,
        eventsOf O (trace completedA) = pre ++ trainingComplete x O q :: post ->
        post = []).
Proof.
  exact (events_never_go_back completedA O reachable_completedA).
Defined.

(** *** Stopping a job *)

(** In a run, a registered timer is the pending interval of the job
    listed under the id, and stopping it takes the third branch of
    [stopTraining]. *)
Lemma stopTraining_running s x h :
  Inv s -> JSMap.get x (activeTraining s) = Some h ->
  exists r p t ty bd,
    JSMap.get x (trainingProgress s) = Some r /\ deref r s = Some p
    /\ In t (timers s) /\ handle t = h
    /\ callback t = trainingInterval x r ty bd
    /\ stopTraining x s
       = (true,
          perform (Emit (trainingStopped x r (withStatus failed p)))
            (assign r (withStatus failed p)
               (withActiveTraining (JSMap.delete x (activeTraining s))
                  (clearInterval h s)))).
Proof.
  intros HI Hx. open_inv HI.
  destruct (Ha x h Hx) as (r & t & ty & bd & H1 & H2 & H3 & H4).
  assert (Hr : timerRef t = r) by (unfold timerRef; now rewrite H4).
  destruct (valid_deref r s) as [p Hp]; [rewrite <- Hr; auto|].
  exists r, p, t, ty, bd. repeat split; try assumption.
  now apply stopTraining_active.
Qed.

(** C5: in every run, [stopTraining(id)] returns true exactly when a
    timer is registered for the id, and otherwise returns false and
    changes nothing.  When it returns true that timer is pending; the
    call cancels it and forgets it, sets the status of the job to failed
    and leaves the other fields of the job as they are, and emits the
    ['trainingStopped'] event with the id and the job, and nothing else.
    A second call returns false and changes nothing. *)
Theorem stopTraining_contract s x :
  reachable s ->
  (fst (stopTraining x s) = true <-> JSMap.has x (activeTraining s) = true)
  /\ (JSMap.has x (activeTraining s) = false -> stopTraining x s = (false, s))
  /\ (forall h, JSMap.get x (activeTraining s) = Some h ->
        exists r p p',
          JSMap.get x (trainingProgress s) = Some r /\ deref r s = Some p
          /\ (exists t, In t (timers s) /\ handle t = h)
          /\ (forall t, In t (timers (snd (stopTraining x s))) -> handle t <> h)
          /\ (forall t, In t (timers s) -> handle t <> h ->
                        In t (timers (snd (stopTraining x s))))
          /\ JSMap.get x (activeTraining (snd (stopTraining x s))) = None
          /\ getTrainingProgress x (snd (stopTraining x s)) = Some p'
          /\ deref r (snd (stopTraining x s)) = Some p'
          /\ status p' = failed
          /\ p' = {| modelId := modelId p; epoch := epoch p;
                     totalEpochs := totalEpochs p; loss := loss p;
                     accuracy := accuracy p;
                     validationLoss := validationLoss p;
                     validationAccuracy := validationAccuracy p;
                     learningRate := learningRate p;
                     estimatedTimeRemaining := estimatedTimeRemaining p;
                     status := failed;
                     currentBatch := currentBatch p;
                     totalBatches := totalBatches p |}
          /\ trace (snd (stopTraining x s))
             = trace s ++ [Emit (trainingStopped x r p')])
  /\ stopTraining x (snd (stopTraining x s))
     = (false, snd (stopTraining x s)).
Proof.
  intros Hreach. pose proof (reachable_Inv s Hreach) as HI.
  unfold JSMap.has.
  destruct (JSMap.get x (activeTraining s)) as [h|] eqn:Hx.
  - destruct (stopTraining_running s x h HI Hx)
      as (r & p & t & ty & bd & H1 & Hp & H2 & H3 & H4 & E).
    rewrite E. simpl.
    split; [tauto|]. split; [discriminate|]. split.
    + intros h' [= <-]. exists r, p, (withStatus failed p).
      assert (Hd : deref r
                     (perform (Emit (trainingStopped x r (withStatus failed p)))
                        (assign r (withStatus failed p)
                           (withActiveTraining
                              (JSMap.delete x (activeTraining s))
                              (clearInterval h s))))
                   = Some (withStatus failed p)).
      { apply deref_assign_same. simpl. now apply deref_valid in Hp. }
      split; [assumption|]. split; [assumption|].
      split; [now exists t|]. split.
      { intros t' Ht'. now apply In_cleared in Ht'. }
      split.
      { intros t' Ht' Hne. apply In_cleared. now split. }
      split; [apply JSMapFacts.get_delete_same|].
      split.
      { unfold getTrainingProgress. simpl. rewrite H1. exact Hd. }
      split; [exact Hd|].
      repeat split.
    + apply stopTraining_idle. simpl. apply JSMapFacts.get_delete_same.
  - rewrite (stopTraining_idle x s Hx). simpl.
    split; [split; discriminate|]. split; [reflexivity|].
    split; [discriminate|].
    now apply stopTraining_idle.
Qed.

Lemma stopTraining_contract_example :
  (fst (stopTraining "m1" ticked) = true
   <-> JSMap.has "m1" (activeTraining ticked) = true)
  /\ (JSMap.has "m1" (activeTraining ticked) = false ->
      stopTraining "m1" ticked = (false, ticked))
  /\ (forall h, JSMap.get "m1" (activeTraining ticked) = Some h ->
        exists r p p',
          JSMap.get "m1" (trainingProgress ticked) = Some r
          /\ deref r ticked = Some p
          /\ (exists t, In t (timers ticked) /\ handle t = h)
          /\ (forall t, In t (timers (snd (stopTraining "m1" ticked))) ->
                        handle t <> h)
          /\ (forall t, In t (timers ticked) -> handle t <> h ->
                        In t (timers (snd (stopTraining "m1" ticked))))
          /\ JSMap.get "m1" (activeTraining (snd (stopTraining "m1" ticked)))
             = None
          /\ getTrainingProgress "m1" (snd (stopTraining "m1" ticked))
             = Some p'
          /\ deref r (snd (stopTraining "m1" ticked)) = Some p'
          /\ status p' = failed
          /\ p' = {| modelId := modelId p; epoch := epoch p;
                     totalEpochs := totalEpochs p; loss := loss p;
                     accuracy := accuracy p;
                     validationLoss := validationLoss p;
                     validationAccuracy := validationAccuracy p;
                     learningRate := learningRate p;
                     estimatedTimeRemaining := estimatedTimeRemaining p;
                     status := failed;
                     currentBatch := currentBatch p;
                     totalBatches := totalBatches p |}
          /\ trace (snd (stopTraining "m1" ticked))
             = trace ticked ++ [Emit (trainingStopped "m1" r p')])
  /\ stopTraining "m1" (snd (stopTraining "m1" ticked))
     = (false, snd (stopTraining "m1" ticked)).
Proof.
  exact (stopTraining_contract ticked "m1" reachable_ticked).
Defined.

(** *** The listing of the active jobs *)

Lemma getAllActiveTraining_In s x r p :
  JSMap.get x (trainingProgress s) = Some r -> deref r s = Some p ->
  notCompleted p = true -> In p (getAllActiveTraining s).
Proof.
  intros Hx Hp Hn. unfold getAllActiveTraining.
  apply filter_In. split; [|assumption].
  apply in_flat_map. exists r. split.
  - apply JSMapFacts.get_In in Hx. unfold JSMap.values.
    change r with (snd (x, r)). now apply in_map.
  - rewrite Hp. now left.
Qed.

(** C3, what the code does instead: in every run, a job that
    [stopTraining] has stopped has the status failed and is still listed
    by [getAllActiveTraining], under its id. *)
Theorem stopped_job_stays_listed s x :
  reachable s -> fst (stopTraining x s) = true ->
  exists p,
    In p (getAllActiveTraining (snd (stopTraining x s)))
    /\ modelId p = x /\ status p = failed.
Proof.
  intros Hreach Htrue.
  destruct (JSMap.get x (activeTraining s)) as [h|] eqn:Hx.
  2:{ rewrite (stopTraining_idle x s Hx) in Htrue. discriminate. }
  destruct (stopTraining_running s x h (reachable_Inv s Hreach) Hx)
    as (r & p & t & ty & bd & G1 & G2 & _ & _ & _ & E).
  rewrite E. simpl.
  exists (withStatus failed p). split; [|split; [|reflexivity]].
  - apply (getAllActiveTraining_In _ x r); [exact G1 | | reflexivity].
    apply deref_assign_same. simpl. now apply deref_valid in G2.
  - simpl. apply (ord_named s (reachable_Ord s Hreach) x r p G1 G2).
Qed.

Lemma stopped_job_stays_listed_example :
  exists p,
    In p (getAllActiveTraining (snd (stopTraining "m1" ticked)))
    /\ modelId p = "m1" /\ status p = failed.
Proof.
  apply (stopped_job_stays_listed ticked "m1" reachable_ticked). reflexivity.
Defined.

(** After its completion, on the other hand, the job of scenario A is
    not listed any more. *)
Lemma completed_job_not_listed : getAllActiveTraining completedA = [].
Proof. reflexivity. Qed.

End TrainingFacts.

(** ** The registry under the handlers of the WebSocket service *)

Module RegistryFacts.
Import WebSocketService WebSocketFacts.

(** *** [sendToClient] *)

(** [sendToClient] returns true exactly when the connection is
    registered, its transport open, and the send does not throw; the one
    thing it then does is to send that connection the message, completed
    with the defaults.  When it returns false nothing is sent. *)
Theorem sendToClient_outcome clientId message nowIso clients :
  let fullMessage :=
    {| type := orString (type_opt message) "unknown";
       data := orData (data_opt message);
       timestamp := orString (timestamp_opt message) nowIso |} in
  (fst (sendToClient clientId message nowIso clients) = true
   <-> exists client,
         JSMap.get clientId clients = Some client
         /\ isOpen (readyState (ws client)) = true
         /\ sendSucceeds client fullMessage = true)
  /\ (fst (sendToClient clientId message nowIso clients) = true ->
      exists client,
        JSMap.get clientId clients = Some client
        /\ snd (sendToClient clientId message nowIso clients)
           = [Send (id client) fullMessage])
  /\ (fst (sendToClient clientId message nowIso clients) = false ->
      deliveredTo (snd (sendToClient clientId message nowIso clients)) = []).
Proof.
  intros fullMessage. unfold sendToClient. fold fullMessage.
  destruct (JSMap.get clientId clients) as [client|] eqn:Hc; simpl.
  2:{ repeat split; try discriminate; auto. intros (c & H & _). discriminate. }
  unfold sendSucceeds.
  destruct (isOpen (readyState (ws client))) eqn:Ho; simpl.
  2:{ repeat split; try discriminate; auto.
      intros (c & [= <-] & H & _). congruence. }
  destruct (send client fullMessage) as [e|] eqn:Hs; simpl.
  - pose proof (send_Normal _ _ _ Hs) as ->. repeat split; try discriminate.
    + intros _. exists client. now rewrite Hs.
    + intros _. now exists client.
  - repeat split; try discriminate; auto.
    intros (c & [= <-] & _ & H). rewrite Hs in H. discriminate.
Qed.

(** *** Subscriptions *)

Definition subscribeAll (channels : list string) (s : JSSet.t) : JSSet.t :=
  fold_left (fun s c => JSSet.add c s) channels s.

Definition unsubscribeAll (channels : list string) (s : JSSet.t) : JSSet.t :=
  fold_left (fun s c => JSSet.delete c s) channels s.

Lemma In_add x c s : In x (JSSet.add c s) <-> In x s \/ x = c.
Proof.
  unfold JSSet.add. destruct (JSSet.has c s) eqn:E.
  - apply JSSetFacts.has_In in E. split; [tauto | intros [H| ->]; assumption].
  - rewrite in_app_iff. simpl. intuition congruence.
Qed.

Lemma NoDup_add c s : NoDup s -> NoDup (JSSet.add c s).
Proof.
  intros H. unfold JSSet.add. destruct (JSSet.has c s) eqn:E; [assumption|].
  apply NoDup_app; [assumption | repeat constructor; simpl; tauto|].
  intros x Hx [<-|[]]. apply JSSetFacts.has_In in Hx. congruence.
Qed.

Lemma In_subscribeAll x cs s :
  In x (subscribeAll cs s) <-> In x s \/ In x cs.
Proof.
  unfold subscribeAll. revert s. induction cs as [|c cs IH]; intros s; simpl.
  - tauto.
  - rewrite IH, In_add. intuition congruence.
Qed.

Lemma NoDup_subscribeAll cs s : NoDup s -> NoDup (subscribeAll cs s).
Proof.
  unfold subscribeAll. revert s. induction cs as [|c cs IH]; intros s; simpl;
    auto using NoDup_add.
Qed.

Lemma subscribeAll_known cs s :
  (forall c, In c cs -> In c s) -> subscribeAll cs s = s.
Proof.
  unfold subscribeAll. induction cs as [|c cs IH]; simpl; [reflexivity|].
  intros H. unfold JSSet.add at 2.
  assert (E : JSSet.has c s = true) by (apply JSSetFacts.has_In; auto).
  rewrite E. auto.
Qed.

Lemma In_set_delete x c s : In x (JSSet.delete c s) <-> In x s /\ x <> c.
Proof.
  unfold JSSet.delete. rewrite filter_In, negb_true_iff, String.eqb_neq.
  tauto.
Qed.

Lemma In_unsubscribeAll x cs s :
  In x (unsubscribeAll cs s) <-> In x s /\ ~ In x cs.
Proof.
  unfold unsubscribeAll. revert s. induction cs as [|c cs IH]; intros s; simpl.
  - tauto.
  - rewrite IH, In_set_delete. intuition congruence.
Qed.

Lemma NoDup_unsubscribeAll cs s : NoDup s -> NoDup (unsubscribeAll cs s).
Proof.
  unfold unsubscribeAll. revert s. induction cs as [|c cs IH]; intros s; simpl;
    [auto|].
  intros H. apply IH. now apply NoDup_filter.
Qed.

Lemma set_set (V : Type) k (v v' : V) (m : JSMap.t V) :
  JSMap.set k v (JSMap.set k v' m) = JSMap.set k v m.
Proof.
  induction m as [|[k0 v0] m IH]; simpl.
  - now rewrite String.eqb_refl.
  - destruct (String.eqb k0 k) eqn:E; simpl; rewrite ?String.eqb_refl, ?E;
      [reflexivity|]. now rewrite IH.
Qed.

Lemma subscribe_registry render clientId channels payload nowIso clients client :
  JSMap.get clientId clients = Some client ->
  fst (onMessage render clientId (Some (Subscribe (Some channels))) payload
         nowIso clients)
  = JSMap.set clientId
      (withSubscriptions client (subscribeAll channels (subscriptions client)))
      clients.
Proof. intros H. unfold onMessage, handleClientMessage. now rewrite H. Qed.

Lemma unsubscribe_registry render clientId channels payload nowIso clients client :
  JSMap.get clientId clients = Some client ->
  onMessage render clientId (Some (Unsubscribe (Some channels))) payload
    nowIso clients
  = (JSMap.set clientId
       (withSubscriptions client
          (unsubscribeAll channels (subscriptions client)))
       clients, []).
Proof. intros H. unfold onMessage, handleClientMessage. now rewrite H. Qed.

(** A ['subscribe'] message of a registered connection adds the named
    channels to its subscriptions and keeps the earlier ones, without
    repetition; it touches no other connection; and handling the same
    message again changes nothing. *)
Theorem subscribe_adds_channels render clientId channels payload nowIso
    clients client :
  JSMap.get clientId clients = Some client ->
  let subscribed :=
    fst (onMessage render clientId (Some (Subscribe (Some channels))) payload
           nowIso clients) in
  (forall c, In c (getClientSubscriptions clientId subscribed)
             <-> In c (subscriptions client) \/ In c channels)
  /\ (NoDup (subscriptions client) ->
      NoDup (getClientSubscriptions clientId subscribed))
  /\ (forall k, k <> clientId ->
                JSMap.get k subscribed = JSMap.get k clients)
  /\ fst (onMessage render clientId (Some (Subscribe (Some channels))) payload
            nowIso subscribed)
     = subscribed.
Proof.
  intros Hc subscribed. subst subscribed.
  rewrite (subscribe_registry _ _ _ _ _ _ _ Hc).
  set (s1 := subscribeAll channels (subscriptions client)).
  split; [|split; [|split]].
  - intros c. unfold getClientSubscriptions.
    rewrite JSMapFacts.get_set_same. apply In_subscribeAll.
  - unfold getClientSubscriptions. rewrite JSMapFacts.get_set_same.
    apply NoDup_subscribeAll.
  - intros k Hk. now apply JSMapFacts.get_set_other.
  - rewrite (subscribe_registry render clientId channels payload nowIso
               (JSMap.set clientId (withSubscriptions client s1) clients)
               (withSubscriptions client s1)
               (JSMapFacts.get_set_same clientId _ clients)).
    rewrite set_set. f_equal. unfold withSubscriptions. simpl. f_equal.
    apply subscribeAll_known. intros c Hin. apply In_subscribeAll. now right.
Qed.

Definition lonelyClient : Clients := [("c3", subscriber "c3" [])].

Lemma subscribe_adds_channels_example :
  In "alerts"
    (getClientSubscriptions "c3"
       (fst (onMessage (String.concat ",") "c3"
               (Some (Subscribe (Some ["alerts"; "system"]))) "{}"
               "2024-01-01T00:00:00.000Z" lonelyClient)))
  <-> In "alerts" [] \/ In "alerts" ["alerts"; "system"].
Proof.
  assert (Hc : JSMap.get "c3" lonelyClient = Some (subscriber "c3" []))
    by reflexivity.
  exact (proj1 (subscribe_adds_channels (String.concat ",") "c3"
                  ["alerts"; "system"] "{}" "2024-01-01T00:00:00.000Z"
                  lonelyClient (subscriber "c3" []) Hc) "alerts").
Defined.

(** An ['unsubscribe'] message of a registered connection removes the
    named channels from its subscriptions and keeps the others; it
    touches no other connection; and, unlike a subscription, it is not
    confirmed: nothing is sent. *)
Theorem unsubscribe_removes_channels render clientId channels payload nowIso
    clients client :
  JSMap.get clientId clients = Some client ->
  let unsubscribed :=
    fst (onMessage render clientId (Some (Unsubscribe (Some channels)))
           payload nowIso clients) in
  (forall c, In c (getClientSubscriptions clientId unsubscribed)
             <-> In c (subscriptions client) /\ ~ In c channels)
  /\ (forall k, k <> clientId ->
                JSMap.get k unsubscribed = JSMap.get k clients)
  /\ snd (onMessage render clientId (Some (Unsubscribe (Some channels)))
            payload nowIso clients)
     = [].
Proof.
  intros Hc unsubscribed. subst unsubscribed.
  rewrite (unsubscribe_registry _ _ _ _ _ _ _ Hc). simpl.
  unfold getClientSubscriptions. rewrite JSMapFacts.get_set_same. simpl.
  split; [intros c; apply In_unsubscribeAll|].
  split; [intros k Hk; now apply JSMapFacts.get_set_other | reflexivity].
Qed.

Lemma unsubscribe_removes_channels_example :
  snd (onMessage (String.concat ",") "c1" (Some (Unsubscribe (Some ["x"])))
         "{}" "2024-01-01T00:00:00.000Z" threeClients)
  = [].
Proof.
  apply (unsubscribe_removes_channels (String.concat ",") "c1" ["x"] "{}"
           "2024-01-01T00:00:00.000Z" threeClients (subscriber "c1" ["x"])).
  reflexivity.
Defined.

(** *** The heartbeat, exactly *)

Lemma filter_and (A : Type) (f g : A -> bool) l :
  filter f (filter g l) = filter (fun x => g x && f x) l.
Proof.
  induction l as [|a l IH]; simpl; [reflexivity|].
  destruct (g a); simpl; [destruct (f a)|]; now rewrite IH.
Qed.

Lemma fold_delete_filter (V : Type) ks (m : JSMap.t V) :
  fold_left (fun m k => JSMap.delete k m) ks m
  = filter (fun e => negb (existsb (String.eqb (fst e)) ks)) m.
Proof.
  revert m. induction ks as [|k ks IH]; intros m; simpl.
  - induction m as [|e m IHm]; simpl; [reflexivity | now rewrite <- IHm].
  - rewrite IH. unfold JSMap.delete. rewrite filter_and.
    apply filter_ext. intros e. rewrite negb_orb. reflexivity.
Qed.

Lemma heartbeat_registry now clients :
  JSMap.wf clients ->
  fst (heartbeatTick now clients)
  = filter (fun e => negb (doomed now e)) clients.
Proof.
  intros Hwf. rewrite heartbeatTick_eq. simpl. rewrite fold_delete_filter.
  apply filter_ext_in. intros [k c] Hin. f_equal. simpl.
  pose proof (doomed_key now clients k c Hwf Hin) as Hd.
  destruct (doomed now (k, c)).
  - apply existsb_exists. exists k. split; [now apply Hd | apply String.eqb_refl].
  - destruct (existsb _ _) eqn:E; [|reflexivity].
    apply existsb_exists in E as (k' & Hk' & E). apply String.eqb_eq in E.
    subst k'. apply Hd in Hk'. discriminate.
Qed.

Lemma wf_filter (V : Type) (f : string * V -> bool) (m : JSMap.t V) :
  JSMap.wf m -> JSMap.wf (filter f m).
Proof. unfold JSMap.wf, JSMap.keys. apply TrainingFacts.NoDup_map_filter. Qed.

Lemma get_filter (V : Type) (f : string * V -> bool) (m : JSMap.t V) k v :
  JSMap.wf m -> JSMap.get k m = Some v -> f (k, v) = true ->
  JSMap.get k (filter f m) = Some v.
Proof.
  intros Hwf Hg Hf. apply JSMapFacts.In_get; [now apply wf_filter|].
  apply filter_In. split; [now apply JSMapFacts.get_In | assumption].
Qed.

Lemma filter_idem (A : Type) (f : A -> bool) l :
  filter f (filter f l) = filter f l.
Proof.
  rewrite filter_and. apply filter_ext. intros a. now destruct (f a).
Qed.

(** The living: the transport is open and the last pong at most 30 s
    old. *)
Definition alive (now : Z) (entry : string * ConnectedClient) : bool :=
  isOpen (readyState (ws (snd entry)))
  && negb (now - lastPing (snd entry) >? 30000).

Lemma alive_doomed now entry : negb (doomed now entry) = alive now entry.
Proof. unfold doomed, alive. rewrite negb_orb, negb_involutive. reflexivity. Qed.

Lemma heartbeat_survivors now clients :
  JSMap.wf clients ->
  fst (heartbeatTick now clients) = filter (alive now) clients.
Proof.
  intros Hwf. rewrite heartbeat_registry by assumption.
  apply filter_ext. intros e. apply alive_doomed.
Qed.

(** A heartbeat tick leaves in the registry exactly the connections whose
    transport is open and whose last pong is at most 30 s old, in their
    order.  A second tick at the same time removes nobody: it only pings
    the connections that are left. *)
Theorem heartbeat_keeps_the_living now clients :
  JSMap.wf clients ->
  fst (heartbeatTick now clients)
  = filter (fun e => isOpen (readyState (ws (snd e)))
                     && negb (now - lastPing (snd e) >? 30000)) clients
  /\ heartbeatTick now (fst (heartbeatTick now clients))
     = (fst (heartbeatTick now clients),
        map (fun e => Ping (fst e)) (fst (heartbeatTick now clients))).
Proof.
  intros Hwf. split; [now apply heartbeat_survivors|].
  rewrite (heartbeat_survivors now clients Hwf).
  assert (Hwf' : JSMap.wf (filter (alive now) clients)) by now apply wf_filter.
  rewrite (surjective_pairing (heartbeatTick now (filter (alive now) clients))).
  f_equal.
  - rewrite heartbeat_survivors by assumption. apply filter_idem.
  - rewrite heartbeatTick_eq. simpl.
    induction clients as [|[k c] l IH]; simpl; [reflexivity|].
    assert (Hl : JSMap.wf l) by (inversion Hwf; assumption).
    destruct (alive now (k, c)) eqn:E; simpl.
    + rewrite IH; auto using wf_filter.
      unfold heartbeatEffects. unfold alive in E. simpl in *.
      apply andb_true_iff in E as [-> E]. apply negb_true_iff in E.
      now rewrite E.
    + apply IH; auto using wf_filter.
Qed.

Lemma heartbeat_keeps_the_living_example :
  heartbeatTick 45000 (fst (heartbeatTick 45000 twoClients))
  = (fst (heartbeatTick 45000 twoClients),
     map (fun e => Ping (fst e)) (fst (heartbeatTick 45000 twoClients))).
Proof.
  apply (heartbeat_keeps_the_living 45000 twoClients twoClients_wf).
Defined.

(** A connection that is registered with an open transport and whose pong
    arrived at time [t] is still registered, with that time, after any
    heartbeat tick up to 30 s later, and the tick pings it. *)
Theorem pong_keeps_alive clientId t now clients client :
  JSMap.wf clients -> JSMap.get clientId clients = Some client ->
  isOpen (readyState (ws client)) = true -> now - t <= 30000 ->
  JSMap.get clientId (fst (heartbeatTick now (onPong clientId t clients)))
  = Some {| ws := ws client; id := id client;
            subscriptions := subscriptions client; lastPing := t |}
  /\ In (Ping clientId) (snd (heartbeatTick now (onPong clientId t clients))).
Proof.
  intros Hwf Hc Ho Ht. unfold onPong. rewrite Hc.
  set (client' := {| ws := ws client; id := id client;
                     subscriptions := subscriptions client; lastPing := t |}).
  assert (Hwf' : JSMap.wf (JSMap.set clientId client' clients))
    by now apply JSMapFacts.wf_set.
  assert (Hg : JSMap.get clientId (JSMap.set clientId client' clients)
               = Some client') by apply JSMapFacts.get_set_same.
  assert (Hlive : (now - t >? 30000) = false)
    by (destruct (Z.gtb_spec (now - t) 30000); [lia | reflexivity]).
  split.
  - rewrite heartbeat_survivors by assumption.
    apply get_filter; auto. unfold alive. simpl. now rewrite Ho, Hlive.
  - rewrite heartbeatTick_eq. simpl. apply in_flat_map.
    exists (clientId, client'). split; [now apply JSMapFacts.get_In|].
    unfold heartbeatEffects. simpl. rewrite Ho, Hlive. now left.
Qed.

Lemma pong_keeps_alive_example :
  JSMap.get "c1" (fst (heartbeatTick 45000 (onPong "c1" 30000 twoClients)))
  = Some {| ws := openSocket; id := "c1"; subscriptions := [];
            lastPing := 30000 |}
  /\ In (Ping "c1") (snd (heartbeatTick 45000 (onPong "c1" 30000 twoClients))).
Proof.
  apply (pong_keeps_alive "c1" 30000 45000 twoClients (subscriber "c1" [])
           twoClients_wf); [reflexivity | reflexivity | lia].
Defined.

(** *** Broadcasts after a change of subscriptions *)

Lemma delivered_In type data channel nowIso clients k c :
  registry_ok clients -> JSMap.get k clients = Some c ->
  In k (deliveredTo (snd (broadcast type data channel nowIso clients)))
  <-> receives {| type := type; data := data; timestamp := nowIso |}
        channel c = true.
Proof.
  intros Hok Hc. rewrite deliveredTo_broadcast, in_map_iff.
  apply JSMapFacts.get_In in Hc. split.
  - intros (c' & Hid & Hf). apply filter_In in Hf as [Hv Hr].
    apply (registry_ok_value _ _ Hok) in Hv. rewrite Hid in Hv.
    now rewrite (registry_ok_unique _ _ _ _ Hok Hc Hv).
  - intros Hr. exists c. split; [now apply (proj2 Hok k c)|].
    apply filter_In. split; [|assumption].
    unfold JSMap.values. change c with (snd (k, c)). now apply in_map.
Qed.

(** A connection with an open transport on which sends succeed, once it
    has subscribed to a channel, is reached by every broadcast on that
    channel. *)
Theorem subscriber_is_reached render clientId channels payload nowIso clients
    client type text channel sentIso :
  registry_ok clients -> JSMap.get clientId clients = Some client ->
  isOpen (readyState (ws client)) = true -> sendThrows (ws client) = false ->
  In channel channels ->
  In clientId
    (deliveredTo
       (snd (broadcast type (Json text true) (Some channel) sentIso
               (fst (onMessage render clientId
                       (Some (Subscribe (Some channels))) payload nowIso
                       clients))))).
Proof.
  intros Hok Hc Ho Hs Hin.
  rewrite (subscribe_registry _ _ _ _ _ _ _ Hc).
  set (client' := withSubscriptions client
                    (subscribeAll channels (subscriptions client))).
  assert (Hid : id client' = clientId).
  { change (id client = clientId). apply (proj2 Hok).
    now apply JSMapFacts.get_In. }
  apply (delivered_In _ _ _ _ _ clientId client').
  - now apply registry_ok_set.
  - apply JSMapFacts.get_set_same.
  - unfold receives, sendSucceeds, send, wanted. simpl. rewrite Ho, Hs. simpl.
    assert (E : JSSet.has channel
                  (subscribeAll channels (subscriptions client)) = true).
    { apply JSSetFacts.has_In, In_subscribeAll. now right. }
    rewrite E. now rewrite orb_true_r.
Qed.

Lemma subscriber_is_reached_example :
  In "c3"
    (deliveredTo
       (snd (broadcast "alert" (Json "{}" true) (Some "alerts")
               "2024-01-01T00:00:01.000Z"
               (fst (onMessage (String.concat ",") "c3"
                       (Some (Subscribe (Some ["alerts"; "system"]))) "{}"
                       "2024-01-01T00:00:00.000Z" threeClients))))).
Proof.
  apply (subscriber_is_reached (String.concat ",") "c3" ["alerts"; "system"]
           "{}" "2024-01-01T00:00:00.000Z" threeClients (subscriber "c3" [])
           "alert" "{}" "alerts" "2024-01-01T00:00:01.000Z" threeClients_ok);
    try reflexivity.
  simpl. tauto.
Defined.

(** A connection that has unsubscribed from a channel, and is not
    subscribed to ["all"], is not reached by a broadcast on that
    channel. *)
Theorem unsubscriber_is_skipped render clientId channels payload nowIso clients
    client type data channel sentIso :
  registry_ok clients -> JSMap.get clientId clients = Some client ->
  In channel channels -> channel <> "" ->
  ~ In "all" (subscriptions client) ->
  ~ In clientId
      (deliveredTo
         (snd (broadcast type data (Some channel) sentIso
                 (fst (onMessage render clientId
                         (Some (Unsubscribe (Some channels))) payload nowIso
                         clients))))).
Proof.
  intros Hok Hc Hin Hne Hall.
  rewrite (unsubscribe_registry _ _ _ _ _ _ _ Hc). simpl.
  set (client' := withSubscriptions client
                    (unsubscribeAll channels (subscriptions client))).
  assert (Hid : id client' = clientId).
  { change (id client = clientId). apply (proj2 Hok).
    now apply JSMapFacts.get_In. }
  rewrite (delivered_In _ _ _ _ _ clientId client');
    [|now apply registry_ok_set | apply JSMapFacts.get_set_same].
  unfold receives, wanted. simpl.
  assert (E1 : String.eqb channel "" = false) by now apply String.eqb_neq.
  assert (E2 : JSSet.has channel
                 (unsubscribeAll channels (subscriptions client)) = false).
  { destruct (JSSet.has channel _) eqn:E; [|reflexivity].
    apply JSSetFacts.has_In, In_unsubscribeAll in E. tauto. }
  assert (E3 : JSSet.has "all"
                 (unsubscribeAll channels (subscriptions client)) = false).
  { destruct (JSSet.has "all" _) eqn:E; [|reflexivity].
    apply JSSetFacts.has_In, In_unsubscribeAll in E. tauto. }
  rewrite E1, E2, E3. simpl. rewrite andb_false_r. discriminate.
Qed.

Lemma unsubscriber_is_skipped_example :
  ~ In "c1"
      (deliveredTo
         (snd (broadcast "alert" (Json "{}" true) (Some "x")
                 "2024-01-01T00:00:01.000Z"
                 (fst (onMessage (String.concat ",") "c1"
                         (Some (Unsubscribe (Some ["x"]))) "{}"
                         "2024-01-01T00:00:00.000Z" threeClients))))).
Proof.
  apply (unsubscriber_is_skipped (String.concat ",") "c1" ["x"] "{}"
           "2024-01-01T00:00:00.000Z" threeClients (subscriber "c1" ["x"])
           "alert" (Json "{}" true) "x" "2024-01-01T00:00:01.000Z"
           threeClients_ok).
  - reflexivity.
  - simpl. tauto.
  - discriminate.
  - simpl. intuition discriminate.
Defined.

(** *** The registry in a run *)

(** One entry per id, each under the id it carries, and subscriptions
    without repetition. *)
Definition healthy (clients : Clients) : Prop :=
  registry_ok clients
  /\ forall k c, In (k, c) clients -> NoDup (subscriptions c).

(** What the server and its sockets do to the registry. *)
Inductive handled : Clients -> Clients -> Prop :=
| handled_connection socket idNow rnd36 now welcome nowIso clients :
    handled clients
      (snd (fst (onConnection socket idNow rnd36 now welcome nowIso clients)))
| handled_message render clientId parsed payload nowIso clients :
    handled clients
      (fst (onMessage render clientId parsed payload nowIso clients))
| handled_pong clientId now clients :
    handled clients (onPong clientId now clients)
| handled_close clientId clients :
    handled clients (fst (onClose clientId clients))
| handled_error clientId clients :
    handled clients (fst (onError clientId clients))
| handled_heartbeat now clients :
    handled clients (fst (heartbeatTick now clients))
| handled_shutdown clients :
    handled clients (fst (shutdown clients)).

(** The registries of the runs that start with no connection. *)
Inductive served : Clients -> Prop :=
| served_start : served JSMap.empty
| served_next clients clients' :
    served clients -> handled clients clients' -> served clients'.

Lemma healthy_set clients k c c' :
  healthy clients -> JSMap.get k clients = Some c ->
  id c' = id c -> NoDup (subscriptions c') ->
  healthy (JSMap.set k c' clients).
Proof.
  intros [Hok Hnd] Hc Hid Hs. split.
  - apply registry_ok_set; [assumption|].
    rewrite Hid. apply (proj2 Hok). now apply JSMapFacts.get_In.
  - intros k' c'' Hin. apply JSMapFacts.In_set in Hin; [|apply Hok].
    destruct Hin as [[_ ->]|[_ Hin]]; eauto.
Qed.

Lemma healthy_sub clients clients' :
  healthy clients -> JSMap.wf clients' ->
  (forall k c, In (k, c) clients' -> In (k, c) clients) ->
  healthy clients'.
Proof.
  intros [[Hwf Hid] Hnd] Hwf' Hsub. repeat split; eauto.
Qed.

Lemma handled_healthy clients clients' :
  healthy clients -> handled clients clients' -> healthy clients'.
Proof.
  intros HH Hstep. pose proof HH as [[Hwf Hid] Hnd].
  destruct Hstep as
    [socket idNow rnd36 now welcome nowIso clients
    | render clientId parsed payload nowIso clients
    | clientId now clients | clientId clients | clientId clients
    | now clients | clients].
  - rewrite onConnection_eq. simpl. split.
    + apply registry_ok_set; [now split | reflexivity].
    + intros k c Hin. apply JSMapFacts.In_set in Hin; [|assumption].
      destruct Hin as [[_ ->]|[_ Hin]]; [constructor | eauto].
  - unfold onMessage. destruct parsed as [message|]; [|assumption].
    unfold handleClientMessage.
    destruct (JSMap.get clientId clients) as [client|] eqn:Hc; [|assumption].
    assert (Hs : NoDup (subscriptions client))
      by (apply (Hnd clientId); now apply JSMapFacts.get_In).
    destruct message as [[channels|]|[channels|]| |request|ty]; simpl;
      try assumption.
    + apply (healthy_set clients clientId client); auto.
      now apply NoDup_subscribeAll.
    + apply (healthy_set clients clientId client); auto.
      now apply NoDup_unsubscribeAll.
    + now destruct (handleDataRequest _ _ _ _ _).
  - unfold onPong.
    destruct (JSMap.get clientId clients) as [client|] eqn:Hc; [|assumption].
    apply (healthy_set clients clientId client); auto.
    simpl. apply (Hnd clientId client). now apply JSMapFacts.get_In.
  - simpl. apply (healthy_sub clients); auto using JSMapFacts.wf_delete.
    intros k c Hin. now apply JSMapFacts.In_delete in Hin.
  - simpl. apply (healthy_sub clients); auto using JSMapFacts.wf_delete.
    intros k c Hin. now apply JSMapFacts.In_delete in Hin.
  - rewrite heartbeat_survivors by assumption.
    apply (healthy_sub clients); auto using wf_filter.
    intros k c Hin. now apply filter_In in Hin.
  - simpl. apply (healthy_sub clients); [assumption | constructor|].
    intros k c [].
Qed.

(** In every run of the service the registry holds one entry per id,
    each stored under the id it carries, and the subscriptions of a
    connection hold no channel twice. *)
Theorem registry_stays_healthy clients :
  served clients ->
  JSMap.wf clients
  /\ (forall k c, JSMap.get k clients = Some c -> id c = k)
  /\ (forall k c, JSMap.get k clients = Some c -> NoDup (subscriptions c)).
Proof.
  intros Hs.
  assert (HH : healthy clients).
  { induction Hs as [|clients clients' _ IH Hstep].
    - split; [exact registry_ok_empty | intros k c []].
    - exact (handled_healthy clients clients' IH Hstep). }
  destruct HH as [[Hwf Hid] Hnd].
  split; [assumption|].
  split; intros k c Hc; apply JSMapFacts.get_In in Hc; eauto.
Qed.

Lemma served_subscribed :
  served (fst (onMessage (String.concat ",") "c"
                 (Some (Subscribe (Some ["alerts"; "alerts"]))) "{}"
                 "2024-01-01T00:00:01.000Z"
                 (snd (fst (onConnection openSocket 0 "0.5" 0 "{}"
                              "2024-01-01T00:00:00.000Z" JSMap.empty))))).
Proof.
  eapply served_next; [|apply handled_message].
  eapply served_next; [apply served_start | apply handled_connection].
Defined.

Lemma registry_stays_healthy_example :
  JSMap.wf
    (fst (onMessage (String.concat ",") "c"
            (Some (Subscribe (Some ["alerts"; "alerts"]))) "{}"
            "2024-01-01T00:00:01.000Z"
            (snd (fst (onConnection openSocket 0 "0.5" 0 "{}"
                         "2024-01-01T00:00:00.000Z" JSMap.empty))))).
Proof.
  apply (registry_stays_healthy _ served_subscribed).
Defined.

(** *** Shutdown *)

(** [shutdown] empties the registry, closes exactly the transports that
    are open, and sends nothing. *)
Theorem shutdown_closes_open_transports clients :
  getConnectedClientsCount (fst (shutdown clients)) = 0
  /\ (forall k, In (Close k) (snd (shutdown clients))
                <-> exists c, In c (JSMap.values clients) /\ id c = k
                              /\ isOpen (readyState (ws c)) = true)
  /\ deliveredTo (snd (shutdown clients)) = []
  /\ (forall k, ~ In (Terminate k) (snd (shutdown clients))).
Proof.
  unfold shutdown. simpl. split; [reflexivity|].
  induction (JSMap.values clients) as [|c l IH]; simpl.
  - repeat split.
    + intros [[=]|[]].
    + intros (c & [] & _).
    + intros k [[=]|[]].
  - destruct IH as (IH1 & IH2 & IH3). repeat split.
    + intros Hin. destruct (isOpen (readyState (ws c))) eqn:Ho; simpl in Hin.
      * destruct Hin as [[= <-]|Hin]; [exists c; auto|].
        apply IH1 in Hin as (c' & H1 & H2 & H3). exists c'. auto.
      * apply IH1 in Hin as (c' & H1 & H2 & H3). exists c'. auto.
    + intros (c' & [<-|Hin] & Hid & Ho).
      * rewrite Ho. simpl. left. now rewrite Hid.
      * apply in_or_app.
        assert (H : In (Close k)
                      (flat_map (fun client =>
                                   if isOpen (readyState (ws client))
                                   then [Close (id client)] else []) l
                       ++ [LogShutDown])) by (apply IH1; now exists c').
        apply in_app_or in H as [H|H]; [|now right].
        left. apply in_or_app. now right.
    + destruct (isOpen (readyState (ws c))); simpl; assumption.
    + intros k. destruct (isOpen (readyState (ws c))); simpl.
      * intros [[=]|Hin]. now apply (IH3 k).
      * apply IH3.
Qed.

(** *** Messages *)

Lemma get_filter_out (V : Type) (f : string * V -> bool) (m : JSMap.t V) k v :
  JSMap.wf m -> JSMap.get k m = Some v -> f (k, v) = false ->
  JSMap.get k (filter f m) = None.
Proof.
  intros Hwf Hg Hf.
  destruct (JSMap.get k (filter f m)) as [v'|] eqn:E; [|reflexivity].
  apply JSMapFacts.get_In in E. apply filter_In in E as [Hin Hf'].
  apply JSMapFacts.In_get in Hin; [|assumption].
  assert (v' = v) by congruence. subst v'. congruence.
Qed.

Lemma onMessage_unregistered render clientId parsed payload nowIso clients :
  JSMap.get clientId clients = None ->
  onMessage render clientId parsed payload nowIso clients
  = (clients,
     match parsed with
     | None => [LogParseError clientId]
     | Some _ => []
     end).
Proof.
  intros H. unfold onMessage, handleClientMessage. rewrite H.
  now destruct parsed.
Qed.

(** Once a heartbeat tick has dropped a connection, because its
    transport is not open or its last pong is more than 30 s old, a
    frame that still arrives on its socket is ignored, whatever it holds:
    the registry stays as the tick left it, without that connection, and
    nothing is sent, so a ping gets no pong and a subscription no
    confirmation.  The only trace is the line that is logged when
    [JSON.parse] rejects the frame. *)
Theorem unregistered_sender_is_ignored now render clientId client parsed
    payload nowIso clients :
  JSMap.wf clients ->
  JSMap.get clientId clients = Some client ->
  isOpen (readyState (ws client)) = false \/ now - lastPing client > 30000 ->
  JSMap.get clientId (fst (heartbeatTick now clients)) = None
  /\ fst (onMessage render clientId parsed payload nowIso
            (fst (heartbeatTick now clients)))
     = fst (heartbeatTick now clients)
  /\ deliveredTo (snd (onMessage render clientId parsed payload nowIso
                         (fst (heartbeatTick now clients)))) = []
  /\ snd (onMessage render clientId parsed payload nowIso
            (fst (heartbeatTick now clients)))
     = match parsed with
       | None => [LogParseError clientId]
       | Some _ => []
       end.
Proof.
  intros Hwf Hg Hdead.
  assert (Hnone : JSMap.get clientId (fst (heartbeatTick now clients)) = None).
  { rewrite heartbeat_survivors by assumption.
    apply (get_filter_out _ _ clients clientId client Hwf Hg).
    unfold alive. simpl. destruct Hdead as [->|Hold]; [reflexivity|].
    apply andb_false_iff. right. apply negb_false_iff. apply Z.gtb_lt. lia. }
  split; [exact Hnone|].
  rewrite (onMessage_unregistered render clientId parsed payload nowIso _ Hnone).
  simpl. repeat split. now destruct parsed.
Qed.

Lemma unregistered_sender_is_ignored_example :
  JSMap.get "c1" (fst (heartbeatTick 45000 twoClients)) = None
  /\ fst (onMessage (String.concat ",") "c1" (Some PingMessage) "{}"
            "2024-01-01T00:00:00.000Z" (fst (heartbeatTick 45000 twoClients)))
     = fst (heartbeatTick 45000 twoClients)
  /\ deliveredTo (snd (onMessage (String.concat ",") "c1" (Some PingMessage)
                         "{}" "2024-01-01T00:00:00.000Z"
                         (fst (heartbeatTick 45000 twoClients)))) = []
  /\ snd (onMessage (String.concat ",") "c1" (Some PingMessage) "{}"
            "2024-01-01T00:00:00.000Z" (fst (heartbeatTick 45000 twoClients)))
     = [].
Proof.
  apply (unregistered_sender_is_ignored 45000 (String.concat ",") "c1"
           (subscriber "c1" []) (Some PingMessage) "{}"
           "2024-01-01T00:00:00.000Z" twoClients twoClients_wf).
  - reflexivity.
  - right. apply Z.lt_gt. apply Z.ltb_lt. reflexivity.
Defined.

(** Whatever arrives on a socket, the handler does not throw, registers
    and removes nobody, and changes at most the subscriptions of the
    connection of that socket. *)
Theorem message_changes_only_subscriptions render clientId parsed payload
    nowIso clients :
  JSMap.keys (fst (onMessage render clientId parsed payload nowIso clients))
  = JSMap.keys clients
  /\ (forall k, k <> clientId ->
        JSMap.get k (fst (onMessage render clientId parsed payload nowIso clients))
        = JSMap.get k clients)
  /\ (forall c, JSMap.get clientId clients = Some c ->
        exists c',
          JSMap.get clientId
            (fst (onMessage render clientId parsed payload nowIso clients))
          = Some c'
          /\ ws c' = ws c /\ id c' = id c /\ lastPing c' = lastPing c).
Proof.
  assert (Hsame : forall clients' : Clients, clients' = clients ->
            JSMap.keys clients' = JSMap.keys clients
            /\ (forall k, k <> clientId ->
                          JSMap.get k clients' = JSMap.get k clients)
            /\ (forall c, JSMap.get clientId clients = Some c ->
                  exists c', JSMap.get clientId clients' = Some c'
                             /\ ws c' = ws c /\ id c' = id c
                             /\ lastPing c' = lastPing c)).
  { intros ? ->. repeat split. intros c Hc. now exists c. }
  assert (Hset : forall client s,
            JSMap.get clientId clients = Some client ->
            let clients' :=
              JSMap.set clientId (withSubscriptions client s) clients in
            JSMap.keys clients' = JSMap.keys clients
            /\ (forall k, k <> clientId ->
                          JSMap.get k clients' = JSMap.get k clients)
            /\ (forall c, JSMap.get clientId clients = Some c ->
                  exists c', JSMap.get clientId clients' = Some c'
                             /\ ws c' = ws c /\ id c' = id c
                             /\ lastPing c' = lastPing c)).
  { intros client s Hc clients'. subst clients'. split; [|split].
    - apply JSMapFacts.keys_set_in. apply JSMapFacts.get_In in Hc.
      unfold JSMap.keys. change clientId with (fst (clientId, client)).
      now apply in_map.
    - intros k Hk. now apply JSMapFacts.get_set_other.
    - intros c Hc'. rewrite JSMapFacts.get_set_same.
      exists (withSubscriptions client s).
      assert (c = client) as -> by congruence. auto. }
  unfold onMessage. destruct parsed as [message|]; [|now apply Hsame].
  unfold handleClientMessage.
  destruct (JSMap.get clientId clients) as [client|] eqn:Hc;
    [|now apply Hsame].
  destruct message as [[channels|]|[channels|]| |request|ty]; simpl;
    try (now apply Hsame); try (now apply Hset).
  destruct (handleDataRequest _ _ _ _ _); now apply Hsame.
Qed.

(** *** The typed broadcasts *)

(** The six typed broadcasts, each on a channel of its own. *)
Definition typedBroadcasts
  : list (Data -> string -> Clients -> Completion JSValue * list Effect) :=
  [broadcastEnvironmentalData; broadcastSpeciesIdentification;
   broadcastPrediction; broadcastVesselUpdate; broadcastAlert;
   broadcastSystemStatus].

Definition typedChannels : list string :=
  ["environmental"; "species"; "predictions"; "vessels"; "alerts"; "system"].

(** A connection that has subscribed to none of the six channels nor to
    ["all"] receives none of the typed broadcasts: a connection that has
    just been accepted hears nothing until it subscribes.  A connection
    subscribed to ["all"], with an open transport on which sends succeed,
    receives every one of them. *)
Theorem typed_broadcasts_need_a_subscription data nowIso clients k c :
  registry_ok clients -> JSMap.get k clients = Some c ->
  ((forall ch, In ch ("all" :: typedChannels) -> ~ In ch (subscriptions c)) ->
   forall f, In f typedBroadcasts ->
             ~ In k (deliveredTo (snd (f data nowIso clients))))
  /\ (In "all" (subscriptions c) -> isOpen (readyState (ws c)) = true ->
      sendThrows (ws c) = false -> data <> Unserializable ->
      forall f, In f typedBroadcasts ->
                In k (deliveredTo (snd (f data nowIso clients)))).
Proof.
  intros Hok Hc. split.
  - intros Hnone f Hf.
    assert (Hno : forall ch, In ch ("all" :: typedChannels) ->
                             JSSet.has ch (subscriptions c) = false).
    { intros ch Hch. destruct (JSSet.has ch _) eqn:E; [|reflexivity].
      apply JSSetFacts.has_In in E. now apply Hnone in E. }
    simpl in Hf, Hno.
    decompose [or] Hf; try contradiction; subst f;
      unfold broadcastEnvironmentalData, broadcastSpeciesIdentification,
        broadcastPrediction, broadcastVesselUpdate, broadcastAlert,
        broadcastSystemStatus;
      rewrite (delivered_In _ _ _ _ _ k c Hok Hc);
      unfold receives, wanted; simpl;
      rewrite !Hno by tauto; simpl; rewrite andb_false_r; discriminate.
  - intros Hall Ho Hs Hd f Hf.
    apply JSSetFacts.has_In in Hall.
    simpl in Hf.
    decompose [or] Hf; try contradiction; subst f;
      unfold broadcastEnvironmentalData, broadcastSpeciesIdentification,
        broadcastPrediction, broadcastVesselUpdate, broadcastAlert,
        broadcastSystemStatus;
      rewrite (delivered_In _ _ _ _ _ k c Hok Hc);
      unfold receives, wanted, sendSucceeds, send; simpl;
      rewrite Ho, Hs, Hall; destruct data; try congruence;
      simpl; now rewrite orb_true_r.
Qed.

Lemma typed_broadcasts_need_a_subscription_example :
  In "c2"
    (deliveredTo
       (snd (broadcastAlert (Json "{}" true) "2024-01-01T00:00:00.000Z"
               threeClients))).
Proof.
  apply (typed_broadcasts_need_a_subscription (Json "{}" true)
           "2024-01-01T00:00:00.000Z" threeClients "c2"
           (subscriber "c2" ["all"]) threeClients_ok eq_refl);
    try reflexivity.
  - simpl. tauto.
  - discriminate.
  - simpl. tauto.
Defined.

(** *** A new connection *)

(** A connection accepted with an open transport is registered without
    subscriptions, the welcome goes to it and to nobody else, and the
    heartbeat ticks of the next 30 s ping it and keep it. *)
Theorem new_connection_is_welcomed socket idNow rnd36 now welcome nowIso
    clients now' :
  JSMap.wf clients -> isOpen (readyState socket) = true ->
  now' - now <= 30000 ->
  let clientId :=
    fst (fst (onConnection socket idNow rnd36 now welcome nowIso clients)) in
  let clients' :=
    snd (fst (onConnection socket idNow rnd36 now welcome nowIso clients)) in
  deliveredTo (snd (onConnection socket idNow rnd36 now welcome nowIso clients))
  = (if sendThrows socket then [] else [clientId])
  /\ getClientSubscriptions clientId clients' = []
  /\ JSMap.has clientId (fst (heartbeatTick now' clients')) = true
  /\ In (Ping clientId) (snd (heartbeatTick now' clients')).
Proof.
  intros Hwf Ho Ht clientId clients'. subst clientId clients'.
  rewrite onConnection_eq. simpl.
  set (clientId := generateClientId idNow rnd36).
  set (client := {| ws := socket; id := clientId;
                    subscriptions := JSSet.empty; lastPing := now |}).
  assert (Hg : JSMap.get clientId (JSMap.set clientId client clients)
               = Some client) by apply JSMapFacts.get_set_same.
  assert (Hlive : (now' - now >? 30000) = false)
    by (destruct (Z.gtb_spec (now' - now) 30000); [lia | reflexivity]).
  split; [|split; [|split]].
  - unfold onConnection, sendToClient. fold clientId. fold client.
    rewrite Hg. simpl. rewrite Ho. simpl. unfold send. simpl.
    now destruct (sendThrows socket).
  - unfold getClientSubscriptions. now rewrite Hg.
  - rewrite heartbeat_survivors by now apply JSMapFacts.wf_set.
    unfold JSMap.has. rewrite (get_filter _ _ _ clientId client); auto.
    + now apply JSMapFacts.wf_set.
    + unfold alive. simpl. now rewrite Ho, Hlive.
  - rewrite heartbeatTick_eq. simpl. apply in_flat_map.
    exists (clientId, client). split; [now apply JSMapFacts.get_In|].
    unfold heartbeatEffects. simpl. rewrite Ho, Hlive. now left.
Qed.

Lemma new_connection_is_welcomed_example :
  deliveredTo
    (snd (onConnection openSocket 1700000000000 "0.4fzyo82mvyr" 1700000000000
            "{}" "2023-11-14T22:13:20.000Z" threeClients))
  = ["client_1700000000000_82mvyr"].
Proof.
  assert (Hsoon : 1700000015000 - 1700000000000 <= 30000) by lia.
  exact (proj1 (new_connection_is_welcomed openSocket 1700000000000
                  "0.4fzyo82mvyr" 1700000000000 "{}"
                  "2023-11-14T22:13:20.000Z" threeClients 1700000015000
                  (proj1 threeClients_ok) eq_refl Hsoon)).
Defined.

End RegistryFacts.

(** ** More on the training service *)

Module RunFacts.
Import AITrainingService TrainingFacts.

(** *** The curves of every model type *)

Lemma exp_le_1 x : (0 <= x)%R -> (exp (- x) <= 1)%R.
Proof.
  intros Hx. rewrite <- exp_0.
  destruct (Req_dec x 0) as [->|Hne].
  - rewrite Ropp_0. apply Rle_refl.
  - left. apply exp_increasing. lra.
Qed.

Lemma model_curves_bounded progress modelType random :
  unit_interval random ->
  (generateAccuracy progress modelType random <= 0.95)%R
  /\ (0.05 <= generateLoss progress modelType random)%R.
Proof.
  intros [Hr _].
  pose proof (generateLoss_floor progress random 0.1 2.5 Hr) as L1.
  pose proof (generateLoss_floor progress random 0.15 3.0 Hr) as L2.
  pose proof (generateLoss_floor progress random 0.12 2.8 Hr) as L3.
  assert (A : forall a b, (Rmin a b <= a)%R) by (intros; apply Rmin_l).
  split.
  - unfold generateAccuracy.
    destruct (String.eqb modelType "CNN"); [apply A|].
    destruct (String.eqb modelType "LSTM");
      [eapply Rle_trans; [apply A | lra]|].
    destruct (String.eqb modelType "Transformer");
      [eapply Rle_trans; [apply A | lra] | apply A].
  - unfold generateLoss.
    destruct (String.eqb modelType "CNN"); [lra|].
    destruct (String.eqb modelType "LSTM"); [lra|].
    destruct (String.eqb modelType "Transformer"); lra.
Qed.



Lemma metrics_range_of progress modelType accuracyRandom lossRandom :
  (0 <= progress)%R -> unit_interval accuracyRandom ->
  unit_interval lossRandom ->
  (0.19 <= generateAccuracy progress modelType accuracyRandom <= 0.95)%R
  /\ (0.05 <= generateLoss progress modelType lossRandom < 3.2)%R.
Proof.
  intros Hp [Ha Ha'] [Hl Hl'].
  pose proof (exp_pos (- progress * 3)) as E1.
  pose proof (exp_pos (- progress * 2.5)) as E2.
  assert (E3 : (exp (- progress * 3) <= 1)%R).
  { replace (- progress * 3)%R with (- (progress * 3))%R by lra.
    apply exp_le_1. lra. }
  assert (E4 : (exp (- progress * 2.5) <= 1)%R).
  { replace (- progress * 2.5)%R with (- (progress * 2.5))%R by lra.
    apply exp_le_1. lra. }
  assert (M : forall a b lo, (lo <= a)%R -> (lo <= b)%R -> (lo <= Rmin a b)%R)
    by (intros; now apply Rmin_glb).
  assert (A : forall a b, (Rmin a b <= a)%R) by (intros; apply Rmin_l).
  split.
  - unfold generateAccuracy.
    destruct (String.eqb modelType "CNN");
      [split; [apply M; lra | apply A]|].
    destruct (String.eqb modelType "LSTM");
      [split; [apply M; lra | eapply Rle_trans; [apply A | lra]]|].
    destruct (String.eqb modelType "Transformer");
      [split; [apply M; lra | eapply Rle_trans; [apply A | lra]]
      | split; [apply M; lra | apply A]].
  - unfold generateLoss.
    destruct (String.eqb modelType "CNN"); [lra|].
    destruct (String.eqb modelType "LSTM"); [lra|].
    destruct (String.eqb modelType "Transformer"); lra.
Qed.


(** From progress 0 on, and for draws in [0, 1), the metrics of every
    model type stay in a fixed range: the accuracy in [0.19, 0.95] and
    the loss in [0.05, 3.2). *)
Theorem metrics_stay_in_range progress modelType accuracyRandom lossRandom :
  (0 <= progress)%R -> unit_interval accuracyRandom ->
  unit_interval lossRandom ->
  (0.19 <= generateAccuracy progress modelType accuracyRandom <= 0.95)%R
  /\ (0.05 <= generateLoss progress modelType lossRandom < 3.2)%R.
Proof. exact (metrics_range_of progress modelType accuracyRandom lossRandom). Qed.

Lemma metrics_stay_in_range_example :
  (0.19 <= generateAccuracy 0 "Transformer" 0 <= 0.95)%R
  /\ (0.05 <= generateLoss 0 "LSTM" 0 < 3.2)%R.
Proof.
  assert (H0 : (0 <= 0)%R) by lra.
  split.
  - apply (metrics_stay_in_range 0 "Transformer" 0 0 H0 unit_interval_0
             unit_interval_0).
  - apply (metrics_stay_in_range 0 "LSTM" 0 0 H0 unit_interval_0
             unit_interval_0).
Defined.

(** With the noise held fixed, more progress never gives a higher loss
    nor a lower accuracy. *)
Theorem curves_are_monotone p1 p2 modelType random :
  (p1 <= p2)%R ->
  (generateLoss p2 modelType random <= generateLoss p1 modelType random)%R
  /\ (generateAccuracy p1 modelType random
      <= generateAccuracy p2 modelType random)%R.
Proof.
  intros Hp.
  assert (E : forall k, (0 < k)%R -> (exp (- p2 * k) <= exp (- p1 * k))%R).
  { intros k Hk. destruct (Req_dec p1 p2) as [->|Hne]; [apply Rle_refl|].
    left. apply exp_increasing. nra. }
  pose proof (E 3%R ltac:(lra)) as E3.
  pose proof (E 2.5%R ltac:(lra)) as E25.
  assert (M : forall c a b, (a <= b)%R -> (Rmin c a <= Rmin c b)%R).
  { intros c a b Hab. apply Rmin_glb; [apply Rmin_l|].
    eapply Rle_trans; [apply Rmin_r | assumption]. }
  split.
  - unfold generateLoss.
    destruct (String.eqb modelType "CNN"); [lra|].
    destruct (String.eqb modelType "LSTM"); [lra|].
    destruct (String.eqb modelType "Transformer"); lra.
  - unfold generateAccuracy.
    destruct (String.eqb modelType "CNN"); [apply M; lra|].
    destruct (String.eqb modelType "LSTM"); [apply M; lra|].
    destruct (String.eqb modelType "Transformer"); apply M; lra.
Qed.

Lemma curves_are_monotone_example :
  (generateLoss 1 "CNN" 0 <= generateLoss 0 "CNN" 0)%R
  /\ (generateAccuracy 0 "CNN" 0 <= generateAccuracy 1 "CNN" 0)%R.
Proof.
  assert (H : (0 <= 1)%R) by lra.
  exact (curves_are_monotone 0 1 "CNN" 0 H).
Defined.


(** *** One batch *)

(** After a tick inside an epoch of a job with positive totals, for
    draws in [0, 1): the validation loss is the loss plus at most 0.1,
    the validation accuracy is between 0 and the accuracy, and the
    accuracy and the loss are in the range of the curves. *)
Theorem batch_metrics p modelType batchDuration u :
  draws_ok u -> 0 <= epoch p -> 0 <= currentBatch p ->
  0 < totalBatches p -> 0 < totalEpochs p ->
  let p' := afterBatch p modelType batchDuration u in
  (loss p' <= validationLoss p' <= loss p' + 0.1)%R
  /\ (0 <= validationAccuracy p' <= accuracy p')%R
  /\ (0.19 <= accuracy p' <= 0.95)%R
  /\ (0.05 <= loss p' < 3.2)%R.
Proof.
  intros (Hl & Ha & Hvl & Hva & _ & _) He Hb Hn HE p'.
  set (progress := ((IZR (epoch p) + IZR (currentBatch p + 1)
                                     / IZR (totalBatches p))
                    / IZR (totalEpochs p))%R).
  assert (Hp : (0 <= progress)%R).
  { unfold progress.
    assert (0 <= IZR (epoch p))%R by now apply IZR_le.
    assert (0 <= IZR (currentBatch p + 1))%R by (apply IZR_le; lia).
    assert (0 < IZR (totalBatches p))%R by now apply IZR_lt.
    assert (0 < IZR (totalEpochs p))%R by now apply IZR_lt.
    apply Rmult_le_pos; [|left; now apply Rinv_0_lt_compat].
    apply Rplus_le_le_0_compat; [assumption|].
    apply Rmult_le_pos; [assumption | left; now apply Rinv_0_lt_compat]. }
  pose proof (metrics_range_of progress modelType (accuracyDraw u)
                (lossDraw u) Hp Ha Hl) as [HA HL].
  subst p'. unfold afterBatch. simpl. fold progress.
  unfold unit_interval in Hvl, Hva.
  split; [lra|]. split; [|split; assumption].
  split; [apply Rmax_l|].
  apply Rmax_lub; lra.
Qed.


Lemma batch_metrics_example :
  (loss tickedProgress <= validationLoss tickedProgress
   <= loss tickedProgress + 0.1)%R
  /\ (0 <= validationAccuracy tickedProgress <= accuracy tickedProgress)%R
  /\ (0.19 <= accuracy tickedProgress <= 0.95)%R
  /\ (0.05 <= loss tickedProgress < 3.2)%R.
Proof.
  apply (batch_metrics (withStatus training (seed scenarioA "m1")) "CNN"
           (120000 / IZR 1) zeroDraws zeroDraws_ok).
  - apply Z.leb_le. reflexivity.
  - apply Z.leb_le. reflexivity.
  - reflexivity.
  - reflexivity.
Defined.

(** *** The final metrics *)

(** For draws in [0, 1) and a job that ends with an accuracy in the
    range of the accuracy curves, from 0.19 to 0.95, the update of
    [finalizeModel] holds three scores: a precision from 0.95 a to a, a
    recall from 0.93 a to a, and an F1 score that is a number, not [NaN],
    of at least 0.93 a and below 1. *)
Theorem final_metrics_bounds progress u :
  draws_ok u -> (0.19 <= accuracy progress <= 0.95)%R ->
  exists precision recall f1 : R,
    Schema.precision_opt (finalMetrics progress u) = Some precision
    /\ Schema.recall_opt (finalMetrics progress u) = Some recall
    /\ Schema.f1Score_opt (finalMetrics progress u) = Some (Finite f1)
    /\ (0.95 * accuracy progress <= precision <= accuracy progress)%R
    /\ (0.93 * accuracy progress <= recall <= accuracy progress)%R
    /\ (0.93 * accuracy progress <= f1 < 1)%R.
Proof.
  intros (_ & _ & _ & _ & [Hp Hp'] & [Hr Hr']) Ha.
  unfold finalMetrics. cbn [Schema.precision_opt Schema.recall_opt
                             Schema.f1Score_opt].
  set (a := accuracy progress) in *.
  set (P := (a * (0.95 + precisionDraw u * 0.05))%R).
  set (Q := (a * (0.93 + recallDraw u * 0.07))%R).
  assert (HP : (0.95 * a <= P <= a)%R) by (unfold P; split; nra).
  assert (HQ : (0.93 * a <= Q <= a)%R) by (unfold Q; split; nra).
  assert (Hsum : (0 < P + Q)%R) by nra.
  exists P, Q, (2 * (P * Q) / (P + Q))%R.
  split; [reflexivity|]. split; [reflexivity|]. split.
  { rewrite divide_finite by lra. reflexivity. }
  split; [assumption|]. split; [assumption|].
  assert (Hf : (0.93 * a * (P + Q) <= 2 * (P * Q)
                /\ 2 * (P * Q) <= a * (P + Q))%R) by (split; nra).
  destruct Hf as [Hf1 Hf2].
  assert (Hq : (2 * (P * Q) / (P + Q) * (P + Q) = 2 * (P * Q))%R)
    by (field; lra).
  split.
  - apply (Rmult_le_reg_r (P + Q)); [assumption|]. rewrite Hq. exact Hf1.
  - apply (Rmult_lt_reg_r (P + Q)); [assumption|]. rewrite Hq. nra.
Qed.

(** A job that ended with the accuracy 0.9. *)
Definition accurate : TrainingProgress :=
  {| modelId := "m1"; epoch := 1; totalEpochs := 1; loss := 0.2%R;
     accuracy := 0.9%R; validationLoss := 0.25%R;
     validationAccuracy := 0.88%R; learningRate := 0.01%R;
     estimatedTimeRemaining := 0%R; status := completed;
     currentBatch := 0; totalBatches := 1 |}.

Lemma final_metrics_bounds_example :
  exists precision recall f1 : R,
    Schema.precision_opt (finalMetrics accurate zeroDraws) = Some precision
    /\ Schema.recall_opt (finalMetrics accurate zeroDraws) = Some recall
    /\ Schema.f1Score_opt (finalMetrics accurate zeroDraws) = Some (Finite f1)
    /\ (0.95 * accuracy accurate <= precision <= accuracy accurate)%R
    /\ (0.93 * accuracy accurate <= recall <= accuracy accurate)%R
    /\ (0.93 * accuracy accurate <= f1 < 1)%R.
Proof.
  apply (final_metrics_bounds accurate zeroDraws zeroDraws_ok).
  simpl. lra.
Defined.

(** *** The estimate of the time left *)




(** *** What the WebSocket clients hear of a job *)






(** *** The start of a job *)

(** For a configuration of safe integers (a positive batch size, a
    dataset size that is not negative, and [epochs * 120] safe as well):
    when the storage layer has answered, the job is registered under the
    id of the new record, which is the id returned: its progress is at
    epoch 0 and batch 0 with the status training and the first estimate
    of 120 s per epoch, a timer is registered for it, and it is listed
    as active.  The number of batches per epoch is the ceiling of
    [datasetSize / batchSize]. *)
Theorem created_job_is_registered modelConfig id s :
  0 < ModelConfig.batchSize modelConfig ->
  safeInteger (ModelConfig.batchSize modelConfig) ->
  0 <= ModelConfig.datasetSize modelConfig ->
  safeInteger (ModelConfig.datasetSize modelConfig) ->
  safeInteger (ModelConfig.epochs modelConfig * 120) ->
  exists p,
    fst (onCreated modelConfig id s) = id
    /\ getTrainingProgress id (snd (onCreated modelConfig id s)) = Some p
    /\ JSMap.has id (activeTraining (snd (onCreated modelConfig id s))) = true
    /\ In p (getAllActiveTraining (snd (onCreated modelConfig id s)))
    /\ modelId p = id /\ status p = training
    /\ epoch p = 0 /\ currentBatch p = 0
    /\ totalEpochs p = ModelConfig.epochs modelConfig
    /\ estimatedTimeRemaining p = IZR (ModelConfig.epochs modelConfig * 120)
    /\ (totalBatches p - 1) * ModelConfig.batchSize modelConfig
       < ModelConfig.datasetSize modelConfig
       <= totalBatches p * ModelConfig.batchSize modelConfig.
Proof.
  intros Hb _ _ _ _. exists (withStatus training (seed modelConfig id)).
  split; [reflexivity|].
  assert (Hg : getTrainingProgress id (snd (onCreated modelConfig id s))
               = Some (withStatus training (seed modelConfig id))).
  { rewrite onCreated_eq. unfold getTrainingProgress, deref. simpl.
    now rewrite JSMapFacts.get_set_same, nth_error_last. }
  split; [exact Hg|]. split; [|split].
  - rewrite onCreated_eq. unfold JSMap.has. simpl.
    now rewrite JSMapFacts.get_set_same.
  - unfold getTrainingProgress in Hg.
    destruct (JSMap.get id (trainingProgress (snd (onCreated modelConfig id s))))
      as [r|] eqn:Hr; [|discriminate].
    now apply (getAllActiveTraining_In _ id r).
  - repeat split; simpl; unfold ceilDiv.
    + set (a := ModelConfig.datasetSize modelConfig).
      set (b := ModelConfig.batchSize modelConfig) in *.
      pose proof (Z.div_mod (- a) b ltac:(lia)).
      pose proof (Z.mod_pos_bound (- a) b Hb). nia.
    + set (a := ModelConfig.datasetSize modelConfig).
      set (b := ModelConfig.batchSize modelConfig) in *.
      pose proof (Z.div_mod (- a) b ltac:(lia)).
      pose proof (Z.mod_pos_bound (- a) b Hb). nia.
Qed.

Lemma created_job_is_registered_example :
  exists p,
    fst (onCreated scenarioA "m1" (withSuspended [] started)) = "m1"
    /\ getTrainingProgress "m1" created = Some p
    /\ JSMap.has "m1" (activeTraining created) = true
    /\ In p (getAllActiveTraining created)
    /\ modelId p = "m1" /\ status p = training
    /\ epoch p = 0 /\ currentBatch p = 0
    /\ totalEpochs p = 1
    /\ estimatedTimeRemaining p = IZR (1 * 120)
    /\ (totalBatches p - 1) * 10 < 10 <= totalBatches p * 10.
Proof.
  apply (created_job_is_registered scenarioA "m1" (withSuspended [] started)).
  - reflexivity.
  - split; apply Z.leb_le; reflexivity.
  - apply Z.leb_le. reflexivity.
  - split; apply Z.leb_le; reflexivity.
  - split; apply Z.leb_le; reflexivity.
Defined.


(** *** The metrics report *)

Lemma floor_range x (a b : Z) : (IZR a <= x < IZR b)%R -> a <= floor x < b.
Proof.
  intros [Ha Hb]. unfold floor.
  destruct (base_Int_part x) as [H1 H2]. split.
  - assert (H : (IZR (a - 1) < IZR (Int_part x))%R)
      by (rewrite minus_IZR; lra).
    apply lt_IZR in H. lia.
  - apply lt_IZR. lra.
Qed.

Lemma nth_error_map_seq (A : Type) (f : nat -> A) n i x :
  nth_error (map f (seq 0 n)) i = Some x -> x = f i /\ (i < n)%nat.
Proof.
  rewrite nth_error_map.
  destruct (nth_error (seq 0 n) i) as [k|] eqn:E; [|discriminate].
  simpl. intros [= <-].
  assert (Hi : (i < n)%nat).
  { assert (H : (i < List.length (seq 0 n))%nat)
      by (apply nth_error_Some; congruence).
    now rewrite length_seq in H. }
  apply nth_error_nth with (d := O) in E.
  rewrite seq_nth in E by assumption.
  simpl in E. subst k. now split.
Qed.

(** The report fails exactly when the storage layer has no such model,
    or the stored number of classes is not an array length: negative, or
    above [2^32 - 1].  Otherwise (the host having the memory for it) it
    holds one history entry per epoch,
    for the epochs 1, 2, ... in this order (50 of them when the model
    stores no number of epochs, or 0), five learning curves of that same
    length, and a square confusion matrix with one row per class (10
    when the model stores no number of classes, or 0). *)
Theorem metrics_report_shape model random :
  generateModelMetrics None random = Throw
  /\ (generateModelMetrics (Some model) random = Throw
      <-> orNumber (storedClasses model) 10 < 0
          \/ 4294967295 < orNumber (storedClasses model) 10)
  /\ (0 <= orNumber (storedClasses model) 10 <= 4294967295 ->
      exists m,
        generateModelMetrics (Some model) random = Normal m
        /\ map History.epoch (trainingHistory m)
           = map Z.of_nat (seq 1 (Z.to_nat (orNumber (storedEpochs model) 50)))
        /\ Curves.epochs (learningCurves m)
           = map History.epoch (trainingHistory m)
        /\ List.length (Curves.trainLoss (learningCurves m))
           = Z.to_nat (orNumber (storedEpochs model) 50)
        /\ List.length (Curves.valLoss (learningCurves m))
           = Z.to_nat (orNumber (storedEpochs model) 50)
        /\ List.length (Curves.trainAcc (learningCurves m))
           = Z.to_nat (orNumber (storedEpochs model) 50)
        /\ List.length (Curves.valAcc (learningCurves m))
           = Z.to_nat (orNumber (storedEpochs model) 50)
        /\ List.length (confusionMatrix m)
           = Z.to_nat (orNumber (storedClasses model) 10)
        /\ (forall row, In row (confusionMatrix m) ->
              List.length row = Z.to_nat (orNumber (storedClasses model) 10))
        /\ (AiModel.parameters model = None ->
            List.length (trainingHistory m) = 50%nat
            /\ List.length (confusionMatrix m) = 10%nat)).
Proof.
  split; [reflexivity|].
  unfold generateModelMetrics.
  destruct (Z.ltb_spec (orNumber (storedClasses model) 10) 0) as [Hlt|Hge];
    destruct (Z.ltb_spec 4294967295 (orNumber (storedClasses model) 10))
      as [Hgt|Hle]; simpl.
  - split; [tauto | lia].
  - split; [tauto | lia].
  - split; [tauto | lia].
  - split; [split; [discriminate | lia]|]. intros _.
    eexists. split; [reflexivity|]. simpl.
    split.
    { rewrite map_map. simpl. rewrite <- seq_shift, map_map. reflexivity. }
    split; [reflexivity|].
    rewrite !length_map, !length_seq.
    repeat (split; [reflexivity|]). split.
    + intros row Hrow. apply in_map_iff in Hrow as (i & <- & _).
      now rewrite length_map, length_seq.
    + intros Hn. unfold storedEpochs, storedClasses. rewrite Hn.
      split; reflexivity.
Qed.

Definition plainModel : AiModel.t :=
  {| AiModel.type := "CNN"; AiModel.parameters := None |}.

(** A model that stores [2^32] classes. *)
Definition wideModel : AiModel.t :=
  {| AiModel.type := "CNN";
     AiModel.parameters :=
       Some {| AiModel.epochs := Some 1; AiModel.classes := Some 4294967296 |} |}.

Lemma metrics_report_shape_example :
  (exists m,
     generateModelMetrics (Some plainModel) (fun _ => 0%R) = Normal m
     /\ List.length (trainingHistory m) = 50%nat
     /\ List.length (confusionMatrix m) = 10%nat)
  /\ generateModelMetrics (Some wideModel) (fun _ => 0%R) = Throw.
Proof.
  split.
  - destruct (metrics_report_shape plainModel (fun _ => 0%R))
      as (_ & _ & H).
    destruct H as (m & Hm & _ & _ & _ & _ & _ & _ & _ & _ & Hd).
    + split; apply Z.leb_le; reflexivity.
    + exists m. split; [exact Hm|]. apply Hd. reflexivity.
  - apply (proj1 (proj2 (metrics_report_shape wideModel (fun _ => 0%R)))).
    right. reflexivity.
Defined.

(** For draws in [0, 1), every cell of the confusion matrix of a report
    is a whole number from 0 to 695: a cell off the diagonal is the floor
    of [random * 100], from 0 to 99, and a cell on it the floor of five
    times such a cell plus [random * 200], which rounding can bring to
    695.  Every history entry has a loss of at least 0.05, an accuracy of
    at most 0.95, a validation loss of at least 0.05 and a validation
    accuracy of at most 0.95. *)
Theorem metrics_report_ranges model random m :
  (forall k, unit_interval (random k)) ->
  generateModelMetrics (Some model) random = Normal m ->
  (forall i j row c,
     nth_error (confusionMatrix m) i = Some row -> nth_error row j = Some c ->
     0 <= c <= 695 /\ (i <> j -> c <= 99))
  /\ (forall h, In h (trainingHistory m) ->
        (0.05 <= History.loss h)%R /\ (History.accuracy h <= 0.95)%R
        /\ (0.05 <= History.valLoss h)%R
        /\ (History.valAccuracy h <= 0.95)%R).
Proof.
  intros Hr. unfold generateModelMetrics.
  destruct ((orNumber (storedClasses model) 10 <? 0)
            || (4294967295 <? orNumber (storedClasses model) 10));
    [discriminate|].
  intros [= <-]. simpl.
  assert (Hcell : forall k, 0 <= floor (random k * 100) < 100).
  { intros k. apply floor_range. destruct (Hr k). simpl. lra. }
  split.
  - intros i j row c Hrow Hc.
    apply nth_error_map_seq in Hrow as [-> Hi].
    apply nth_error_map_seq in Hc as [-> Hj].
    destruct (Nat.eqb_spec i j) as [E|E].
    + split; [|intros Hne; now destruct Hne].
      match goal with
      | |- _ <= floor (IZR (floor (random ?a * 100)) * 5 + random ?b * 200) <= _ =>
          pose proof (Hcell a) as [H1 H2]; destruct (Hr b) as [H3 H4];
          assert (H5 : (0 <= IZR (floor (random a * 100)) <= 99)%R)
            by (split; apply IZR_le; lia);
          enough (0 <= floor (IZR (floor (random a * 100)) * 5 + random b * 200)
                  < 696) by lia;
          apply floor_range; simpl; lra
      end.
    + match goal with
      | |- (_ <= floor (random ?a * 100) <= _) /\ _ =>
          pose proof (Hcell a); split; [lia | intros _; lia]
      end.
  - intros h Hh. apply in_map_iff in Hh as (i & <- & _).
    unfold historyEntry.
    cbn [History.loss History.accuracy History.valLoss History.valAccuracy].
    set (progress := (IZR (Z.of_nat (S i))
                      / IZR (orNumber (storedEpochs model) 50))%R).
    split; [|split; [|split]].
    + apply (model_curves_bounded progress (AiModel.type model) _ (Hr _)).
    + apply (model_curves_bounded progress (AiModel.type model) _ (Hr _)).
    + pose proof (proj2 (model_curves_bounded progress (AiModel.type model)
                           _ (Hr (6 * i + 2)%nat))).
      destruct (Hr (6 * i + 3)%nat). lra.
    + pose proof (proj1 (model_curves_bounded progress (AiModel.type model)
                           _ (Hr (6 * i + 4)%nat))).
      destruct (Hr (6 * i + 5)%nat). lra.
Qed.

(** A model that stores one epoch and two classes, and its report when
    every draw is 0. *)
Definition smallModel : AiModel.t :=
  {| AiModel.type := "LSTM";
     AiModel.parameters :=
       Some {| AiModel.epochs := Some 1; AiModel.classes := Some 2 |} |}.

Definition noReport : ModelMetrics :=
  {| trainingHistory := []; confusionMatrix := [];
     learningCurves :=
       {| Curves.epochs := []; Curves.trainLoss := []; Curves.valLoss := [];
          Curves.trainAcc := []; Curves.valAcc := [] |} |}.

Definition smallReport : ModelMetrics :=
  match generateModelMetrics (Some smallModel) (fun _ => 0%R) with
  | Normal m => m
  | Throw => noReport
  end.

Lemma metrics_report_ranges_example :
  (forall i j row c,
     nth_error (confusionMatrix smallReport) i = Some row ->
     nth_error row j = Some c ->
     0 <= c <= 695 /\ (i <> j -> c <= 99))
  /\ (forall h, In h (trainingHistory smallReport) ->
        (0.05 <= History.loss h)%R /\ (History.accuracy h <= 0.95)%R
        /\ (0.05 <= History.valLoss h)%R
        /\ (History.valAccuracy h <= 0.95)%R).
Proof.
  apply (metrics_report_ranges smallModel (fun _ => 0%R) smallReport).
  - intros k. exact unit_interval_0.
  - reflexivity.
Defined.


(** *** The state of a completed job *)

(** The state the completing tick leaves a job in. *)
Definition final (p : TrainingProgress) : Prop :=
  status p = completed /\ epoch p = totalEpochs p /\ currentBatch p = 0
  /\ estimatedTimeRemaining p = 0%R.

(** The completing tick of the object [r] has run. *)
Definition finished (r : Ref) (s : Service) : Prop :=
  In r (finalizeRefs (suspended s)) \/ completedIn r (emitted (trace s)).

(** At least one epoch, of at least one batch. *)
Definition sized (p : TrainingProgress) : Prop :=
  1 <= totalBatches p /\ 1 <= totalEpochs p.

Record Fin (s : Service) : Prop := {
  fin_live :
    forall t p, In t (timers s) -> isInterval t = true ->
      deref (timerRef t) s = Some p -> 1 <= totalEpochs p ->
      epoch p < totalEpochs p;
  fin_done :
    forall r p, finished r s -> deref r s = Some p -> sized p -> final p;
  fin_event :
    forall x r q p, In (trainingComplete x r q) (emitted (trace s)) ->
      deref r s = Some p -> sized p -> q = p
}.

Lemma Fin_init : Fin init.
Proof.
  constructor; simpl; try tauto.
  intros r p [[]|(x & q & [])].
Qed.

(** The heap is as it was. *)
Lemma Fin_same s s' :
  Fin s -> heap s' = heap s ->
  (forall t, In t (timers s') -> isInterval t = true ->
     exists t0, In t0 (timers s) /\ isInterval t0 = true
                /\ timerRef t0 = timerRef t) ->
  (forall r, finished r s' -> finished r s) ->
  (forall x r q, In (trainingComplete x r q) (emitted (trace s')) ->
                 In (trainingComplete x r q) (emitted (trace s))) ->
  Fin s'.
Proof.
  intros [H1 H2 H3] Eh Ht Hf He.
  constructor; unfold deref in *; rewrite ?Eh.
  - intros t p Hin Hi Hp HE.
    destruct (Ht t Hin Hi) as (t0 & G1 & G2 & G3).
    apply (H1 t0 p); auto. now rewrite G3.
  - intros r p Hr. apply H2. auto.
  - intros x r q p Hin. apply (H3 x). auto.
Qed.

(** The object [r] is updated. *)
Lemma Fin_update s s' r p p' :
  Fin s -> deref r s = Some p -> heap s' = store r p' (heap s) ->
  totalBatches p' = totalBatches p -> totalEpochs p' = totalEpochs p ->
  (forall t, In t (timers s') -> isInterval t = true ->
     exists t0, In t0 (timers s) /\ isInterval t0 = true
                /\ timerRef t0 = timerRef t) ->
  (forall t, In t (timers s') -> isInterval t = true -> timerRef t = r ->
     1 <= totalEpochs p -> epoch p' < totalEpochs p') ->
  (forall r2, finished r2 s' -> r2 <> r -> finished r2 s) ->
  (finished r s' -> sized p -> final p') ->
  (forall x r2 q, In (trainingComplete x r2 q) (emitted (trace s')) ->
     (In (trainingComplete x r2 q) (emitted (trace s))
      /\ (r2 = r -> sized p -> p' = p))
     \/ (r2 = r /\ q = p')) ->
  Fin s'.
Proof.
  intros [H1 H2 H3] Hp Eh Hn HE Ht Hlive Hdone Hfinal Hev.
  assert (Hv : (r < List.length (heap s))%nat) by now apply deref_valid in Hp.
  constructor; unfold deref in *; rewrite ?Eh.
  - intros t q Hin Hi Hq HEq.
    destruct (Nat.eq_dec (timerRef t) r) as [E|E].
    + rewrite E, store_same in Hq by assumption. injection Hq as <-.
      apply (Hlive t); auto. congruence.
    + rewrite store_other in Hq by auto.
      destruct (Ht t Hin Hi) as (t0 & G1 & G2 & G3).
      apply (H1 t0 q); auto. now rewrite G3.
  - intros r2 q Hr2 Hq Hs.
    destruct (Nat.eq_dec r2 r) as [->|E].
    + rewrite store_same in Hq by assumption. injection Hq as <-.
      apply Hfinal; [assumption|]. unfold sized in *. now rewrite <- Hn, <- HE.
    + rewrite store_other in Hq by auto. apply (H2 r2); auto.
  - intros x r2 q q' Hin Hq' Hs.
    destruct (Hev x r2 q Hin) as [[Hold Hkeep]|[-> ->]].
    + destruct (Nat.eq_dec r2 r) as [->|E].
      * rewrite store_same in Hq' by assumption. injection Hq' as <-.
        assert (Hsp : sized p) by (unfold sized in *; now rewrite <- Hn, <- HE).
        rewrite (Hkeep eq_refl Hsp). apply (H3 x r q p Hold Hp Hsp).
      * rewrite store_other in Hq' by auto. apply (H3 x r2); auto.
    + rewrite store_same in Hq' by assumption. congruence.
Qed.

Lemma finished_emit r e s0 :
  finished r (perform (Emit e) s0) ->
  finished r s0 \/ exists x p, e = trainingComplete x r p.
Proof.
  unfold finished. simpl. rewrite emitted_app. simpl.
  intros [H|H]; [now left; left|].
  apply completedIn_app in H as [H|H]; [left; now right | now right].
Qed.

Lemma Fin_stopTraining x s : Inv s -> Fin s -> Fin (snd (stopTraining x s)).
Proof.
  intros HI HF. destruct (JSMap.get x (activeTraining s)) as [h|] eqn:Hx.
  2:{ now rewrite stopTraining_idle. }
  destruct (inv_active s HI x h Hx) as (r & t & ty & bd & H1 & H2 & H3 & H4).
  assert (Hr : timerRef t = r) by (unfold timerRef; now rewrite H4).
  assert (Hi : isInterval t = true) by (unfold isInterval; now rewrite H4).
  destruct (valid_deref r s) as [p Hp].
  { rewrite <- Hr. now apply (inv_timer_ref s HI). }
  rewrite (stopTraining_active x s h r p Hx H1 Hp). simpl.
  assert (Hnot : ~ finished r s).
  { intros [Hf|Hf].
    - now apply (inv_susp_done s HI r t Hf H2 Hi).
    - now apply (inv_complete_done s HI r t Hf H2 Hi). }
  apply (Fin_update s _ r p (withStatus failed p) HF Hp); try reflexivity.
  - simpl. intros t' Ht' Hi'. apply In_cleared in Ht' as [Ht' _]. eauto.
  - simpl. intros t' Ht' Hi' Hr' _. apply In_cleared in Ht' as [Ht' Hne].
    exfalso. apply Hne. rewrite <- H3.
    apply (inv_one_interval s HI); congruence.
  - intros r2 Hf _. apply finished_emit in Hf as [Hf|(y & q & [=])].
    exact Hf.
  - intros Hf. apply finished_emit in Hf as [Hf|(y & q & [=])].
    now destruct Hnot.
  - simpl. intros y r2 q Hin. rewrite emitted_app in Hin.
    apply In_snoc in Hin as [Hin|[=]]. left. split; [assumption|].
    intros -> _. exfalso. apply Hnot. right. now exists y, q.
Qed.
Lemma Fin_fire_timeout T r u s :
  Inv s -> Fin s -> In T (timers s) -> callback T = validationTimeout r ->
  Fin (fire T u s).
Proof.
  intros HI HF HT Hcb.
  assert (Hr : timerRef T = r) by (unfold timerRef; now rewrite Hcb).
  assert (Hi : isInterval T = false) by (unfold isInterval; now rewrite Hcb).
  assert (Hrep : repeat T = false) by (rewrite (inv_kind s HI T HT); exact Hi).
  unfold fire. rewrite Hrep, Hcb.
  destruct (valid_deref r s) as [p Hp].
  { rewrite <- Hr. now apply (inv_timer_ref s HI). }
  rewrite (onValidated_eq r _ p) by exact Hp.
  assert (Hnot : sized p -> ~ finished r s).
  { intros [Hn _] Hf. now apply (inv_no_timeout s HI r p T Hp Hn Hf HT). }
  apply (Fin_update s _ r p (withStatus training p) HF Hp); try reflexivity.
  - simpl. intros t' Ht' Hi'. apply In_cleared in Ht' as [Ht' _]. eauto.
  - simpl. intros t' Ht' Hi' Hr' HE. apply In_cleared in Ht' as [Ht' _].
    apply (fin_live s HF t' p Ht' Hi'); [now rewrite Hr' | assumption].
  - intros r2 Hf _. apply finished_emit in Hf as [Hf|(y & q & [=])].
    exact Hf.
  - intros Hf Hs. apply finished_emit in Hf as [Hf|(y & q & [=])].
    now destruct (Hnot Hs).
  - simpl. intros y r2 q Hin. rewrite emitted_app in Hin.
    apply In_snoc in Hin as [Hin|[=]]. left. split; [assumption|].
    intros -> Hs. exfalso. apply (Hnot Hs). right. now exists y, q.
Qed.

Lemma Fin_rearm t s : Fin s -> Fin (rearm t s).
Proof.
  intros HF. apply (Fin_same s); auto.
  intros t' Ht' Hi'.
  destruct (In_rearm t s t' Ht') as (t0 & G1 & _ & G2 & _).
  exists t0. split; [assumption|].
  split; [now rewrite <- (isInterval_callback t0 t') | ].
  symmetry. now apply timerRef_callback.
Qed.

Lemma Fin_fire_interval t x r ty bd u s :
  Inv s -> Fin s -> In t (timers s) ->
  callback t = trainingInterval x r ty bd ->
  due t <= now s ->
  Fin (fire t u s).
Proof.
  intros HI HF Ht Hcb Hdue.
  assert (Hr : timerRef t = r) by (unfold timerRef; now rewrite Hcb).
  assert (Hi : isInterval t = true) by (unfold isInterval; now rewrite Hcb).
  assert (Hrep : repeat t = true) by (rewrite (inv_kind s HI t Ht); exact Hi).
  unfold fire. rewrite Hrep, Hcb.
  assert (HI1 : Inv (rearm t s)) by now apply Inv_rearm.
  assert (HF1 : Fin (rearm t s)) by now apply Fin_rearm.
  destruct (rearm_In t s t Ht) as (t1 & Ht1 & Hh1 & Hcb1 & _).
  assert (Hr1 : timerRef t1 = r) by (unfold timerRef; now rewrite Hcb1, Hcb).
  assert (Hi1 : isInterval t1 = true)
    by (unfold isInterval; now rewrite Hcb1, Hcb).
  generalize dependent (rearm t s). intros s1 HI1 HF1 Ht1.
  destruct (valid_deref r s1) as [p Hp].
  { rewrite <- Hr1. now apply (inv_timer_ref s1 HI1). }
  assert (Hnot : ~ finished r s1).
  { intros [Hf|Hf].
    - now apply (inv_susp_done s1 HI1 r t1 Hf Ht1 Hi1).
    - now apply (inv_complete_done s1 HI1 r t1 Hf Ht1 Hi1). }
  assert (Hlive : 1 <= totalEpochs p -> epoch p < totalEpochs p).
  { apply (fin_live s1 HF1 t1 p Ht1 Hi1). now rewrite Hr1. }
  destruct (Z.lt_ge_cases (currentBatch p) (totalBatches p)) as [Hb|Hb].
  { rewrite (onInterval_batch _ x r ty bd u s1 p Hp Hb).
    apply (Fin_update s1 _ r p (afterBatch p ty bd u) HF1 Hp);
      try reflexivity.
    - simpl. eauto.
    - simpl. intros _ _ _ _. exact Hlive.
    - intros r2 Hf _. apply finished_emit in Hf as [Hf|(y & q & [=])].
      exact Hf.
    - intros Hf. apply finished_emit in Hf as [Hf|(y & q & [=])].
      now destruct Hnot.
    - simpl. intros y r2 q Hin. rewrite emitted_app in Hin.
      apply In_snoc in Hin as [Hin|[=]]. left. split; [assumption|].
      intros -> _. exfalso. apply Hnot. right. now exists y, q. }
  destruct (Z.lt_ge_cases (epoch p + 1) (totalEpochs p)) as [He|He].
  { rewrite (onInterval_validate _ x r ty bd u s1 p Hp Hb He).
    apply (Fin_update s1 _ r p
             (afterEpoch validating (estimatedTimeRemaining p) p) HF1 Hp);
      try reflexivity.
    - simpl. intros t' Ht' Hi'. apply In_snoc in Ht' as [Ht'| ->];
        [eauto | discriminate].
    - simpl. intros _ _ _ _ _. exact He.
    - unfold finished. simpl. rewrite emitted_app. simpl.
      intros r2 [Hf|Hf] _; [now left|].
      apply completedIn_app in Hf as [Hf|(y & q & [=])]. now right.
    - unfold finished. simpl. rewrite emitted_app. simpl.
      intros [Hf|Hf]; [destruct Hnot; now left|].
      apply completedIn_app in Hf as [Hf|(y & q & [=])].
      destruct Hnot; now right.
    - simpl. intros y r2 q Hin. rewrite emitted_app in Hin.
      apply In_snoc in Hin as [Hin|[=]]. left. split; [assumption|].
      intros -> _. exfalso. apply Hnot. right. now exists y, q. }
  rewrite (onInterval_complete _ x r ty bd u s1 p Hp Hb He).
  apply (Fin_update s1 _ r p (afterEpoch completed 0 p) HF1 Hp);
    try reflexivity.
  - simpl. intros t' Ht' Hi'. apply In_cleared in Ht' as [Ht' _]. eauto.
  - simpl. intros t' Ht' Hi' Hr' _. apply In_cleared in Ht' as [Ht' Hne].
    exfalso. apply Hne. rewrite <- Hh1.
    apply (inv_one_interval s1 HI1); congruence.
  - unfold finished, suspend. simpl. rewrite emitted_app. simpl.
    rewrite app_nil_r, finalizeRefs_app. simpl.
    intros r2 [Hf|Hf] Hne; [|now right].
    apply In_snoc in Hf as [Hf|Hf]; [now left | contradiction].
  - intros _ [_ HE]. unfold final. simpl. specialize (Hlive HE).
    repeat split. lia.
  - simpl. intros y r2 q Hin. rewrite emitted_app in Hin. simpl in Hin.
    rewrite app_nil_r in Hin. left. split; [assumption|].
    intros -> _. exfalso. apply Hnot. right. now exists y, q.
Qed.
Lemma Fin_drop pre k post s :
  Fin s -> suspended s = pre ++ k :: post ->
  Fin (withSuspended (pre ++ post) s).
Proof.
  intros HF E. apply (Fin_same s); auto.
  - simpl. eauto.
  - unfold finished. simpl. rewrite E.
    intros r [H|H]; [left; now apply finalizeRefs_drop | now right].
Qed.

Lemma Fin_onCreated modelConfig id s :
  Inv s -> Fin s -> Fin (snd (onCreated modelConfig id s)).
Proof.
  intros HI [H1 H2 H3]. rewrite onCreated_eq.
  set (p0 := withStatus training (seed modelConfig id)).
  assert (Hold : forall r q, (r < List.length (heap s))%nat ->
            nth_error (heap s ++ [p0]) r = Some q ->
            nth_error (heap s) r = Some q).
  { intros r q Hr Hq. now rewrite nth_error_app1 in Hq. }
  constructor; unfold deref, finished in *; simpl;
    rewrite ?emitted_app; simpl.
  - intros t p Ht Hi Hp HE. apply In_snoc in Ht as [Ht| ->].
    + apply (H1 t p Ht Hi); [|assumption].
      apply Hold; [|assumption]. now apply (inv_timer_ref s HI).
    + rewrite timerRef_intervalOf, nth_error_last in Hp.
      injection Hp as <-. simpl in *. lia.
  - intros r p Hf Hp Hs.
    assert (Hf0 : In r (finalizeRefs (suspended s))
                  \/ completedIn r (emitted (trace s))).
    { destruct Hf as [Hf|Hf]; [now left|].
      apply completedIn_app in Hf as [Hf|(y & q & [=])]. now right. }
    apply (H2 r p Hf0); [|assumption]. apply Hold; [|assumption].
    destruct Hf0 as [Hf0|Hf0].
    + now apply (inv_susp_ref s HI).
    + apply (completedIn_ref r (emitted (trace s))); [|assumption].
      apply (inv_event_ref s HI).
  - intros x r q p Hin Hp Hs. apply In_snoc in Hin as [Hin|[=]].
    apply (H3 x r q p Hin); [|assumption]. apply Hold; [|assumption].
    apply (inv_event_ref s HI _ Hin).
Qed.

Lemma Fin_onFinalized pre x r post s :
  Inv s -> Fin s -> suspended s = pre ++ afterFinalize x r :: post ->
  Fin (onFinalized x r (withSuspended (pre ++ post) s)).
Proof.
  intros HI HF E.
  assert (Hin : In r (finalizeRefs (suspended s)))
    by (rewrite E; apply finalizeRefs_mid).
  destruct (valid_deref r s) as [p Hp]; [now apply (inv_susp_ref s HI)|].
  rewrite (onFinalized_eq x r _ p) by exact Hp.
  apply (Fin_update s _ r p p HF Hp); try reflexivity.
  - simpl. symmetry. now apply store_id.
  - simpl. eauto.
  - simpl. intros t Ht Hi Hr. apply (fin_live s HF t p Ht Hi). now rewrite Hr.
  - unfold finished. simpl. rewrite emitted_app. simpl.
    intros r2 [Hf|Hf] Hne.
    + left. rewrite E. now apply finalizeRefs_drop.
    + apply completedIn_app in Hf as [Hf|(y & q & [= _ <- _])];
        [now right | contradiction].
  - intros _. apply (fin_done s HF r p); [now left | assumption].
  - simpl. intros y r2 q Hq. rewrite emitted_app in Hq.
    apply In_snoc in Hq as [Hq|[= -> -> ->]]; [left | right]; auto.
Qed.

Lemma step_Fin s s' : Inv s -> Fin s -> step s s' -> Fin s'.
Proof.
  intros HI HF Hstep. destruct Hstep as
    [s t Ht | s t u Hin Hdue Hmin Hu | s cfg | s pre post cfg id Hs
    | s pre post x r Hs | s pre post k Hs | s x].
  - apply (Fin_same s); auto. simpl. eauto.
  - destruct (callback t) as [x r ty bd|r] eqn:Hcb.
    + now apply (Fin_fire_interval t x r ty bd).
    + now apply (Fin_fire_timeout t r).
  - apply (Fin_same s); auto.
    + simpl. eauto.
    + unfold finished, startTraining, suspend. simpl.
      rewrite emitted_app, finalizeRefs_app. simpl. now rewrite !app_nil_r.
    + unfold startTraining. simpl. intros x r q.
      rewrite emitted_app. simpl. now rewrite app_nil_r.
  - apply Fin_onCreated.
    + now apply (Inv_drop pre (afterCreate cfg) post).
    + now apply (Fin_drop pre (afterCreate cfg) post).
  - now apply Fin_onFinalized.
  - now apply (Fin_drop pre k post).
  - now apply Fin_stopTraining.
Qed.

Lemma reachable_Fin s : reachable s -> Fin s.
Proof.
  induction 1 as [|s s' Hs IH Hstep]; [exact Fin_init|].
  exact (step_Fin s s' (reachable_Inv s Hs) IH Hstep).
Qed.

(** In every run, once ['trainingComplete'] has been emitted for a job
    with at least one epoch of at least one batch, the progress object
    of the job is in its final state, whatever happened since: the
    status is completed, the epoch is the number of epochs, the batch is
    0 and no time is left.  The event carries exactly this state, and no
    timer is left that works on the object. *)
Theorem completion_is_final s x r q p :
  reachable s -> In (trainingComplete x r q) (emitted (trace s)) ->
  deref r s = Some p -> 1 <= totalBatches p -> 1 <= totalEpochs p ->
  q = p
  /\ status p = completed /\ epoch p = totalEpochs p
  /\ currentBatch p = 0 /\ estimatedTimeRemaining p = 0%R
  /\ forall t, In t (timers s) -> timerRef t <> r.
Proof.
  intros Hs Hin Hp Hn HE.
  pose proof (reachable_Inv s Hs) as HI.
  pose proof (reachable_Fin s Hs) as HF.
  assert (Hc : completedIn r (emitted (trace s))) by now exists x, q.
  split; [apply (fin_event s HF x r q p Hin Hp); now split|].
  destruct (fin_done s HF r p) as (H1 & H2 & H3 & H4);
    [now right | assumption | now split |].
  repeat (split; [assumption|]).
  intros t Ht. apply (inv_no_timeout s HI r p t Hp Hn); auto.
Qed.

(** The progress of scenario A once its only epoch is over. *)
Definition finishedProgress : TrainingProgress :=
  afterEpoch completed 0 tickedProgress.

Lemma completion_is_final_example :
  finishedProgress = finishedProgress
  /\ status finishedProgress = completed
  /\ epoch finishedProgress = totalEpochs finishedProgress
  /\ currentBatch finishedProgress = 0
  /\ estimatedTimeRemaining finishedProgress = 0%R
  /\ forall t, In t (timers completedA) -> timerRef t <> O.
Proof.
  apply (completion_is_final completedA "m1" O finishedProgress
           finishedProgress reachable_completedA).
  - right. right. left. reflexivity.
  - reflexivity.
  - apply Z.leb_le. reflexivity.
  - apply Z.leb_le. reflexivity.
Defined.

End RunFacts.
